(** * Simon memory game (simon.ino): a shallow embedding and its properties

    The sketch is a single-threaded control loop over a handful of global
    variables.  The globals become one record, [State]; every sketch function
    becomes a computation in a small state-and-output monad [M] that threads
    the globals, logs what is sent to the pins, the buzzer, the serial port
    and the EEPROM, and can end in one of two abnormal ways: an array indexed
    outside its bounds, or a loop that never ends. *)

From Stdlib Require Import ZArith Lia Bool String.
From stdpp Require Import base list.

Open Scope Z_scope.

(** ** Constants of the sketch *)

Definition RED_LED : Z := 2.
Definition GREEN_LED : Z := 3.
Definition BLUE_LED : Z := 4.
Definition YELLOW_LED : Z := 5.
Definition RED_BTN : Z := 6.
Definition GREEN_BTN : Z := 7.
Definition BLUE_BTN : Z := 8.
Definition YELLOW_BTN : Z := 9.
Definition BUZZER : Z := 10.

Definition EEPROM_HIGH_SCORE : Z := 0.

Definition MAX_LEVEL : Z := 100.
Definition INITIAL_SPEED : Z := 1000.
Definition SPEED_DECREASE : Z := 50.
Definition MIN_SPEED : Z := 250.

Definition debounceDelay : Z := 50.

Definition ledPins : list Z := [RED_LED; GREEN_LED; BLUE_LED; YELLOW_LED].
Definition buttonPins : list Z := [RED_BTN; GREEN_BTN; BLUE_BTN; YELLOW_BTN].
Definition tones : list Z := [440; 554; 659; 880].

(** ** Machine data *)

(** A digital level, as [digitalRead] returns it and [digitalWrite] takes it. *)
Inductive Level : Type := LOW | HIGH.

Definition Level_eqb (a b : Level) : bool :=
  match a, b with
  | LOW, LOW | HIGH, HIGH => true
  | _, _ => false
  end.

Inductive PinMode : Type := OUTPUT | INPUT_PULLUP.

(** [byte] and [unsigned long] arithmetic wraps around. *)
Definition byte (x : Z) : Z := x mod 256.
Definition ulong (x : Z) : Z := x mod 2 ^ 32.

(** Arrays are lists indexed by the integer the sketch indexes them with. *)
Definition at_ {A} (l : list A) (i : Z) : option A :=
  if i <? 0 then None else l !! Z.to_nat i.
Definition sel {A} (d : A) (l : list A) (i : Z) : A := nth (Z.to_nat i) l d.
Definition upd {A} (l : list A) (i : Z) (v : A) : list A := <[Z.to_nat i := v]> l.

(** What the sketch sends to the outside world. *)
Inductive Event : Type :=
| SerialBegin (baud : Z)
| SetPinMode (pin : Z) (mode : PinMode)
| DigitalWrite (pin : Z) (v : Level)
| Tone (pin freq : Z)
| ToneFor (pin freq dur : Z)
| NoTone (pin : Z)
| Delay (ms : Z)
| EepromWrite (addr val : Z)
| SerialPrint (msg : string)
| SerialPrintln (msg : string)
| SerialPrintNum (n : Z)
| SerialPrintlnNum (n : Z).

(** The globals of the sketch, followed by the three pieces of hardware state
    the sketch depends on: the millisecond clock, the EEPROM cell that holds
    the high score, and how many values the random generator has given. *)
Record State : Type := mkState {
  currentButtonState : list Level;
  lastButtonState : list Level;
  lastDebounceTime : list Z;
  gameSequence : list Z;
  currentLevel : Z;
  highScore : Z;
  currentSpeed : Z;
  gameOver : bool;
  clock : Z;
  eeprom : Z;
  draws : nat
}.

Definition set_currentButtonState v s :=
  mkState v (lastButtonState s) (lastDebounceTime s) (gameSequence s)
    (currentLevel s) (highScore s) (currentSpeed s) (gameOver s)
    (clock s) (eeprom s) (draws s).
Definition set_lastButtonState v s :=
  mkState (currentButtonState s) v (lastDebounceTime s) (gameSequence s)
    (currentLevel s) (highScore s) (currentSpeed s) (gameOver s)
    (clock s) (eeprom s) (draws s).
Definition set_lastDebounceTime v s :=
  mkState (currentButtonState s) (lastButtonState s) v (gameSequence s)
    (currentLevel s) (highScore s) (currentSpeed s) (gameOver s)
    (clock s) (eeprom s) (draws s).
Definition set_gameSequence v s :=
  mkState (currentButtonState s) (lastButtonState s) (lastDebounceTime s) v
    (currentLevel s) (highScore s) (currentSpeed s) (gameOver s)
    (clock s) (eeprom s) (draws s).
Definition set_currentLevel v s :=
  mkState (currentButtonState s) (lastButtonState s) (lastDebounceTime s)
    (gameSequence s) v (highScore s) (currentSpeed s) (gameOver s)
    (clock s) (eeprom s) (draws s).
Definition set_highScore v s :=
  mkState (currentButtonState s) (lastButtonState s) (lastDebounceTime s)
    (gameSequence s) (currentLevel s) v (currentSpeed s) (gameOver s)
    (clock s) (eeprom s) (draws s).
Definition set_currentSpeed v s :=
  mkState (currentButtonState s) (lastButtonState s) (lastDebounceTime s)
    (gameSequence s) (currentLevel s) (highScore s) v (gameOver s)
    (clock s) (eeprom s) (draws s).
Definition set_gameOver v s :=
  mkState (currentButtonState s) (lastButtonState s) (lastDebounceTime s)
    (gameSequence s) (currentLevel s) (highScore s) (currentSpeed s) v
    (clock s) (eeprom s) (draws s).
Definition set_clock v s :=
  mkState (currentButtonState s) (lastButtonState s) (lastDebounceTime s)
    (gameSequence s) (currentLevel s) (highScore s) (currentSpeed s)
    (gameOver s) v (eeprom s) (draws s).
Definition set_eeprom v s :=
  mkState (currentButtonState s) (lastButtonState s) (lastDebounceTime s)
    (gameSequence s) (currentLevel s) (highScore s) (currentSpeed s)
    (gameOver s) (clock s) v (draws s).
Definition set_draws v s :=
  mkState (currentButtonState s) (lastButtonState s) (lastDebounceTime s)
    (gameSequence s) (currentLevel s) (highScore s) (currentSpeed s)
    (gameOver s) (clock s) (eeprom s) v.

(** The surroundings of the board: the level on each pin over time, the
    values the seeded generator hands out, how long one polling pass over the
    buttons takes, and what the EEPROM cell held at power-up. *)
Record Env : Type := mkEnv {
  pinLevel : Z -> Z -> Level;
  randomValue : nat -> Z;
  pollTime : Z;
  storedScore : Z
}.

(** ** The monad *)

Inductive Outcome (A : Type) : Type :=
| Ret (a : A) (s : State) (out : list Event)
| OutOfBounds
| Diverge.
Arguments Ret {A} a s out.
Arguments OutOfBounds {A}.
Arguments Diverge {A}.

Definition M (A : Type) : Type := State -> Outcome A.

Definition ret {A} (a : A) : M A := fun s => Ret a s [].

Definition bind {A B} (m : M A) (k : A -> M B) : M B := fun s =>
  match m s with
  | Ret a s1 o1 =>
      match k a s1 with
      | Ret b s2 o2 => Ret b s2 (o1 ++ o2)
      | OutOfBounds => OutOfBounds
      | Diverge => Diverge
      end
  | OutOfBounds => OutOfBounds
  | Diverge => Diverge
  end.

Declare Scope sketch_scope.
Delimit Scope sketch_scope with sketch.
Bind Scope sketch_scope with M.
Notation "x <- m ;; k" := (bind m (fun x => k))
  (at level 100, m at next level, right associativity) : sketch_scope.
Notation "m ;; k" := (bind m (fun _ => k))
  (at level 100, right associativity) : sketch_scope.
Open Scope sketch_scope.

Definition gets {A} (f : State -> A) : M A := fun s => Ret (f s) s [].
Definition modify (f : State -> State) : M unit := fun s => Ret tt (f s) [].
Definition emit (ev : Event) : M unit := fun s => Ret tt s [ev].
Definition outOfBounds {A} : M A := fun _ => OutOfBounds.
Definition diverge {A} : M A := fun _ => Diverge.

(** A checked array read: the embedding of an index the sketch computes.
    The sketch does not check its indices; the run of the embedding ends at
    the first read outside an array, and what the sketch as built does from
    there on is told by [loopWith], further down. *)
Definition index {A} (l : list A) (i : Z) : M A :=
  match at_ l i with
  | Some x => ret x
  | None => outOfBounds
  end.

(** A counted loop [for (byte i = from; i < from + n; i++) body(i)] whose
    bound does not change while it runs. *)
Fixpoint forN (n : nat) (i : Z) (body : Z -> M unit) : M unit :=
  match n with
  | O => ret tt
  | S n' => body i ;; forN n' (i + 1) body
  end.

(** ** The Arduino core functions the sketch calls *)

(** The Arduino core is not part of the sketch.  Its functions are modelled
    by what they do to the clock, the pins and the output: the clock is a
    millisecond counter that [millis] reads as an [unsigned long], and
    [delay] blocks for the given time. *)
Definition millis : M Z := gets (fun s => ulong (clock s)).

Definition advance (ms : Z) : M unit := modify (fun s => set_clock (clock s + ms) s).

Definition delay (ms : Z) : M unit := emit (Delay ms) ;; advance ms.

Definition digitalRead (e : Env) (pin : Z) : M Level :=
  gets (fun s => pinLevel e (clock s) pin).

Definition digitalWrite (pin : Z) (v : Level) : M unit := emit (DigitalWrite pin v).
Definition tone (pin freq : Z) : M unit := emit (Tone pin freq).
Definition toneFor (pin freq dur : Z) : M unit := emit (ToneFor pin freq dur).
Definition noTone (pin : Z) : M unit := emit (NoTone pin).
Definition pinMode (pin : Z) (mode : PinMode) : M unit := emit (SetPinMode pin mode).

Definition print (msg : string) : M unit := emit (SerialPrint msg).
Definition println (msg : string) : M unit := emit (SerialPrintln msg).
Definition printNum (n : Z) : M unit := emit (SerialPrintNum n).
Definition printlnNum (n : Z) : M unit := emit (SerialPrintlnNum n).

(** [random(K)] draws a value in [0, K) from a generator seeded once, in
    [setup]; the values of the generator are [randomValue] of the board. *)
Definition random (e : Env) (howbig : Z) : M Z := fun s =>
  Ret (randomValue e (draws s) mod howbig) (set_draws (S (draws s)) s) [].

(** The sketch uses one byte of the EEPROM, at [EEPROM_HIGH_SCORE]. *)
Definition EEPROM_read (addr : Z) : M Z := gets (fun s => byte (eeprom s)).
Definition EEPROM_write (addr val : Z) : M unit :=
  emit (EepromWrite addr val) ;; modify (set_eeprom (byte val)).

(** Time that passes while the sketch polls: one pass over the buttons with
    no press accepted takes [pollTime] milliseconds. *)
Definition idle (e : Env) : M unit := advance (pollTime e).

(** ** The sketch *)

Definition ledsAll (v : Level) : M unit :=
  forN 4 0 (fun j => digitalWrite (sel 0 ledPins j) v).

Definition startupSequence : M unit :=
  println "Running startup sequence..." ;;
  forN 4 0 (fun i =>
    digitalWrite (sel 0 ledPins i) HIGH ;;
    toneFor BUZZER (sel 0 tones i) 200 ;;
    print "Testing LED " ;;
    printlnNum i ;;
    delay 300 ;;
    digitalWrite (sel 0 ledPins i) LOW ;;
    delay 100) ;;
  forN 2 0 (fun _ =>
    ledsAll HIGH ;;
    toneFor BUZZER 1047 200 ;;
    delay 200 ;;
    ledsAll LOW ;;
    delay 200) ;;
  println "Startup complete".

Definition setup : M unit :=
  emit (SerialBegin 9600) ;;
  println "Simon Game Starting..." ;;
  forN 4 0 (fun i =>
    pinMode (sel 0 ledPins i) OUTPUT ;;
    pinMode (sel 0 buttonPins i) INPUT_PULLUP ;;
    digitalWrite (sel 0 ledPins i) LOW) ;;
  pinMode BUZZER OUTPUT ;;
  hs <- EEPROM_read EEPROM_HIGH_SCORE ;;
  modify (set_highScore hs) ;;
  print "High Score: " ;;
  printlnNum hs ;;
  startupSequence.

Definition addNewStep (e : Env) : M unit :=
  lvl <- gets currentLevel ;;
  if lvl <? MAX_LEVEL then
    r <- random e 4 ;;
    modify (fun s => set_gameSequence (upd (gameSequence s) lvl (byte r)) s) ;;
    print "Added step: " ;;
    seq <- gets gameSequence ;;
    x <- index seq lvl ;;
    printlnNum x
  else ret tt.

(** One pass of the playback loop, once [currentStep] is read. *)
Definition showStep (i currentStep : Z) : M unit :=
  led <- index ledPins currentStep ;;
  digitalWrite led HIGH ;;
  freq <- index tones currentStep ;;
  tone BUZZER freq ;;
  print "Step " ;;
  printNum i ;;
  print ": LED " ;;
  printlnNum currentStep ;;
  speed <- gets currentSpeed ;;
  delay speed ;;
  digitalWrite led LOW ;;
  noTone BUZZER ;;
  delay (speed / 2).

(** One pass of the playback loop: symbol [i] of the sequence is shown. *)
Definition displayStep (i : Z) : M unit :=
  seq <- gets gameSequence ;;
  currentStep <- index seq i ;;
  showStep i currentStep.

(** [for (byte i = 0; i <= currentLevel; i++)]: the counter is a byte, so
    the loop ends only if [currentLevel] is below 255.  The counter takes at
    most 256 values before it comes back to one it had: a loop that ends
    does so within 257 tests, and [fuel] counts them. *)
Fixpoint displayFrom (fuel : nat) (i : Z) : M unit :=
  match fuel with
  | O => diverge
  | S fuel' =>
      lvl <- gets currentLevel ;;
      if i <=? lvl then displayStep i ;; displayFrom fuel' (byte (i + 1))
      else ret tt
  end.

Definition displaySequence : M unit :=
  println "Displaying sequence..." ;;
  displayFrom 257 0 ;;
  println "Sequence complete".

(** [readButton]; its two calls of [millis] are taken to read the same
    value.  [button] is 0..3 wherever the sketch calls it, within the three
    debounce arrays. *)
Definition readButton (e : Env) (button : Z) : M bool :=
  reading <- digitalRead e (sel 0 buttonPins button) ;;
  last <- gets (fun s => sel HIGH (lastButtonState s) button) ;;
  (if negb (Level_eqb reading last) then
     now <- millis ;;
     modify (fun s => set_lastDebounceTime (upd (lastDebounceTime s) button now) s)
   else ret tt) ;;
  now <- millis ;;
  since <- gets (fun s => sel 0 (lastDebounceTime s) button) ;;
  buttonPressed <-
    (if debounceDelay <? ulong (now - since) then
       cur <- gets (fun s => sel HIGH (currentButtonState s) button) ;;
       if negb (Level_eqb reading cur) then
         modify (fun s => set_currentButtonState (upd (currentButtonState s) button reading) s) ;;
         ret (Level_eqb reading LOW)
       else ret false
     else ret false) ;;
  modify (fun s => set_lastButtonState (upd (lastButtonState s) button reading) s) ;;
  ret buttonPressed.

(** The feedback shown when a press is accepted while the player replays. *)
Definition pressFeedback (button : Z) : M unit :=
  digitalWrite (sel 0 ledPins button) HIGH ;;
  tone BUZZER (sel 0 tones button) ;;
  delay 200 ;;
  digitalWrite (sel 0 ledPins button) LOW ;;
  noTone BUZZER ;;
  print "Player pressed: " ;;
  printlnNum button.

(** [for (byte button = 0; button < 4; button++)] with its [break]: the
    buttons after the accepted one are not read in this pass. *)
Fixpoint scanButtons (e : Env) (n : nat) (button : Z) : M (option Z) :=
  match n with
  | O => ret None
  | S n' =>
      pressed <- readButton e button ;;
      if pressed then pressFeedback button ;; ret (Some button)
      else scanButtons e n' (button + 1)
  end.

(** [while (!inputReceived && (millis() - inputStartTime < 3000))].  Each
    pass that accepts no press takes [pollTime]; [fuel] counts the passes,
    and 3001 are enough when a pass takes a millisecond or more. *)
Fixpoint waitLoop (e : Env) (fuel : nat) (inputStartTime : Z) : M (option Z) :=
  match fuel with
  | O => diverge
  | S fuel' =>
      now <- millis ;;
      if ulong (now - inputStartTime) <? 3000 then
        r <- scanButtons e 4 0 ;;
        match r with
        | Some button => ret (Some button)
        | None => idle e ;; waitLoop e fuel' inputStartTime
        end
      else ret None
  end.

(** The wait for one step of the replay: the button of the first accepted
    press, or [None] when 3000 ms pass without one. *)
Definition awaitPress (e : Env) : M (option Z) :=
  inputStartTime <- millis ;;
  waitLoop e 3001 inputStartTime.

(** [for (byte currentStep = 0; currentStep <= currentLevel; currentStep++)]
    of [readPlayerSequence], with its two early returns; [fuel] as in
    [displayFrom]. *)
Fixpoint readSteps (e : Env) (fuel : nat) (currentStep : Z) : M bool :=
  match fuel with
  | O => diverge
  | S fuel' =>
      lvl <- gets currentLevel ;;
      if currentStep <=? lvl then
        r <- awaitPress e ;;
        match r with
        | None => println "Input timeout!" ;; ret false
        | Some playerInput =>
            seq <- gets gameSequence ;;
            expected <- index seq currentStep ;;
            if negb (playerInput =? expected) then
              println "Wrong button!" ;; ret false
            else readSteps e fuel' (byte (currentStep + 1))
        end
      else println "Sequence correct!" ;; ret true
  end.

Definition readPlayerSequence (e : Env) : M bool :=
  println "Reading player input..." ;;
  readSteps e 257 0.

(** The two animations of [handleGameOver], under the names its comments
    give them. *)
Definition errorSequence : M unit :=
  forN 4 0 (fun _ =>
    ledsAll HIGH ;;
    tone BUZZER 98 ;;
    delay 200 ;;
    ledsAll LOW ;;
    noTone BUZZER ;;
    delay 200).

Definition displayScore : M unit :=
  print "Final Score: " ;;
  lvl <- gets currentLevel ;;
  printlnNum lvl ;;
  delay 1000 ;;
  forN (Z.to_nat lvl) 0 (fun _ =>
    digitalWrite RED_LED HIGH ;;
    toneFor BUZZER 440 100 ;;
    delay 200 ;;
    digitalWrite RED_LED LOW ;;
    delay 200).

Definition handleGameOver : M unit :=
  modify (set_gameOver true) ;;
  println "Game Over!" ;;
  lvl <- gets currentLevel ;;
  hs <- gets highScore ;;
  (if hs <? lvl then
     modify (set_highScore lvl) ;;
     EEPROM_write EEPROM_HIGH_SCORE lvl ;;
     print "New High Score: " ;;
     printlnNum lvl
   else ret tt) ;;
  errorSequence ;;
  displayScore.

(** The speed the sketch computes for a level.  The arithmetic is done in
    [int]: with the level a byte the product is at most 12750 and the
    difference at least -11750, within 16 bits, so nothing wraps. *)
Definition speedFor (level : Z) : Z :=
  Z.max MIN_SPEED (INITIAL_SPEED - level * SPEED_DECREASE).

Definition levelUp : M unit :=
  modify (fun s => set_currentLevel (byte (currentLevel s + 1)) s) ;;
  modify (fun s => set_currentSpeed (speedFor (currentLevel s)) s) ;;
  print "Level up! Now at level " ;;
  lvl <- gets currentLevel ;;
  printlnNum lvl ;;
  delay 1000.

Definition resetGame : M unit :=
  println "Resetting game..." ;;
  modify (set_currentLevel 0) ;;
  modify (set_currentSpeed INITIAL_SPEED) ;;
  modify (set_gameOver false) ;;
  delay 500 ;;
  startupSequence.

Fixpoint checkFrom (e : Env) (n : nat) (i : Z) : M bool :=
  match n with
  | O => ret false
  | S n' =>
      pressed <- readButton e i ;;
      if pressed then ret true else checkFrom e n' (i + 1)
  end.

Definition checkAnyButton (e : Env) : M bool := checkFrom e 4 0.

(** [loop], called over and over by the Arduino core.  While the sketch
    waits for a restart, a call in which no press is accepted is one polling
    pass. *)
Definition loop (e : Env) : M unit :=
  over <- gets gameOver ;;
  if negb over then
    addNewStep e ;;
    displaySequence ;;
    ok <- readPlayerSequence e ;;
    if negb ok then handleGameOver else levelUp
  else
    pressed <- checkAnyButton e ;;
    if pressed then resetGame else idle e.

(** The globals as the sketch initialises them, at power-up. *)
Definition powerUp (e : Env) : State :=
  {| currentButtonState := [HIGH; HIGH; HIGH; HIGH];
     lastButtonState := [HIGH; HIGH; HIGH; HIGH];
     lastDebounceTime := [0; 0; 0; 0];
     gameSequence := replicate 100 0;
     currentLevel := 0;
     highScore := 0;
     currentSpeed := INITIAL_SPEED;
     gameOver := false;
     clock := 0;
     eeprom := byte (storedScore e);
     draws := O |}.

(** ** Runs of the sketch *)

(** The state an outcome ends in, if it ends normally. *)
Definition stateOf {A} (r : Outcome A) : option State :=
  match r with
  | Ret _ s _ => Some s
  | _ => None
  end.

Definition outputOf {A} (r : Outcome A) : list Event :=
  match r with
  | Ret _ _ o => o
  | _ => []
  end.

(** The states the sketch can be in between two calls of [loop]: the one
    [setup] leaves, and every state a call of [loop] returns in. *)
Inductive reachable (e : Env) : State -> Prop :=
| reach_setup s : stateOf (setup (powerUp e)) = Some s -> reachable e s
| reach_loop s s' : reachable e s -> stateOf (loop e s) = Some s' -> reachable e s'.

(** [n] calls of [loop] in a row. *)
Fixpoint run (e : Env) (n : nat) : M unit :=
  match n with
  | O => ret tt
  | S n' => loop e ;; run e n'
  end.

(** [won e n s s']: from [s], [n] rounds in a row are played and won, and
    leave the sketch in [s']. *)
Inductive won (e : Env) : nat -> State -> State -> Prop :=
| won_O s : won e O s s
| won_S n s s1 s2 :
    won e n s s1 -> gameOver s1 = false ->
    stateOf (loop e s1) = Some s2 -> gameOver s2 = false ->
    won e (S n) s s2.

(** A game starts in a state like this one: after [setup], or after
    [resetGame]. *)
Definition gameStart (s : State) : Prop :=
  currentLevel s = 0 /\ currentSpeed s = INITIAL_SPEED /\ gameOver s = false.

(** The symbols of the current game: the array holds them in its first
    [currentLevel] cells. *)
Definition sequence (s : State) : list Z :=
  take (Z.to_nat (currentLevel s)) (gameSequence s).

(** ** Relations between states *)

(** A computation keeps a relation between the state it starts in and the
    state it returns in.  With a preorder the property follows the shape of
    the code. *)
Definition keeps {A} (R : State -> State -> Prop) (m : M A) : Prop :=
  forall s a s' o, m s = Ret a s' o -> R s s'.

(** Everything but the clock and the debounce arrays is the same. *)
Definition sameGame (s s' : State) : Prop :=
  gameSequence s' = gameSequence s /\ currentLevel s' = currentLevel s /\
  highScore s' = highScore s /\ currentSpeed s' = currentSpeed s /\
  gameOver s' = gameOver s /\ eeprom s' = eeprom s /\ draws s' = draws s.

(** ** The states and outputs the functions lead to *)

Definition levelUpState (s : State) : State :=
  set_clock (clock s + 1000)
    (set_currentSpeed (speedFor (byte (currentLevel s + 1)))
       (set_currentLevel (byte (currentLevel s + 1)) s)).

(** The output of [startupSequence]; it does not depend on the state. *)
Definition startupOutput : list Event :=
  Eval cbv in outputOf (startupSequence
    (mkState [] [] [] [] 0 0 0 false 0 0 O)).

Definition resetState (s : State) : State :=
  set_clock (clock s + 2900)
    (set_gameOver false (set_currentSpeed INITIAL_SPEED (set_currentLevel 0 s))).

Definition errorOutput : list Event :=
  Eval cbv in outputOf (errorSequence (mkState [] [] [] [] 0 0 0 false 0 0 O)).

Definition scorePulse : list Event :=
  [DigitalWrite RED_LED HIGH; ToneFor BUZZER 440 100; Delay 200;
   DigitalWrite RED_LED LOW; Delay 200].

(** What [handleGameOver] does to the high score. *)
Definition recordScore (s : State) : State :=
  if highScore s <? currentLevel s
  then set_eeprom (byte (currentLevel s)) (set_highScore (currentLevel s) s)
  else s.

Definition recordOutput (s : State) : list Event :=
  if highScore s <? currentLevel s
  then [EepromWrite EEPROM_HIGH_SCORE (currentLevel s);
        SerialPrint "New High Score: "; SerialPrintlnNum (currentLevel s)]
  else [].

Definition gameOverState (s : State) : State :=
  set_clock (clock s + 2600 + Z.of_nat (Z.to_nat (currentLevel s)) * 400)
    (recordScore (set_gameOver true s)).

Definition gameOverOutput (s : State) : list Event :=
  SerialPrintln "Game Over!" :: recordOutput s ++ errorOutput ++
  [SerialPrint "Final Score: "; SerialPrintlnNum (currentLevel s); Delay 1000]
  ++ concat (replicate (Z.to_nat (currentLevel s)) scorePulse).

(** The symbol [addNewStep] draws in state [s]. *)
Definition nextSymbol (e : Env) (s : State) : Z :=
  byte (randomValue e (draws s) mod 4).

Definition addedState (e : Env) (s : State) : State :=
  set_gameSequence (upd (gameSequence s) (currentLevel s) (nextSymbol e s))
    (set_draws (S (draws s)) s).

(** ** Playback *)

(** One presentation request: symbol [x], at index [i] of the sequence, is
    lit and sounded for [on] milliseconds and followed by [off] milliseconds
    of silence. *)
Definition present (i x on off : Z) : list Event :=
  [DigitalWrite (sel 0 ledPins x) HIGH; Tone BUZZER (sel 0 tones x);
   SerialPrint "Step "; SerialPrintNum i; SerialPrint ": LED ";
   SerialPrintlnNum x; Delay on;
   DigitalWrite (sel 0 ledPins x) LOW; NoTone BUZZER; Delay off].

(** The requests for the symbols [xs], which sit at indices [i], [i+1], ... *)
Fixpoint playback (i : Z) (xs : list Z) (on off : Z) : list Event :=
  match xs with
  | [] => []
  | x :: xs' => present i x on off ++ playback (i + 1) xs' on off
  end.

Definition idleState (e : Env) (s : State) : State :=
  set_clock (clock s + pollTime e) s.

(** ** The invariant of the game loop *)

Record wf (s : State) : Prop := {
  wf_length : length (gameSequence s) = 100%nat;
  wf_symbols : Forall (fun x => 0 <= x < 4) (gameSequence s);
  wf_level : 0 <= currentLevel s <= MAX_LEVEL;
  wf_speed : currentSpeed s = speedFor (currentLevel s);
  wf_score : highScore s = eeprom s /\ 0 <= highScore s < 256
}.

(** ** Concrete boards and players *)

Definition sameLevel (s s' : State) : Prop :=
  currentLevel s' = currentLevel s /\ gameOver s' = gameOver s /\
  highScore s' = highScore s /\ eeprom s' = eeprom s /\
  currentSpeed s' = currentSpeed s /\ clock s' = clock s /\
  currentButtonState s' = currentButtonState s /\
  lastButtonState s' = lastButtonState s /\
  lastDebounceTime s' = lastDebounceTime s.

(** An executable form of [won], for concrete runs. *)
Fixpoint playRounds (e : Env) (n : nat) (s : State) : option State :=
  match n with
  | O => Some s
  | S n' =>
      if gameOver s then None
      else match stateOf (loop e s) with
           | Some s' => if gameOver s' then None else playRounds e n' s'
           | None => None
           end
  end.

(** A player who holds the red button for 200 ms out of every 400, on a
    board whose generator only draws red and whose polling pass takes 60 ms. *)
Definition redPlayer : Env :=
  {| pinLevel := fun t pin =>
       if (pin =? RED_BTN) && (t mod 400 <? 200) then LOW else HIGH;
     randomValue := fun _ => 0;
     pollTime := 60;
     storedScore := 0 |}.

Definition afterSetup : State :=
  Eval vm_compute in
    match stateOf (setup (powerUp redPlayer)) with
    | Some s => s
    | None => powerUp redPlayer
    end.

Definition afterRounds (n : nat) : State :=
  match playRounds redPlayer n afterSetup with
  | Some s => s
  | None => afterSetup
  end.

Definition lastLevel : State := Eval vm_compute in afterRounds 100.

(** [n] calls of [loop], whatever their outcome. *)
Fixpoint loops (e : Env) (n : nat) (s : State) : option State :=
  match n with
  | O => Some s
  | S n' =>
      match stateOf (loop e s) with
      | Some s' => loops e n' s'
      | None => None
      end
  end.

(** A player who does nothing for the first ten seconds and then holds the
    red button down, on a board whose EEPROM holds a high score of 5. *)
Definition lateComer : Env :=
  {| pinLevel := fun t pin =>
       if (pin =? RED_BTN) && (10000 <=? t) then LOW else HIGH;
     randomValue := fun k => 2 + Z.of_nat k;
     pollTime := 60;
     storedScore := 5 |}.

Definition lateSetup : State :=
  Eval vm_compute in
    match stateOf (setup (powerUp lateComer)) with
    | Some s => s
    | None => powerUp lateComer
    end.

Definition lateAfter (n : nat) : State :=
  match loops lateComer n lateSetup with
  | Some s => s
  | None => lateSetup
  end.

(** The first game of [lateComer] is lost in its first round; eleven calls
    of [loop] later the held button is about to be accepted. *)
Definition lateLost : State := Eval vm_compute in lateAfter 1.
Definition lateWaiting : State := Eval vm_compute in lateAfter 11.

(** ** What a computation may send out *)

Definition emits {A} (P : Event -> Prop) (m : M A) : Prop :=
  forall s a s' o, m s = Ret a s' o -> Forall P o.

(** Everything but a write to the EEPROM. *)
Definition noWrite (ev : Event) : Prop :=
  match ev with
  | EepromWrite _ _ => False
  | _ => True
  end.

(** The EEPROM writes among the events of an output, oldest first. *)
Fixpoint writes (o : list Event) : list (Z * Z) :=
  match o with
  | [] => []
  | EepromWrite addr val :: o' => (addr, val) :: writes o'
  | _ :: o' => writes o'
  end.

(** A player who keeps up with a generator that only draws red for forty
    seconds and then stops pressing; the EEPROM holds a high score of 2. *)
Definition quitter : Env :=
  {| pinLevel := fun t pin =>
       if (pin =? RED_BTN) && (t mod 400 <? 200) && (t <? 40000)
       then LOW else HIGH;
     randomValue := fun _ => 0;
     pollTime := 60;
     storedScore := 2 |}.

Definition quitterSetup : State :=
  Eval vm_compute in
    match stateOf (setup (powerUp quitter)) with
    | Some s => s
    | None => powerUp quitter
    end.

(** The state in which [quitter] starts the round that is lost, and the
    state that round ends in. *)
Definition quitterLastRound : State :=
  Eval vm_compute in
    match loops quitter 5 quitterSetup with
    | Some s => s
    | None => quitterSetup
    end.

Definition quitterLost : State :=
  Eval vm_compute in
    match stateOf (loop quitter quitterLastRound) with
    | Some s => s
    | None => quitterLastRound
    end.

(** ** The presenting phase *)

(** The presenting phase: the first two calls of a round in [loop]. *)
Definition presenting (e : Env) : M unit := addNewStep e ;; displaySequence.

(** What C7 says of the presenting phase that starts in state [s].  First,
    a symbol is drawn and put after the symbols of the game so far. *)
Definition drawsAndAppends (e : Env) (s : State) : Prop :=
  exists s1,
    addNewStep e s =
    Ret tt s1 [SerialPrint "Added step: "; SerialPrintlnNum (nextSymbol e s)] /\
    draws s1 = S (draws s) /\
    take (S (Z.to_nat (currentLevel s))) (gameSequence s1)
    = sequence s ++ [nextSymbol e s].

(** Then every symbol of the sequence, [currentLevel s + 1] of them, is
    presented in order, on for the current speed and off for half of it. *)
Definition presentsAll (e : Env) (s : State) : Prop :=
  drawsAndAppends e s /\
  exists s' xs,
    presenting e s =
    Ret tt s'
      ([SerialPrint "Added step: "; SerialPrintlnNum (nextSymbol e s);
        SerialPrintln "Displaying sequence..."]
       ++ playback 0 xs (currentSpeed s) (currentSpeed s / 2)
       ++ [SerialPrintln "Sequence complete"]) /\
    xs = take (S (Z.to_nat (currentLevel s))) (gameSequence s') /\
    Z.of_nat (length xs) = currentLevel s + 1.

(** ** Reading one button *)

(** The level [readButton] samples, and what it makes of it. *)
Definition reading (e : Env) (b : Z) (s : State) : Level :=
  pinLevel e (clock s) (sel 0 buttonPins b).

Definition changed (e : Env) (b : Z) (s : State) : bool :=
  negb (Level_eqb (reading e b s) (sel HIGH (lastButtonState s) b)).

Definition changeNoted (e : Env) (b : Z) (s : State) : State :=
  if changed e b s
  then set_lastDebounceTime (upd (lastDebounceTime s) b (ulong (clock s))) s
  else s.

Definition accepted (e : Env) (b : Z) (s : State) : bool :=
  (debounceDelay <?
     ulong (ulong (clock s) - sel 0 (lastDebounceTime (changeNoted e b s)) b))
  && negb (Level_eqb (reading e b s) (sel HIGH (currentButtonState s) b)).

Definition pressed (e : Env) (b : Z) (s : State) : bool :=
  accepted e b s && Level_eqb (reading e b s) LOW.

Definition polled (e : Env) (b : Z) (s : State) : State :=
  let s1 := changeNoted e b s in
  let s2 := if accepted e b s
            then set_currentButtonState
                   (upd (currentButtonState s1) b (reading e b s)) s1
            else s1 in
  set_lastButtonState (upd (lastButtonState s2) b (reading e b s)) s2.

(** ** The first accepted press of a step *)

(** What the wait of one step comes to, told by the polls of the buttons
    and the clock rather than by the loop that makes the polls.  While a
    step is less than 3000 ms old the four buttons are polled in passes, in
    the order 0, 1, 2, 3; [pressed] is what a poll makes of the level on the
    pin.  [polledBelow e k s] is the state in the pass that began in [s]
    once the buttons below [k] have been polled. *)
Fixpoint polledBelow (e : Env) (k : nat) (s : State) : State :=
  match k with
  | O => s
  | S k' => polled e (Z.of_nat k') (polledBelow e k' s)
  end.

(** In the pass that begins in [s], button [k] is the first whose poll is
    accepted as a press. *)
Definition acceptedFirst (e : Env) (s : State) (k : nat) : Prop :=
  (k < 4)%nat /\
  pressed e (Z.of_nat k) (polledBelow e k s) = true /\
  forall j, (j < k)%nat -> pressed e (Z.of_nat j) (polledBelow e j s) = false.

(** In the pass that begins in [s], no poll is accepted. *)
Definition noneAccepted (e : Env) (s : State) : Prop :=
  forall j, (j < 4)%nat -> pressed e (Z.of_nat j) (polledBelow e j s) = false.

(** [firstPress e t0 s r s']: a step began when the clock was at [t0], and
    a polling pass begins in [s].  The step ends with [r], in state [s']:
    with [Some k] when button [k] gives the first accepted press, in a pass
    that begins less than 3000 ms after [t0], and [s'] comes after the 200
    ms of feedback; with [None] when no press was accepted in any pass that
    began less than 3000 ms after [t0].  A pass without a press takes
    [pollTime]. *)
Inductive firstPress (e : Env) (t0 : Z) : State -> option Z -> State -> Prop :=
| firstPress_timeout s :
    3000 <= clock s - t0 -> firstPress e t0 s None s
| firstPress_here s k :
    clock s - t0 < 3000 -> acceptedFirst e s k ->
    firstPress e t0 s (Some (Z.of_nat k))
      (set_clock (clock s + 200) (polled e (Z.of_nat k) (polledBelow e k s)))
| firstPress_later s r s' :
    clock s - t0 < 3000 -> noneAccepted e s ->
    firstPress e t0 (idleState e (polledBelow e 4 s)) r s' ->
    firstPress e t0 s r s'.

(** ** Judging the replay *)

(** [replays e i s s']: from state [s] on, the player gets every step from
    [i] up to [currentLevel] right: in each step the first accepted press
    comes within the timeout, and its button is the symbol at that index.
    [s'] is the state after the last step. *)
Inductive replays (e : Env) : Z -> State -> State -> Prop :=
| replays_done i s :
    currentLevel s < i -> replays e i s s
| replays_step i s button s1 s2 :
    i <= currentLevel s ->
    firstPress e (clock s) s (Some button) s1 ->
    at_ (gameSequence s) i = Some button ->
    replays e (i + 1) s1 s2 ->
    replays e i s s2.

(** [misses e i s s']: from state [s] on, the player gets some steps from
    [i] on right and then misses one: no press is accepted within the
    timeout, or the first accepted press is on a button that is not the
    symbol at that index.  [s'] is the state at the end of the wait of the
    missed step. *)
Inductive misses (e : Env) : Z -> State -> State -> Prop :=
| misses_timeout i s s1 :
    i <= currentLevel s ->
    firstPress e (clock s) s None s1 ->
    misses e i s s1
| misses_wrong i s button expected s1 :
    i <= currentLevel s ->
    firstPress e (clock s) s (Some button) s1 ->
    at_ (gameSequence s) i = Some expected -> button <> expected ->
    misses e i s s1
| misses_later i s button s1 s2 :
    i <= currentLevel s ->
    firstPress e (clock s) s (Some button) s1 ->
    at_ (gameSequence s) i = Some button ->
    misses e (i + 1) s1 s2 ->
    misses e i s s2.

(** ** Waiting for a press *)

Definition feedbackOutput (button : Z) : list Event :=
  [DigitalWrite (sel 0 ledPins button) HIGH; Tone BUZZER (sel 0 tones button);
   Delay 200; DigitalWrite (sel 0 ledPins button) LOW; NoTone BUZZER;
   SerialPrint "Player pressed: "; SerialPrintlnNum button].

(** How a wait ended: with no press and no output, or with the feedback
    for button [k], 200 ms long. *)
Definition waitEnded (r : option Z) (lo hi : Z) (s s' : State) (o : list Event) :=
  match r with
  | None => o = [] /\ clock s' = clock s
  | Some k => lo <= k < hi /\ o = feedbackOutput k /\ clock s' = clock s + 200
  end.

(** The second round of [redPlayer], and the first round of [lateComer]. *)
Definition secondRound : State := Eval vm_compute in afterRounds 1.

Definition shownOf (e : Env) (s : State) : State :=
  match stateOf (presenting e s) with
  | Some s' => s'
  | None => s
  end.

Definition replayedOf (e : Env) (s : State) : State :=
  match stateOf (readPlayerSequence e s) with
  | Some s' => s'
  | None => s
  end.

Definition secondShown : State := Eval vm_compute in shownOf redPlayer secondRound.
Definition secondReplayed : State :=
  Eval vm_compute in replayedOf redPlayer secondShown.
Definition lateShown : State := Eval vm_compute in shownOf lateComer lateSetup.
Definition lateTimedOut : State :=
  Eval vm_compute in replayedOf lateComer lateShown.

(** ** Debouncing, one channel at a time *)

(** The debounce state of one button: the accepted level, the level read
    by the previous poll, and the clock value at the last change between two
    polls. *)
Record Channel : Type := mkChannel {
  stable : Level;
  lastRead : Level;
  changedAt : Z
}.

Definition channel (b : Z) (s : State) : Channel :=
  {| stable := sel HIGH (currentButtonState s) b;
     lastRead := sel HIGH (lastButtonState s) b;
     changedAt := sel 0 (lastDebounceTime s) b |}.

(** [readButton] as a function of the channel it polls, the level it reads
    and the value of [millis]. *)
Definition debounce (c : Channel) (r : Level) (now : Z) : Channel * bool :=
  let since := if negb (Level_eqb r (lastRead c)) then now else changedAt c in
  let accept :=
    (debounceDelay <? ulong (now - since)) && negb (Level_eqb r (stable c)) in
  ({| stable := if accept then r else stable c;
      lastRead := r;
      changedAt := since |},
   accept && Level_eqb r LOW).

Definition buttonsOk (s : State) : Prop :=
  length (currentButtonState s) = 4%nat /\
  length (lastButtonState s) = 4%nat /\
  length (lastDebounceTime s) = 4%nat.

(** The results of polling button [b] at the clock values [ts], in order;
    between two polls anything may happen that leaves the debounce state of
    the button alone. *)
Fixpoint pollsAt (e : Env) (b : Z) (ts : list Z) (s : State) : list bool :=
  match ts with
  | [] => []
  | t :: ts' =>
      match readButton e b (set_clock t s) with
      | Ret p s' _ => p :: pollsAt e b ts' s'
      | _ => []
      end
  end.

(** The same on one channel, over the samples the polls see. *)
Fixpoint debounceAll (c : Channel) (samples : list (Z * Level)) : list bool :=
  match samples with
  | [] => []
  | (t, r) :: rest => snd (debounce c r t) :: debounceAll (fst (debounce c r t)) rest
  end.

Definition samplesOf (e : Env) (b : Z) (ts : list Z) : list (Z * Level) :=
  map (fun t => (t, pinLevel e t (sel 0 buttonPins b))) ts.

(** The samples come in the order of the clock, from [from] on, before the
    clock wraps around. *)
Fixpoint timely (from : Z) (samples : list (Z * Level)) : Prop :=
  match samples with
  | [] => True
  | (t, _) :: rest => from <= t < 2 ^ 32 /\ timely t rest
  end.

(** The level bounces: no stretch of samples that read LOW is longer than
    [debounceDelay].  [since] is the time of the first sample of the
    stretch under way, if there is one. *)
Fixpoint briefLows (since : option Z) (samples : list (Z * Level)) : Prop :=
  match samples with
  | [] => True
  | (_, HIGH) :: rest => briefLows None rest
  | (t, LOW) :: rest =>
      match since with
      | None => briefLows (Some t) rest
      | Some t0 => t - t0 <= debounceDelay /\ briefLows since rest
      end
  end.

Fixpoint pressCount (l : list bool) : nat :=
  match l with
  | [] => O
  | true :: l' => S (pressCount l')
  | false :: l' => pressCount l'
  end.

(** The channel after the samples. *)
Fixpoint debounceEnd (c : Channel) (samples : list (Z * Level)) : Channel :=
  match samples with
  | [] => c
  | (t, r) :: rest => debounceEnd (fst (debounce c r t)) rest
  end.

Definition released (c : Channel) : Prop := stable c = HIGH /\ lastRead c = HIGH.

(** The raw level on a pin oscillates faster than the debounce interval:
    within any [debounceDelay] milliseconds it is HIGH at some time and LOW
    at some time. *)
Definition oscillates (e : Env) (pin : Z) : Prop :=
  forall t,
    (exists t1, t <= t1 < t + debounceDelay /\ pinLevel e t1 pin = HIGH) /\
    (exists t2, t <= t2 < t + debounceDelay /\ pinLevel e t2 pin = LOW).

(** A red button whose contact chatters for ever, LOW for 20 ms out of
    every 40, on a board that polls every millisecond. *)
Definition chatterer : Env :=
  {| pinLevel := fun t pin =>
       if (pin =? RED_BTN) && ((t + 39) mod 40 <? 20) then LOW else HIGH;
     randomValue := fun _ => 0;
     pollTime := 1;
     storedScore := 0 |}.

Definition chatterSetup : State :=
  Eval vm_compute in
    match stateOf (setup (powerUp chatterer)) with
    | Some s => s
    | None => powerUp chatterer
    end.

(** The state after the first round of [chatterer], lost by a timeout. *)
Definition chatterLost : State :=
  Eval vm_compute in
    match stateOf (loop chatterer chatterSetup) with
    | Some s => s
    | None => chatterSetup
    end.

(** A red button that bounces: it reads LOW for 20 ms out of every 40. *)
Definition bouncer : Env :=
  {| pinLevel := fun t pin =>
       if (pin =? RED_BTN) && (t mod 40 <? 20) then LOW else HIGH;
     randomValue := fun _ => 0;
     pollTime := 10;
     storedScore := 0 |}.

(** ** What the cells beyond the current sequence can do *)

Definition mapState {A} (f : State -> State) (r : Outcome A) : Outcome A :=
  match r with
  | Ret a s o => Ret a (f s) o
  | OutOfBounds => OutOfBounds
  | Diverge => Diverge
  end.

(** A computation is blind to the sequence array when putting another
    array in its place changes nothing but the array in the final state. *)
Definition blind {A} (m : M A) : Prop :=
  forall g s, m (set_gameSequence g s) = mapState (set_gameSequence g) (m s).

(** The array [g] holds what the array of [s] holds in every cell up to
    [currentLevel]. *)
Definition agreeUpTo (s : State) (g : list Z) : Prop :=
  forall j, j <= currentLevel s -> at_ g j = at_ (gameSequence s) j.

(** Two states are alike when they differ at most in the cells of the
    sequence array that the current game has not filled yet. *)
Definition alike (s t : State) : Prop :=
  t = set_gameSequence (gameSequence t) s /\
  length (gameSequence s) = 100%nat /\ length (gameSequence t) = 100%nat /\
  0 <= currentLevel s /\
  forall j, j < currentLevel s -> at_ (gameSequence t) j = at_ (gameSequence s) j.

(** Two outcomes are the same to an observer: both return, with the same
    value and the same output, in states that are alike; or both fail in the
    same way. *)
Definition related {A} (r1 r2 : Outcome A) : Prop :=
  match r1, r2 with
  | Ret a s o, Ret a' s' o' => a = a' /\ o = o' /\ alike s s'
  | OutOfBounds, OutOfBounds => True
  | Diverge, Diverge => True
  | _, _ => False
  end.

(** The array that takes the place of [g] when [addNewStep] runs. *)
Definition addedTo (e : Env) (s : State) (g : list Z) : list Z :=
  if currentLevel s <? MAX_LEVEL
  then upd g (currentLevel s) (nextSymbol e s) else g.

(** The state in which [lateComer] starts a second game. *)
Definition lateRestarted : State := Eval vm_compute in lateAfter 12.

(** ** Further properties: what they are stated with *)

(** The levels at which games ended during [n] calls of [loop], oldest
    first. *)
Fixpoint finishedLevels (e : Env) (n : nat) (s : State) : list Z :=
  match n with
  | O => []
  | S n' =>
      match stateOf (loop e s) with
      | Some s' =>
          (if negb (gameOver s) && gameOver s' then [currentLevel s'] else [])
          ++ finishedLevels e n' s'
      | None => []
      end
  end.


(** What the LEDs and the buzzer do, as the output tells: which LED pins are
    lit, and whether the buzzer sounds, for good or for some milliseconds
    more.  A tone started with a duration ends by itself; [delay] lets that
    time pass. *)
Inductive Buzzer : Type := Silent | Sounding | SoundingFor (ms : Z).

Record Board : Type := mkBoard { lit : list Z; buzzer : Buzzer }.

Definition boardStep (h : Board) (ev : Event) : Board :=
  match ev with
  | DigitalWrite pin HIGH =>
      mkBoard (pin :: List.filter (fun p => negb (p =? pin)) (lit h)) (buzzer h)
  | DigitalWrite pin LOW =>
      mkBoard (List.filter (fun p => negb (p =? pin)) (lit h)) (buzzer h)
  | Tone _ _ => mkBoard (lit h) Sounding
  | ToneFor _ _ dur => mkBoard (lit h) (SoundingFor dur)
  | NoTone _ => mkBoard (lit h) Silent
  | Delay ms =>
      match buzzer h with
      | SoundingFor rest =>
          mkBoard (lit h) (if rest <=? ms then Silent else SoundingFor (rest - ms))
      | _ => h
      end
  | _ => h
  end.

Definition boardRun (h : Board) (o : list Event) : Board :=
  fold_left boardStep o h.

(** No LED is lit and the buzzer is silent. *)
Definition quiet (h : Board) : Prop := lit h = [] /\ buzzer h = Silent.

(** A computation that starts with the board quiet leaves it quiet. *)
Definition restores {A} (m : M A) : Prop :=
  forall s a s' o h, m s = Ret a s' o -> quiet h -> quiet (boardRun h o).

(** An event that lights no LED and starts no tone. *)
Definition harmless (ev : Event) : bool :=
  match ev with
  | DigitalWrite _ HIGH | Tone _ _ | ToneFor _ _ _ => false
  | _ => true
  end.

(** The three debounce arrays keep their lengths. *)
Definition sameSizes (s s' : State) : Prop :=
  length (currentButtonState s') = length (currentButtonState s) /\
  length (lastButtonState s') = length (lastButtonState s) /\
  length (lastDebounceTime s') = length (lastDebounceTime s).

(** One pass over the buttons [lo], [lo + 1], ... below [hi], from state [s]
    to state [s'], that ended with [r]: with [Some k] at button [k], or
    with [None] after the last button.  The button it ended at is one whose
    poll, made in [s], is accepted as a press; the polls of the buttons
    before it, made in [s], are not; the buttons up to it have the debounce
    state their own poll in [s] gives them; the others have the one they had. *)
Definition scanned (e : Env) (lo : Z) (r : option Z) (hi : Z) (s s' : State) : Prop :=
  let stop := match r with Some k => k | None => hi end in
  match r with
  | Some k => lo <= k < hi /\ pressed e k s = true
  | None => True
  end /\
  (forall j, lo <= j < stop -> pressed e j s = false) /\
  (forall j, lo <= j < hi -> j <= stop ->
             channel j s' = channel j (polled e j s)) /\
  (forall j, 0 <= j < 4 -> j < lo \/ stop < j -> channel j s' = channel j s).

(** How many of the polls at the clock values [ts] read button [b] released. *)
Definition highReads (e : Env) (b : Z) (ts : list Z) : nat :=
  length (List.filter
            (fun t => Level_eqb (pinLevel e t (sel 0 buttonPins b)) HIGH) ts).

(** The samples the polls at the clock values [ts] see, with the value
    [millis] has at each: the clock modulo 2^32. *)
Definition samplesAt (e : Env) (b : Z) (ts : list Z) : list (Z * Level) :=
  map (fun t => (ulong t, pinLevel e t (sel 0 buttonPins b))) ts.

(** The clock values [ts] come in order, from [from] on, and less than 2^32
    ms after [t0]; they may lie on both sides of a wrap of [millis]. *)
Fixpoint within (t0 from : Z) (ts : list Z) : Prop :=
  match ts with
  | [] => True
  | t :: rest => from <= t < t0 + 2 ^ 32 /\ within t0 t rest
  end.

(** What the sketch may send out once [setup] is done: writes to the four
    LED pins; tones on the buzzer pin, at the frequency of one of the four
    colours or at the error tone when they are stopped by [noTone], and no
    longer than 200 ms when they end by themselves; delays between 100 and
    1000 ms; a write of a level below MAX_LEVEL that was reached, 1..99, to
    the EEPROM cell of the high score; text on the serial line.  Pins are not configured
    again and the serial line is not opened again. *)
Definition allowed (ev : Event) : bool :=
  match ev with
  | DigitalWrite pin _ => existsb (Z.eqb pin) ledPins
  | Tone pin freq => (pin =? BUZZER) && (existsb (Z.eqb freq) tones || (freq =? 98))
  | ToneFor pin _ dur => (pin =? BUZZER) && (0 <? dur) && (dur <=? 200)
  | NoTone pin => pin =? BUZZER
  | Delay ms => (100 <=? ms) && (ms <=? 1000)
  | EepromWrite addr val =>
      (addr =? EEPROM_HIGH_SCORE) && (0 <? val) && (val <? MAX_LEVEL)
  | SerialBegin _ | SetPinMode _ _ => false
  | _ => true
  end.

(** The beeps of the score display: tones of 440 Hz on the buzzer that end
    by themselves after 100 ms. *)
Definition isBeep (ev : Event) : bool :=
  match ev with
  | ToneFor pin freq dur => (pin =? BUZZER) && (freq =? 440) && (dur =? 100)
  | _ => false
  end.

Definition beeps (o : list Event) : nat := length (List.filter isBeep o).

(** ** The sketch as built: reads past the end of an array *)

(** [index] ends a run at the first read outside an array.  The sketch has
    no such check: as it is built, a read past the end of an array gives
    whatever the board holds at that address, and the run goes on.  The
    functions that read an array at a computed index are given once more
    here, over the read [rd] they use.  With [index] for [rd] they are the
    functions above.  A read [rd] is [unchecked] when it gives the cell
    inside the array and some value outside it, and never ends the run;
    [peek past] is the one that finds [past] outside every array. *)
Definition unchecked (rd : list Z -> Z -> M Z) : Prop :=
  forall l i s, exists x,
    rd l i s = Ret x s [] /\ forall y, at_ l i = Some y -> x = y.


Definition showStepWith (rd : list Z -> Z -> M Z) (i currentStep : Z) : M unit :=
  led <- rd ledPins currentStep ;;
  digitalWrite led HIGH ;;
  freq <- rd tones currentStep ;;
  tone BUZZER freq ;;
  print "Step " ;;
  printNum i ;;
  print ": LED " ;;
  printlnNum currentStep ;;
  speed <- gets currentSpeed ;;
  delay speed ;;
  digitalWrite led LOW ;;
  noTone BUZZER ;;
  delay (speed / 2).

Definition displayStepWith (rd : list Z -> Z -> M Z) (i : Z) : M unit :=
  seq <- gets gameSequence ;;
  currentStep <- rd seq i ;;
  showStepWith rd i currentStep.

Fixpoint displayFromWith (rd : list Z -> Z -> M Z) (fuel : nat) (i : Z) : M unit :=
  match fuel with
  | O => diverge
  | S fuel' =>
      lvl <- gets currentLevel ;;
      if i <=? lvl then displayStepWith rd i ;; displayFromWith rd fuel' (byte (i + 1))
      else ret tt
  end.


Fixpoint readStepsWith (rd : list Z -> Z -> M Z) (e : Env) (fuel : nat)
    (currentStep : Z) : M bool :=
  match fuel with
  | O => diverge
  | S fuel' =>
      lvl <- gets currentLevel ;;
      if currentStep <=? lvl then
        r <- awaitPress e ;;
        match r with
        | None => println "Input timeout!" ;; ret false
        | Some playerInput =>
            seq <- gets gameSequence ;;
            expected <- rd seq currentStep ;;
            if negb (playerInput =? expected) then
              println "Wrong button!" ;; ret false
            else readStepsWith rd e fuel' (byte (currentStep + 1))
        end
      else println "Sequence correct!" ;; ret true
  end.




(** [m'] does what [m] does whenever [m] returns. *)
Definition refines {A} (m m' : M A) : Prop :=
  forall s a s' o, m s = Ret a s' o -> m' s = Ret a s' o.


(** * Properties *)

(** ** Machine data *)

(** ** Reasoning about computations *)

Lemma bind_inv {A B} (m : M A) (k : A -> M B) s b s2 o :
  bind m k s = Ret b s2 o ->
  exists a s1 o1 o2,
    m s = Ret a s1 o1 /\ k a s1 = Ret b s2 o2 /\ o = o1 ++ o2.
Proof.
  unfold bind. destruct (m s) as [a s1 o1| |]; try discriminate.
  destruct (k a s1) as [b' s2' o2| |] eqn:Hk; try discriminate.
  intros [= -> -> <-]. now exists a, s1, o1, o2.
Qed.

Lemma bind_stateOf {A B} (m : M A) (k : A -> M B) s s2 :
  stateOf (bind m k s) = Some s2 ->
  exists a s1 o1, m s = Ret a s1 o1 /\ stateOf (k a s1) = Some s2.
Proof.
  unfold bind. destruct (m s) as [a s1 o1| |]; try discriminate.
  intros H. exists a, s1, o1. split; [reflexivity|].
  destruct (k a s1); try discriminate. exact H.
Qed.

Lemma stateOf_Some {A} (r : Outcome A) s :
  stateOf r = Some s -> exists a o, r = Ret a s o.
Proof. destruct r; try discriminate. intros [= ->]. eauto. Qed.

Section Keeps.
Variable R : State -> State -> Prop.
Hypothesis R_refl : forall s, R s s.
Hypothesis R_trans : forall s1 s2 s3, R s1 s2 -> R s2 s3 -> R s1 s3.

Lemma keeps_ret {A} (a : A) : keeps R (ret a).
Proof. intros s a' s' o H. inversion H; subst. apply R_refl. Qed.

Lemma keeps_gets {A} (f : State -> A) : keeps R (gets f).
Proof. intros s a' s' o H. inversion H; subst. apply R_refl. Qed.

Lemma keeps_emit ev : keeps R (emit ev).
Proof. intros s a' s' o H. inversion H; subst. apply R_refl. Qed.

Lemma keeps_modify f : (forall s, R s (f s)) -> keeps R (modify f).
Proof. intros Hf s a' s' o H. inversion H; subst. apply Hf. Qed.

Lemma keeps_fail {A} : keeps R (@outOfBounds A) /\ keeps R (@diverge A).
Proof. split; intros s a s' o; discriminate. Qed.

Lemma keeps_index {A} (l : list A) i : keeps R (index l i).
Proof.
  unfold index. destruct (at_ l i); [apply keeps_ret | apply keeps_fail].
Qed.

Lemma keeps_bind {A B} (m : M A) (k : A -> M B) :
  keeps R m -> (forall a, keeps R (k a)) -> keeps R (bind m k).
Proof.
  intros Hm Hk s b s2 o H.
  destruct (bind_inv _ _ _ _ _ _ H) as (a & s1 & o1 & o2 & H1 & H2 & _).
  eapply R_trans; [eapply Hm | eapply Hk]; eassumption.
Qed.

Lemma keeps_forN n i body :
  (forall j, keeps R (body j)) -> keeps R (forN n i body).
Proof.
  intros Hb. revert i. induction n as [|n IH]; intros i; simpl.
  - apply keeps_ret.
  - apply keeps_bind; [apply Hb | intros _; apply IH].
Qed.
End Keeps.

(** The relations the sketch functions are shown to keep. *)

Lemma sameGame_refl s : sameGame s s.
Proof. unfold sameGame; tauto. Qed.

Lemma sameGame_trans s1 s2 s3 : sameGame s1 s2 -> sameGame s2 s3 -> sameGame s1 s3.
Proof. unfold sameGame; intuition congruence. Qed.

Create HintDb keeps.

Ltac keeps_step R Rrefl Rtrans :=
  lazymatch goal with
  | |- keeps _ (bind _ _) => apply keeps_bind; [exact Rtrans | | intros ?]
  | |- keeps _ (ret _) => apply keeps_ret; exact Rrefl
  | |- keeps _ (gets _) => apply keeps_gets; exact Rrefl
  | |- keeps _ (emit _) => apply keeps_emit; exact Rrefl
  | |- keeps _ (index _ _) => apply keeps_index; exact Rrefl
  | |- keeps _ outOfBounds => apply keeps_fail
  | |- keeps _ diverge => apply keeps_fail
  | |- keeps _ (forN _ _ _) =>
      apply keeps_forN; [exact Rrefl | exact Rtrans | intros ?]
  | |- keeps _ (modify _) =>
      apply keeps_modify; intros ?; unfold R; simpl; repeat split; try reflexivity
  | |- keeps _ (if ?c then _ else _) => destruct c
  | |- keeps _ (match ?x with _ => _ end) => destruct x
  | |- keeps _ _ => solve [auto with keeps]
  end.

Ltac keeps_game := repeat keeps_step sameGame sameGame_refl sameGame_trans.

Lemma delay_sameGame ms : keeps sameGame (delay ms).
Proof. unfold delay, advance. keeps_game. Qed.

Lemma idle_sameGame e : keeps sameGame (idle e).
Proof. unfold idle, advance. keeps_game. Qed.

Lemma readButton_sameGame e button : keeps sameGame (readButton e button).
Proof. unfold readButton, digitalRead, millis. keeps_game. Qed.

#[local] Hint Resolve delay_sameGame idle_sameGame readButton_sameGame : keeps.

Lemma pressFeedback_sameGame button : keeps sameGame (pressFeedback button).
Proof.
  unfold pressFeedback, digitalWrite, tone, noTone, print, printlnNum.
  keeps_game.
Qed.

#[local] Hint Resolve pressFeedback_sameGame : keeps.

Lemma scanButtons_sameGame e n button : keeps sameGame (scanButtons e n button).
Proof.
  revert button. induction n as [|n IH]; intros button; simpl; keeps_game.
Qed.

#[local] Hint Resolve scanButtons_sameGame : keeps.

Lemma waitLoop_sameGame e fuel start : keeps sameGame (waitLoop e fuel start).
Proof. induction fuel as [|fuel IH]; simpl; unfold millis; keeps_game. Qed.

#[local] Hint Resolve waitLoop_sameGame : keeps.

Lemma awaitPress_sameGame e : keeps sameGame (awaitPress e).
Proof. unfold awaitPress, millis. keeps_game. Qed.

#[local] Hint Resolve awaitPress_sameGame : keeps.

Lemma readSteps_sameGame e fuel i : keeps sameGame (readSteps e fuel i).
Proof.
  revert i. induction fuel as [|fuel IH]; intros i; simpl; unfold println;
    keeps_game.
Qed.

#[local] Hint Resolve readSteps_sameGame : keeps.

Lemma readPlayerSequence_sameGame e : keeps sameGame (readPlayerSequence e).
Proof. unfold readPlayerSequence, println. keeps_game. Qed.

Lemma checkFrom_sameGame e n i : keeps sameGame (checkFrom e n i).
Proof. revert i. induction n as [|n IH]; intros i; simpl; keeps_game. Qed.

Lemma checkAnyButton_sameGame e : keeps sameGame (checkAnyButton e).
Proof. apply checkFrom_sameGame. Qed.

Lemma displayStep_sameGame i : keeps sameGame (displayStep i).
Proof.
  unfold displayStep, showStep.
  unfold digitalWrite, tone, noTone, print, printNum, printlnNum.
  keeps_game.
Qed.

#[local] Hint Resolve displayStep_sameGame : keeps.

Lemma displayFrom_sameGame fuel i : keeps sameGame (displayFrom fuel i).
Proof. revert i. induction fuel as [|fuel IH]; intros i; simpl; keeps_game. Qed.

#[local] Hint Resolve displayFrom_sameGame : keeps.

Lemma displaySequence_sameGame : keeps sameGame displaySequence.
Proof. unfold displaySequence, println. keeps_game. Qed.

(** ** What the straight-line functions compute *)

Lemma set_clock_same s : set_clock (clock s) s = s.
Proof. now destruct s. Qed.

Lemma set_clock_twice a b s : set_clock a (set_clock b s) = set_clock a s.
Proof. reflexivity. Qed.

Lemma forN_const n i (body : Z -> M unit) d evs s :
  (forall j s0, body j s0 = Ret tt (set_clock (clock s0 + d) s0) evs) ->
  forN n i body s =
  Ret tt (set_clock (clock s + Z.of_nat n * d) s) (concat (replicate n evs)).
Proof.
  intros Hb. revert i s. induction n as [|n IH]; intros i s.
  - simpl. unfold ret. now rewrite Z.add_0_r, set_clock_same.
  - cbn [forN]. unfold bind. rewrite Hb, IH. cbn [replicate concat].
    f_equal. cbn [clock set_clock].
    replace (clock s + d + Z.of_nat n * d) with (clock s + Z.of_nat (S n) * d) by lia.
    reflexivity.
Qed.

Lemma levelUp_spec s :
  levelUp s =
  Ret tt (levelUpState s)
    [SerialPrint "Level up! Now at level ";
     SerialPrintlnNum (byte (currentLevel s + 1)); Delay 1000].
Proof. reflexivity. Qed.

Lemma startupSequence_spec s :
  startupSequence s = Ret tt (set_clock (clock s + 2400) s) startupOutput.
Proof.
  unfold startupSequence, startupOutput. cbv -[Z.add].
  f_equal. f_equal. lia.
Qed.

Lemma resetGame_spec s :
  resetGame s =
  Ret tt (resetState s)
    (SerialPrintln "Resetting game..." :: Delay 500 :: startupOutput).
Proof.
  unfold resetGame. cbv -[Z.add]. f_equal. f_equal. lia.
Qed.

Lemma errorSequence_spec s :
  errorSequence s = Ret tt (set_clock (clock s + 1600) s) errorOutput.
Proof.
  unfold errorSequence, errorOutput. cbv -[Z.add]. f_equal. f_equal. lia.
Qed.

Lemma displayScore_spec s :
  displayScore s =
  Ret tt (set_clock (clock s + 1000 + Z.of_nat (Z.to_nat (currentLevel s)) * 400) s)
    ([SerialPrint "Final Score: "; SerialPrintlnNum (currentLevel s); Delay 1000]
       ++ concat (replicate (Z.to_nat (currentLevel s)) scorePulse)).
Proof.
  unfold displayScore.
  cbv [bind print emit gets printlnNum delay advance modify].
  cbn [currentLevel set_clock].
  rewrite (forN_const _ _ _ 400 scorePulse).
  - cbn [clock set_clock app]. reflexivity.
  - intros j s0. cbv -[Z.add]. f_equal. f_equal. lia.
Qed.

Lemma handleGameOver_spec s :
  handleGameOver s = Ret tt (gameOverState s) (gameOverOutput s).
Proof.
  unfold handleGameOver, gameOverState, gameOverOutput, recordScore, recordOutput.
  unfold bind at 1 2 3 4 5. cbn [modify gets println emit].
  cbn [currentLevel highScore set_gameOver].
  destruct (highScore s <? currentLevel s).
  - cbv [bind modify EEPROM_write emit print printlnNum].
    rewrite errorSequence_spec, displayScore_spec.
    cbn [currentLevel set_clock set_eeprom set_highScore set_gameOver clock app].
    rewrite set_clock_twice. do 2 f_equal. lia.
  - unfold bind, ret. rewrite errorSequence_spec, displayScore_spec.
    cbn [currentLevel set_clock set_gameOver clock app].
    rewrite set_clock_twice. do 2 f_equal. lia.
Qed.

Lemma at_upd_same {A} (l : list A) i v :
  0 <= i < Z.of_nat (length l) -> at_ (upd l i v) i = Some v.
Proof.
  intros H. unfold at_, upd. destruct (i <? 0) eqn:E; [lia|].
  apply list_lookup_insert_eq. lia.
Qed.

Lemma at_upd_other {A} (l : list A) i j v :
  0 <= i -> 0 <= j -> i <> j -> at_ (upd l i v) j = at_ l j.
Proof.
  intros Hi Hj Hne. unfold at_, upd. destruct (j <? 0); [reflexivity|].
  apply list_lookup_insert_ne. lia.
Qed.

Lemma at_None_ge {A} (l : list A) i :
  Z.of_nat (length l) <= i -> at_ l i = None.
Proof.
  intros H. unfold at_. destruct (i <? 0); [reflexivity|].
  apply lookup_ge_None. lia.
Qed.

Lemma addNewStep_below e s :
  0 <= currentLevel s < MAX_LEVEL ->
  length (gameSequence s) = 100%nat ->
  addNewStep e s =
  Ret tt (addedState e s)
    [SerialPrint "Added step: "; SerialPrintlnNum (nextSymbol e s)].
Proof.
  intros Hl Hlen. unfold addNewStep.
  unfold bind at 1. cbn [gets].
  destruct (currentLevel s <? MAX_LEVEL) eqn:E; [|lia].
  cbv [bind random modify print emit gets].
  cbn [gameSequence set_gameSequence set_draws].
  unfold index. fold (nextSymbol e s). rewrite at_upd_same.
  - reflexivity.
  - unfold MAX_LEVEL in Hl. lia.
Qed.

Lemma addNewStep_capped e s :
  MAX_LEVEL <= currentLevel s -> addNewStep e s = Ret tt s [].
Proof.
  intros Hl. unfold addNewStep. unfold bind, gets.
  destruct (currentLevel s <? MAX_LEVEL) eqn:E; [lia|]. reflexivity.
Qed.

(** ** Playback *)

Lemma symbol_cases x : 0 <= x < 4 -> x = 0 \/ x = 1 \/ x = 2 \/ x = 3.
Proof. lia. Qed.

Lemma displayStep_spec i x s :
  at_ (gameSequence s) i = Some x -> 0 <= x < 4 ->
  displayStep i s =
  Ret tt (set_clock (clock s + (currentSpeed s + currentSpeed s / 2)) s)
    (present i x (currentSpeed s) (currentSpeed s / 2)).
Proof.
  intros Hi Hx. unfold displayStep. unfold bind at 1 2. cbn [gets].
  unfold index at 1. rewrite Hi. cbn [ret].
  destruct (symbol_cases x Hx) as [-> | [-> | [-> | ->]]];
    cbv -[Z.add Z.div]; rewrite Z.add_assoc; reflexivity.
Qed.

Lemma displayStep_oob i s :
  at_ (gameSequence s) i = None -> displayStep i s = OutOfBounds.
Proof.
  intros Hi. unfold displayStep. unfold bind at 1 2. cbn [gets].
  unfold index at 1. now rewrite Hi.
Qed.

Lemma byte_small x : 0 <= x < 256 -> byte x = x.
Proof. intros H. unfold byte. now apply Z.mod_small. Qed.

Lemma displayFrom_run xs : forall fuel i s,
  (length xs < fuel)%nat -> 0 <= i ->
  i + Z.of_nat (length xs) = currentLevel s + 1 -> currentLevel s < 255 ->
  (forall k x, xs !! k = Some x ->
     at_ (gameSequence s) (i + Z.of_nat k) = Some x /\ 0 <= x < 4) ->
  displayFrom fuel i s =
  Ret tt
    (set_clock
       (clock s + Z.of_nat (length xs) * (currentSpeed s + currentSpeed s / 2)) s)
    (playback i xs (currentSpeed s) (currentSpeed s / 2)).
Proof.
  induction xs as [|x xs IH]; intros fuel i s Hfuel Hi Hlen Hlvl Hxs;
    (destruct fuel as [|fuel]; [simpl in Hfuel; lia|]); cbn [displayFrom length].
  - simpl in Hlen. unfold bind, gets.
    destruct (i <=? currentLevel s) eqn:E; [lia|].
    cbn [ret playback]. now rewrite Z.add_0_r, set_clock_same.
  - cbn [length] in Hlen, Hfuel. unfold bind at 1. cbn [gets].
    destruct (i <=? currentLevel s) eqn:E; [|lia].
    destruct (Hxs O x eq_refl) as [H0 Hx]. rewrite Z.add_0_r in H0.
    unfold bind. rewrite (displayStep_spec i x s H0 Hx).
    rewrite byte_small by lia.
    rewrite IH; cbn [currentLevel set_clock gameSequence currentSpeed clock];
      try lia.
    + cbn [playback app]. rewrite set_clock_twice. do 2 f_equal. lia.
    + intros k y Hk. destruct (Hxs (S k) y Hk) as [H1 H2].
      split; [|exact H2]. rewrite <- H1. f_equal. lia.
Qed.

Lemma displayFrom_oob n : forall fuel i s,
  (n < fuel)%nat -> 0 <= i ->
  i + Z.of_nat n = Z.of_nat (length (gameSequence s)) ->
  Z.of_nat (length (gameSequence s)) <= currentLevel s ->
  (length (gameSequence s) < 256)%nat ->
  Forall (fun x => 0 <= x < 4) (gameSequence s) ->
  displayFrom fuel i s = OutOfBounds.
Proof.
  induction n as [|n IH]; intros fuel i s Hfuel Hi Hlen Hlvl Hsmall Hsym;
    (destruct fuel as [|fuel]; [lia|]); cbn [displayFrom];
    unfold bind at 1; cbn [gets];
    (destruct (i <=? currentLevel s) eqn:E; [|lia]).
  - unfold bind. rewrite displayStep_oob; [reflexivity|].
    apply at_None_ge. lia.
  - destruct (at_ (gameSequence s) i) as [x|] eqn:Hx.
    + assert (Hr : 0 <= x < 4).
      { unfold at_ in Hx. destruct (i <? 0); [discriminate|].
        rewrite Forall_forall in Hsym. apply Hsym.
        eapply list_elem_of_lookup_2. exact Hx. }
      unfold bind. rewrite (displayStep_spec i x s Hx Hr).
      rewrite byte_small by lia.
      rewrite IH; cbn [currentLevel set_clock gameSequence]; try lia; auto.
    + unfold bind. now rewrite displayStep_oob.
Qed.

Lemma displaySequence_oob s :
  Z.of_nat (length (gameSequence s)) <= currentLevel s ->
  (length (gameSequence s) < 256)%nat ->
  Forall (fun x => 0 <= x < 4) (gameSequence s) ->
  displaySequence s = OutOfBounds.
Proof.
  intros Hlvl Hsmall Hsym. unfold displaySequence.
  unfold bind at 1. cbn [println emit]. unfold bind at 1.
  rewrite (displayFrom_oob (length (gameSequence s))); auto; lia.
Qed.

(** ** The game loop, case by case *)

Lemma loop_playing e s s1 o1 s2 o2 ok s3 o3 :
  gameOver s = false ->
  addNewStep e s = Ret tt s1 o1 ->
  displaySequence s1 = Ret tt s2 o2 ->
  readPlayerSequence e s2 = Ret ok s3 o3 ->
  loop e s =
  Ret tt (if ok then levelUpState s3 else gameOverState s3)
    (o1 ++ o2 ++ o3 ++
     (if ok then outputOf (levelUp s3) else gameOverOutput s3)).
Proof.
  intros Hg H1 H2 H3. unfold loop. unfold bind at 1. cbn [gets]. rewrite Hg.
  cbn [negb]. unfold bind. rewrite H1, H2, H3.
  destruct ok; cbn [negb].
  - rewrite levelUp_spec. cbn [outputOf app]. reflexivity.
  - rewrite handleGameOver_spec. cbn [app]. reflexivity.
Qed.

Lemma loop_playing_inv e s s' :
  gameOver s = false -> stateOf (loop e s) = Some s' ->
  exists s1 o1 s2 o2 ok s3 o3,
    addNewStep e s = Ret tt s1 o1 /\
    displaySequence s1 = Ret tt s2 o2 /\
    readPlayerSequence e s2 = Ret ok s3 o3 /\
    s' = (if ok then levelUpState s3 else gameOverState s3).
Proof.
  intros Hg H.
  destruct (addNewStep e s) as [[] s1 o1| |] eqn:H1;
    [|unfold loop, bind in H; cbn [gets] in H; rewrite Hg in H;
      cbn [negb] in H; rewrite H1 in H; discriminate..].
  destruct (displaySequence s1) as [[] s2 o2| |] eqn:H2;
    [|unfold loop, bind in H; cbn [gets] in H; rewrite Hg in H;
      cbn [negb] in H; rewrite H1, H2 in H; discriminate..].
  destruct (readPlayerSequence e s2) as [ok s3 o3| |] eqn:H3;
    [|unfold loop, bind in H; cbn [gets] in H; rewrite Hg in H;
      cbn [negb] in H; rewrite H1, H2, H3 in H; discriminate..].
  rewrite (loop_playing e s s1 o1 s2 o2 ok s3 o3 Hg H1 H2 H3) in H.
  injection H as <-. now exists s1, o1, s2, o2, ok, s3, o3.
Qed.

Lemma loop_idle e s pressed s1 o1 :
  gameOver s = true ->
  checkAnyButton e s = Ret pressed s1 o1 ->
  loop e s =
  Ret tt (if pressed then resetState s1 else idleState e s1)
    (o1 ++ if pressed then outputOf (resetGame s1) else []).
Proof.
  intros Hg H1. unfold loop. unfold bind at 1. cbn [gets]. rewrite Hg.
  cbn [negb]. unfold bind. rewrite H1. destruct pressed.
  - rewrite resetGame_spec. reflexivity.
  - reflexivity.
Qed.

Lemma loop_idle_inv e s s' :
  gameOver s = true -> stateOf (loop e s) = Some s' ->
  exists pressed s1 o1,
    checkAnyButton e s = Ret pressed s1 o1 /\
    s' = (if pressed then resetState s1 else idleState e s1).
Proof.
  intros Hg H.
  destruct (checkAnyButton e s) as [pressed s1 o1| |] eqn:H1;
    [|unfold loop, bind in H; cbn [gets] in H; rewrite Hg in H;
      cbn [negb] in H; rewrite H1 in H; discriminate..].
  rewrite (loop_idle e s pressed s1 o1 Hg H1) in H.
  injection H as <-. now exists pressed, s1, o1.
Qed.

(** ** The invariant of the game loop *)

Lemma wf_sameGame s s' : sameGame s s' -> wf s -> wf s'.
Proof.
  intros (H1 & H2 & H3 & H4 & H5 & H6 & H7) [].
  constructor; rewrite ?H1, ?H2, ?H3, ?H4, ?H6; assumption.
Qed.

Lemma nextSymbol_range e s : 0 <= nextSymbol e s < 4.
Proof.
  unfold nextSymbol.
  assert (H : 0 <= randomValue e (draws s) mod 4 < 4) by (apply Z.mod_pos_bound; lia).
  rewrite byte_small; lia.
Qed.

Lemma wf_added e s : wf s -> wf (addedState e s).
Proof.
  intros []. constructor; cbn; try assumption.
  - unfold upd. now rewrite length_insert.
  - unfold upd. apply Forall_insert; [assumption | apply nextSymbol_range].
Qed.

Lemma wf_powerUp_setup e s : stateOf (setup (powerUp e)) = Some s -> wf s.
Proof.
  unfold setup. intros H.
  cbv -[Z.add byte storedScore replicate] in H. injection H as <-.
  constructor; cbn -[replicate].
  - reflexivity.
  - apply (Forall_replicate _ 100). lia.
  - unfold MAX_LEVEL; lia.
  - reflexivity.
  - unfold byte. rewrite Z.mod_mod by lia.
    split; [reflexivity | apply Z.mod_pos_bound; lia].
Qed.

Lemma speedFor_range l : MIN_SPEED <= speedFor l /\ (0 <= l -> speedFor l <= INITIAL_SPEED).
Proof. unfold speedFor, MIN_SPEED, INITIAL_SPEED, SPEED_DECREASE. lia. Qed.

Lemma wf_levelUp s : wf s -> currentLevel s < MAX_LEVEL -> wf (levelUpState s).
Proof.
  intros [] Hl. unfold MAX_LEVEL in *.
  constructor; cbn; try assumption; rewrite byte_small by lia.
  - unfold MAX_LEVEL. lia.
  - reflexivity.
Qed.

Lemma wf_gameOver s : wf s -> wf (gameOverState s).
Proof.
  intros []. unfold MAX_LEVEL in *. unfold gameOverState, recordScore.
  cbn [highScore currentLevel set_gameOver].
  destruct (highScore s <? currentLevel s) eqn:E;
    constructor; cbn; try assumption.
  rewrite byte_small by lia. lia.
Qed.

Lemma wf_reset s : wf s -> wf (resetState s).
Proof.
  intros []. constructor; cbn; try assumption.
  - unfold MAX_LEVEL. lia.
  - reflexivity.
Qed.

Lemma wf_clock t s : wf s -> wf (set_clock t s).
Proof. intros []. constructor; cbn; assumption. Qed.

(** A round can only be played below the last level: at [MAX_LEVEL] the
    playback reads past the end of the array. *)
Lemma playing_below_max e s s' :
  wf s -> gameOver s = false -> stateOf (loop e s) = Some s' ->
  currentLevel s < MAX_LEVEL.
Proof.
  intros Hwf Hg H.
  destruct (Z.lt_ge_cases (currentLevel s) MAX_LEVEL) as [|Hge]; [assumption|].
  destruct (loop_playing_inv e s s' Hg H)
    as (s1 & o1 & s2 & o2 & ok & s3 & o3 & H1 & H2 & _).
  rewrite addNewStep_capped in H1 by assumption. injection H1 as <- <-.
  rewrite displaySequence_oob in H2; [discriminate| | |];
    destruct Hwf as [Hlen Hsym Hlvl _ _]; rewrite ?Hlen; auto;
    unfold MAX_LEVEL in *; lia.
Qed.

Lemma loop_wf e s s' : wf s -> stateOf (loop e s) = Some s' -> wf s'.
Proof.
  intros Hwf H. destruct (gameOver s) eqn:Hg.
  - destruct (loop_idle_inv e s s' Hg H) as (pressed & s1 & o1 & H1 & ->).
    apply checkAnyButton_sameGame in H1. apply (wf_sameGame _ _ H1) in Hwf.
    destruct pressed; [now apply wf_reset | now apply wf_clock].
  - pose proof (playing_below_max e s s' Hwf Hg H) as Hlt.
    destruct (loop_playing_inv e s s' Hg H)
      as (s1 & o1 & s2 & o2 & ok & s3 & o3 & H1 & H2 & H3 & ->).
    rewrite addNewStep_below in H1;
      [| destruct Hwf; lia | now destruct Hwf].
    injection H1 as <- <-.
    apply displaySequence_sameGame in H2.
    apply readPlayerSequence_sameGame in H3.
    pose proof (sameGame_trans _ _ _ H2 H3) as H23.
    assert (Hwf3 : wf s3) by (apply (wf_sameGame _ _ H23), wf_added, Hwf).
    destruct ok; [apply wf_levelUp | apply wf_gameOver]; auto.
    destruct H23 as (_ & -> & _). exact Hlt.
Qed.

Lemma reachable_wf e s : reachable e s -> wf s.
Proof.
  induction 1 as [s H|s s' _ IH H].
  - exact (wf_powerUp_setup e s H).
  - exact (loop_wf e s s' IH H).
Qed.

(** ** Rounds won in a row *)

Lemma sameLevel_refl s : sameLevel s s.
Proof. unfold sameLevel; tauto. Qed.

Lemma sameLevel_trans s1 s2 s3 : sameLevel s1 s2 -> sameLevel s2 s3 -> sameLevel s1 s3.
Proof. unfold sameLevel; intuition congruence. Qed.

(** [addNewStep] touches the sequence and the generator, nothing else. *)
Lemma addNewStep_sameLevel e : keeps sameLevel (addNewStep e).
Proof.
  unfold addNewStep, print, printlnNum.
  repeat keeps_step sameLevel sameLevel_refl sameLevel_trans.
  intros s0 r s1 o H. inversion H; subst. unfold sameLevel; cbn; tauto.
Qed.

(** With [currentLevel] at 255 the byte counter of the playback loop can
    never pass it: the loop does not return. *)
Lemma displayFrom_stuck fuel : forall i s a s' o,
  0 <= i < 256 -> 255 <= currentLevel s -> displayFrom fuel i s <> Ret a s' o.
Proof.
  induction fuel as [|fuel IH]; intros i s a s' o Hi Hl; [discriminate|].
  intros H. cbn [displayFrom] in H.
  apply bind_inv in H as (lvl & s0 & o0 & o0' & H0 & H & _).
  inversion H0; subst lvl s0 o0; clear H0.
  destruct (i <=? currentLevel s) eqn:E; [|lia].
  apply bind_inv in H as ([] & s1 & o1 & o2 & H1 & H2 & _).
  apply displayStep_sameGame in H1. destruct H1 as (_ & Hlvl & _).
  apply (IH _ _ _ _ _) in H2; [exact H2 | apply Z.mod_pos_bound; lia | lia].
Qed.

Lemma displaySequence_level s a s' o :
  displaySequence s = Ret a s' o -> currentLevel s < 255.
Proof.
  intros H. destruct (Z.lt_ge_cases (currentLevel s) 255) as [|Hge]; [assumption|].
  unfold displaySequence in H.
  apply bind_inv in H as ([] & s1 & o1 & o2 & H1 & H2 & _).
  inversion H1; subst.
  apply bind_inv in H2 as ([] & s2 & o3 & o4 & H2 & _).
  exfalso. revert H2. apply displayFrom_stuck; lia.
Qed.

Lemma gameOverState_fields s :
  gameOver (gameOverState s) = true /\
  currentLevel (gameOverState s) = currentLevel s /\
  currentSpeed (gameOverState s) = currentSpeed s /\
  gameSequence (gameOverState s) = gameSequence s /\
  highScore (gameOverState s) = Z.max (highScore s) (currentLevel s).
Proof.
  unfold gameOverState, recordScore. cbn [highScore currentLevel set_gameOver].
  destruct (highScore s <? currentLevel s) eqn:E; cbn; repeat split; lia.
Qed.

(** The shape of a round that was won. *)
Lemma round_won e s s' :
  gameOver s = false -> stateOf (loop e s) = Some s' -> gameOver s' = false ->
  currentLevel s < 255 /\
  currentLevel s' = byte (currentLevel s + 1) /\
  currentSpeed s' = speedFor (currentLevel s').
Proof.
  intros Hg H Hg'.
  destruct (loop_playing_inv e s s' Hg H)
    as (s1 & o1 & s2 & o2 & ok & s3 & o3 & H1 & H2 & H3 & ->).
  destruct ok;
    [|destruct (gameOverState_fields s3) as (Hgo & _); congruence].
  pose proof (displaySequence_level _ _ _ _ H2) as Hlt.
  apply addNewStep_sameLevel in H1. destruct H1 as (L1 & _).
  apply displaySequence_sameGame in H2. destruct H2 as (_ & L2 & _).
  apply readPlayerSequence_sameGame in H3. destruct H3 as (_ & L3 & _).
  cbn. rewrite L3, L2, L1. rewrite L1 in Hlt. auto.
Qed.

Lemma won_level e n g s :
  gameStart g -> won e n g s ->
  currentLevel s = Z.of_nat n /\ currentSpeed s = speedFor (Z.of_nat n) /\
  gameOver s = false.
Proof.
  intros (Hl & Hs & Hg) Hw. induction Hw as [s|n s s1 s2 Hw IH Hg1 Hloop Hg2].
  - rewrite Hl, Hs. auto.
  - destruct (IH Hl Hs Hg) as (IH1 & _).
    destruct (round_won e s1 s2 Hg1 Hloop Hg2) as (Hlt & L & S').
    rewrite IH1, byte_small in L by lia.
    rewrite S', L. repeat split; try assumption; f_equal; lia.
Qed.

Lemma won_trans e n m s1 s2 s3 :
  won e n s1 s2 -> won e m s2 s3 -> won e (m + n) s1 s3.
Proof.
  intros H12 H23. induction H23 as [|m s2 s3 s4 _ IH Hg Hl Hg'].
  - exact H12.
  - cbn. eapply won_S; eauto.
Qed.

Lemma playRounds_won e n : forall s s', playRounds e n s = Some s' -> won e n s s'.
Proof.
  induction n as [|n IH]; intros s s' H; cbn [playRounds] in H.
  - injection H as <-. constructor.
  - destruct (gameOver s) eqn:Hg; [discriminate|].
    destruct (stateOf (loop e s)) as [s1|] eqn:Hl; [|discriminate].
    destruct (gameOver s1) eqn:Hg1; [discriminate|].
    replace (S n) with (n + 1)%nat by lia.
    apply (won_trans e 1 n s s1 s'); [|apply IH; exact H].
    apply (won_S e 0 s s s1); [constructor|assumption..].
Qed.

Lemma won_reachable e n s s' : won e n s s' -> reachable e s -> reachable e s'.
Proof.
  induction 1 as [|n s s1 s2 _ IH _ Hl _]; intros Hr; [assumption|].
  eapply reach_loop; [apply IH, Hr | exact Hl].
Qed.

Lemma afterSetup_reachable : reachable redPlayer afterSetup.
Proof. apply reach_setup. vm_compute. reflexivity. Qed.

Lemma afterSetup_start : gameStart afterSetup.
Proof. repeat split. Qed.

Lemma lastLevel_won : won redPlayer 100 afterSetup lastLevel.
Proof. apply playRounds_won. vm_compute. reflexivity. Qed.

Lemma lastLevel_reachable : reachable redPlayer lastLevel.
Proof. exact (won_reachable _ _ _ _ lastLevel_won afterSetup_reachable). Qed.

Lemma setup_start e s : stateOf (setup (powerUp e)) = Some s -> gameStart s.
Proof.
  unfold setup. intros H.
  cbv -[Z.add byte storedScore replicate] in H. injection H as <-.
  repeat split.
Qed.

Lemma resetState_start s : gameStart (resetState s).
Proof. repeat split. Qed.

Lemma speedFor_antitone l1 l2 : l1 <= l2 -> speedFor l2 <= speedFor l1.
Proof. unfold speedFor, MIN_SPEED, INITIAL_SPEED, SPEED_DECREASE. lia. Qed.

(** At the last level a reachable state cannot be played: the playback
    loop runs its counter up to [currentLevel] inclusive, and cell
    [MAX_LEVEL] is not in the array. *)
Lemma loop_at_max_level e s :
  reachable e s -> gameOver s = false -> currentLevel s = MAX_LEVEL ->
  displaySequence s = OutOfBounds /\ loop e s = OutOfBounds.
Proof.
  intros Hr Hg Hl. destruct (reachable_wf e s Hr) as [Hlen Hsym _ _ _].
  assert (Hd : displaySequence s = OutOfBounds).
  { apply displaySequence_oob; rewrite ?Hlen; auto; unfold MAX_LEVEL in Hl; lia. }
  split; [exact Hd|].
  unfold loop. unfold bind at 1. cbn [gets]. rewrite Hg. cbn [negb].
  unfold bind. rewrite addNewStep_capped by lia. now rewrite Hd.
Qed.

(** ** The claims about levels and speed *)

(** C3: after N rounds won in a row from the start of a game, the level is N
    and the speed is max(MIN_SPEED, INITIAL_SPEED - N * SPEED_DECREASE);
    rounds won later in the same game never raise the speed; and a game
    starts at INITIAL_SPEED, both after [setup] and after [resetGame]. *)
Theorem level_and_speed_after_wins e n g s :
  gameStart g -> won e n g s ->
  currentLevel s = Z.of_nat n /\
  currentSpeed s = Z.max MIN_SPEED (INITIAL_SPEED - Z.of_nat n * SPEED_DECREASE) /\
  (forall m s', won e m s s' -> currentSpeed s' <= currentSpeed s) /\
  (forall p, stateOf (setup (powerUp e)) = Some p ->
     gameStart p /\ currentSpeed p = INITIAL_SPEED) /\
  (forall p, exists p' o,
     resetGame p = Ret tt p' o /\ gameStart p' /\ currentSpeed p' = INITIAL_SPEED).
Proof.
  intros Hg Hw. destruct (won_level e n g s Hg Hw) as (Hl & Hs & _).
  split; [exact Hl|]. split; [exact Hs|]. split; [|split].
  - intros m s' Hw'.
    destruct (won_level e (m + n) g s' Hg (won_trans _ _ _ _ _ _ Hw Hw')) as (_ & Hs' & _).
    rewrite Hs, Hs'. apply speedFor_antitone. lia.
  - intros p Hp. pose proof (setup_start e p Hp) as Hst.
    split; [exact Hst | apply Hst].
  - intros p. exists (resetState p). eexists. split; [apply resetGame_spec|].
    split; [apply resetState_start | reflexivity].
Qed.

Lemma level_and_speed_after_wins_witness :
  currentLevel lastLevel = 100 /\ currentSpeed lastLevel = 250.
Proof.
  destruct (level_and_speed_after_wins redPlayer 100 afterSetup lastLevel
              afterSetup_start lastLevel_won) as (Hl & Hs & _).
  split; [exact Hl | exact Hs].
Defined.

(** Up to the first read outside an array the level is between 0 and
    MAX_LEVEL and the speed between MIN_SPEED and INITIAL_SPEED: these are
    the states the checked embedding reaches.  It is the read that stops the
    run there, not the sketch that stops the level. *)
Lemma bounds_before_overrun e s :
  reachable e s ->
  0 <= currentLevel s <= MAX_LEVEL /\
  MIN_SPEED <= currentSpeed s <= INITIAL_SPEED.
Proof.
  intros Hr. destruct (reachable_wf e s Hr) as [_ _ Hl Hs _].
  split; [exact Hl|]. rewrite Hs.
  destruct (speedFor_range (currentLevel s)) as [H1 H2]. split; [exact H1|].
  apply H2. lia.
Qed.

(** [levelUp] does not look at MAX_LEVEL. *)
Lemma levelUp_uncapped s :
  currentLevel s = MAX_LEVEL -> currentLevel (levelUpState s) = MAX_LEVEL + 1.
Proof. intros H. cbn. rewrite H. reflexivity. Qed.

(** C9: the sketch does read [gameSequence] outside its bounds.  After one
    hundred rounds won in a row the level is MAX_LEVEL, the game is still on,
    and the next playback reads cell MAX_LEVEL of an array of MAX_LEVEL
    cells. *)
Theorem playback_reads_past_the_array :
  reachable redPlayer lastLevel /\
  gameOver lastLevel = false /\
  currentLevel lastLevel = MAX_LEVEL /\
  Z.of_nat (length (gameSequence lastLevel)) = MAX_LEVEL /\
  at_ (gameSequence lastLevel) MAX_LEVEL = None /\
  displaySequence lastLevel = OutOfBounds /\
  loop redPlayer lastLevel = OutOfBounds.
Proof.
  split; [exact lastLevel_reachable|].
  split; [reflexivity|]. split; [reflexivity|].
  split; [reflexivity|]. split; [reflexivity|].
  apply loop_at_max_level; [exact lastLevel_reachable | reflexivity..].
Qed.

(** ** More concrete runs *)

Lemma loops_reachable e n : forall s s',
  reachable e s -> loops e n s = Some s' -> reachable e s'.
Proof.
  induction n as [|n IH]; intros s s' Hr H; cbn [loops] in H.
  - now injection H as <-.
  - destruct (stateOf (loop e s)) as [s1|] eqn:Hl; [|discriminate].
    apply (IH s1 s'); [|exact H]. now apply (reach_loop e s s1).
Qed.

Lemma lateSetup_reachable : reachable lateComer lateSetup.
Proof. apply reach_setup. vm_compute. reflexivity. Qed.

Lemma lateWaiting_reachable : reachable lateComer lateWaiting.
Proof.
  apply (loops_reachable lateComer 11 lateSetup); [exact lateSetup_reachable|].
  vm_compute. reflexivity.
Qed.

(** ** The claims about the sequence store and the restart *)

Lemma take_upd_snoc (l : list Z) (n : nat) x :
  (n < length l)%nat -> take (S n) (<[n := x]> l) = take n l ++ [x].
Proof.
  revert n. induction l as [|y l IH]; intros n Hn; cbn in Hn; [lia|].
  destruct n as [|n]; cbn.
  - now rewrite take_0.
  - f_equal. apply IH. lia.
Qed.

(** C5: at MAX_LEVEL [addNewStep] does nothing at all: no error, no output,
    the state as it was; the array never holds more than MAX_LEVEL symbols;
    and below MAX_LEVEL the presenting phase adds exactly one symbol, the one
    just drawn, after the symbols of the game so far. *)
Theorem addNewStep_capacity e s :
  reachable e s ->
  (currentLevel s = MAX_LEVEL -> addNewStep e s = Ret tt s []) /\
  Z.of_nat (length (gameSequence s)) <= MAX_LEVEL /\
  Z.of_nat (length (sequence s)) = currentLevel s /\
  (currentLevel s < MAX_LEVEL ->
   exists s1 o1,
     addNewStep e s = Ret tt s1 o1 /\
     currentLevel s1 = currentLevel s /\
     length (gameSequence s1) = length (gameSequence s) /\
     take (S (Z.to_nat (currentLevel s))) (gameSequence s1)
       = sequence s ++ [nextSymbol e s] /\
     forall s2 o2, displaySequence s1 = Ret tt s2 o2 ->
                   gameSequence s2 = gameSequence s1).
Proof.
  intros Hr. destruct (reachable_wf e s Hr) as [Hlen Hsym Hl _ _].
  unfold MAX_LEVEL in *. repeat split.
  - intros Hmax. apply addNewStep_capped. unfold MAX_LEVEL. lia.
  - rewrite Hlen. lia.
  - unfold sequence. rewrite length_take, Hlen. lia.
  - intros Hlt. exists (addedState e s). eexists.
    split; [apply addNewStep_below; unfold MAX_LEVEL; [lia | exact Hlen]|].
    split; [reflexivity|]. cbn [addedState gameSequence set_gameSequence].
    split; [apply length_insert|]. split.
    + apply take_upd_snoc. lia.
    + intros s2 o2 H2. apply displaySequence_sameGame in H2. apply H2.
Qed.

Lemma addNewStep_capacity_witness :
  addNewStep redPlayer lastLevel = Ret tt lastLevel [] /\
  exists s1 o1, addNewStep redPlayer afterSetup = Ret tt s1 o1 /\
                take 1 (gameSequence s1) = [0].
Proof.
  split.
  - apply (addNewStep_capacity redPlayer lastLevel lastLevel_reachable).
    reflexivity.
  - destruct (addNewStep_capacity redPlayer afterSetup afterSetup_reachable)
      as (_ & _ & _ & H).
    destruct H as (s1 & o1 & H1 & _ & _ & H2 & _); [reflexivity|].
    exists s1, o1. split; [exact H1 | exact H2].
Defined.

(** C8: whatever the state the previous game left, once a press is accepted
    while the sketch waits for a restart, that call of [loop] returns in a
    state with level 0, speed INITIAL_SPEED, no symbol in the sequence, and
    the game on; so two restarts agree on all of these.  The cells of the
    array are left as they were. *)
Theorem restart_begins_alike e s s1 o1 :
  gameOver s = true -> checkAnyButton e s = Ret true s1 o1 ->
  exists s' o,
    loop e s = Ret tt s' o /\ s' = resetState s1 /\
    currentLevel s' = 0 /\ currentSpeed s' = INITIAL_SPEED /\
    sequence s' = [] /\ gameOver s' = false /\
    gameSequence s' = gameSequence s /\
    forall t, currentLevel (resetState t) = currentLevel s' /\
              currentSpeed (resetState t) = currentSpeed s' /\
              sequence (resetState t) = sequence s' /\
              gameOver (resetState t) = gameOver s'.
Proof.
  intros Hg H1. exists (resetState s1). eexists.
  split; [apply (loop_idle e s true s1 o1 Hg H1)|].
  apply checkAnyButton_sameGame in H1. destruct H1 as (Hseq & _).
  repeat split; try reflexivity. exact Hseq.
Qed.

Lemma restart_begins_alike_witness :
  reachable lateComer lateWaiting /\
  exists s', stateOf (loop lateComer lateWaiting) = Some s' /\
             currentLevel s' = 0 /\ currentSpeed s' = INITIAL_SPEED /\
             sequence s' = [].
Proof.
  split; [exact lateWaiting_reachable|].
  destruct (restart_begins_alike lateComer lateWaiting
              (set_currentButtonState [LOW; HIGH; HIGH; HIGH] lateWaiting) [])
    as (s' & o & Hl & _ & H0 & H1 & H2 & _).
  - reflexivity.
  - vm_compute. reflexivity.
  - exists s'. rewrite Hl. repeat split; assumption.
Defined.

(** ** What a computation may send out *)

Section Emits.
Variable P : Event -> Prop.

Lemma emits_ret {A} (a : A) : emits P (ret a).
Proof. intros s a' s' o H. inversion H; subst. constructor. Qed.

Lemma emits_gets {A} (f : State -> A) : emits P (gets f).
Proof. intros s a' s' o H. inversion H; subst. constructor. Qed.

Lemma emits_modify f : emits P (modify f).
Proof. intros s a' s' o H. inversion H; subst. constructor. Qed.

Lemma emits_emit ev : P ev -> emits P (emit ev).
Proof. intros Hev s a' s' o H. inversion H; subst. now repeat constructor. Qed.

Lemma emits_fail {A} : emits P (@outOfBounds A) /\ emits P (@diverge A).
Proof. split; intros s a s' o; discriminate. Qed.

Lemma emits_index {A} (l : list A) i : emits P (index l i).
Proof.
  unfold index. destruct (at_ l i); [apply emits_ret | apply emits_fail].
Qed.

Lemma emits_bind {A B} (m : M A) (k : A -> M B) :
  emits P m -> (forall a, emits P (k a)) -> emits P (bind m k).
Proof.
  intros Hm Hk s b s2 o H.
  destruct (bind_inv _ _ _ _ _ _ H) as (a & s1 & o1 & o2 & H1 & H2 & ->).
  apply Forall_app. split; [eapply Hm | eapply Hk]; eassumption.
Qed.

Lemma emits_forN n i body :
  (forall j, emits P (body j)) -> emits P (forN n i body).
Proof.
  intros Hb. revert i. induction n as [|n IH]; intros i; simpl.
  - apply emits_ret.
  - apply emits_bind; [apply Hb | intros _; apply IH].
Qed.

Lemma emits_random e howbig : emits P (random e howbig).
Proof. intros s a' s' o H. inversion H; subst. constructor. Qed.
End Emits.

Create HintDb emits.

Ltac emits_step :=
  lazymatch goal with
  | |- emits _ (bind _ _) => apply emits_bind; [| intros ?]
  | |- emits _ (ret _) => apply emits_ret
  | |- emits _ (gets _) => apply emits_gets
  | |- emits _ (modify _) => apply emits_modify
  | |- emits _ (emit _) => apply emits_emit; exact I
  | |- emits _ (index _ _) => apply emits_index
  | |- emits _ (random _ _) => apply emits_random
  | |- emits _ outOfBounds => apply emits_fail
  | |- emits _ diverge => apply emits_fail
  | |- emits _ (forN _ _ _) => apply emits_forN; intros ?
  | |- emits _ (if ?c then _ else _) => destruct c
  | |- emits _ (match ?x with _ => _ end) => destruct x
  | |- emits _ _ => solve [auto with emits]
  end.

Ltac emits_tac := repeat emits_step.

Ltac unfold_io :=
  unfold idle, delay, advance, millis, digitalRead, digitalWrite, tone,
    toneFor, noTone, pinMode, print, println, printNum, printlnNum.

Lemma readButton_noWrite e b : emits noWrite (readButton e b).
Proof. unfold readButton. unfold_io. emits_tac. Qed.

Lemma pressFeedback_noWrite b : emits noWrite (pressFeedback b).
Proof. unfold pressFeedback. unfold_io. emits_tac. Qed.

#[local] Hint Resolve readButton_noWrite pressFeedback_noWrite : emits.

Lemma scanButtons_noWrite e n b : emits noWrite (scanButtons e n b).
Proof. revert b. induction n as [|n IH]; intros b; simpl; emits_tac. Qed.

#[local] Hint Resolve scanButtons_noWrite : emits.

Lemma waitLoop_noWrite e fuel start : emits noWrite (waitLoop e fuel start).
Proof. induction fuel as [|fuel IH]; simpl; unfold_io; emits_tac. Qed.

#[local] Hint Resolve waitLoop_noWrite : emits.

Lemma awaitPress_noWrite e : emits noWrite (awaitPress e).
Proof. unfold awaitPress. unfold_io. emits_tac. Qed.

#[local] Hint Resolve awaitPress_noWrite : emits.

Lemma readSteps_noWrite e fuel i : emits noWrite (readSteps e fuel i).
Proof.
  revert i. induction fuel as [|fuel IH]; intros i; simpl; unfold_io; emits_tac.
Qed.

#[local] Hint Resolve readSteps_noWrite : emits.

Lemma readPlayerSequence_noWrite e : emits noWrite (readPlayerSequence e).
Proof. unfold readPlayerSequence. unfold_io. emits_tac. Qed.

Lemma displayStep_noWrite i : emits noWrite (displayStep i).
Proof. unfold displayStep, showStep. unfold_io. emits_tac. Qed.

#[local] Hint Resolve displayStep_noWrite : emits.

Lemma displayFrom_noWrite fuel i : emits noWrite (displayFrom fuel i).
Proof. revert i. induction fuel as [|fuel IH]; intros i; simpl; emits_tac. Qed.

#[local] Hint Resolve displayFrom_noWrite : emits.

Lemma displaySequence_noWrite : emits noWrite displaySequence.
Proof. unfold displaySequence. unfold_io. emits_tac. Qed.

Lemma addNewStep_noWrite e : emits noWrite (addNewStep e).
Proof. unfold addNewStep. unfold_io. emits_tac. Qed.

Lemma checkFrom_noWrite e n i : emits noWrite (checkFrom e n i).
Proof. revert i. induction n as [|n IH]; intros i; simpl; emits_tac. Qed.

Lemma writes_app o1 o2 : writes (o1 ++ o2) = writes o1 ++ writes o2.
Proof.
  induction o1 as [|ev o1 IH]; [reflexivity|].
  destruct ev; cbn; rewrite ?IH; reflexivity.
Qed.

Lemma writes_noWrite o : Forall noWrite o -> writes o = [].
Proof.
  induction 1 as [|ev o Hev _ IH]; [reflexivity|].
  destruct ev; cbn; try exact IH. destruct Hev.
Qed.

Lemma writes_pulses n : writes (concat (replicate n scorePulse)) = [].
Proof. induction n as [|n IH]; [reflexivity|]. cbn. exact IH. Qed.

Lemma writes_gameOverOutput s :
  writes (gameOverOutput s) =
  if highScore s <? currentLevel s
  then [(EEPROM_HIGH_SCORE, currentLevel s)] else [].
Proof.
  unfold gameOverOutput, recordOutput. cbn [writes].
  rewrite !writes_app, writes_pulses.
  destruct (highScore s <? currentLevel s); reflexivity.
Qed.

(** ** The claim about the high score *)

Lemma loop_playing_full e s s' o :
  gameOver s = false -> loop e s = Ret tt s' o ->
  exists s1 o1 s2 o2 ok s3 o3,
    addNewStep e s = Ret tt s1 o1 /\
    displaySequence s1 = Ret tt s2 o2 /\
    readPlayerSequence e s2 = Ret ok s3 o3 /\
    s' = (if ok then levelUpState s3 else gameOverState s3) /\
    o = o1 ++ o2 ++ o3 ++
        (if ok then outputOf (levelUp s3) else gameOverOutput s3).
Proof.
  intros Hg H.
  assert (Hs : stateOf (loop e s) = Some s') by now rewrite H.
  destruct (loop_playing_inv e s s' Hg Hs)
    as (s1 & o1 & s2 & o2 & ok & s3 & o3 & H1 & H2 & H3 & Hs').
  rewrite (loop_playing e s s1 o1 s2 o2 ok s3 o3 Hg H1 H2 H3) in H.
  injection H as _ <-. now exists s1, o1, s2, o2, ok, s3, o3.
Qed.

Lemma loop_idle_full e s s' o :
  gameOver s = true -> loop e s = Ret tt s' o ->
  exists pressed s1 o1,
    checkAnyButton e s = Ret pressed s1 o1 /\
    s' = (if pressed then resetState s1 else idleState e s1) /\
    o = o1 ++ (if pressed then outputOf (resetGame s1) else []).
Proof.
  intros Hg H.
  assert (Hs : stateOf (loop e s) = Some s') by now rewrite H.
  destruct (loop_idle_inv e s s' Hg Hs) as (pressed & s1 & o1 & H1 & Hs').
  rewrite (loop_idle e s pressed s1 o1 Hg H1) in H.
  injection H as _ <-. now exists pressed, s1, o1.
Qed.

(** The state in which the player's replay is judged differs from the one
    the round started in by the new symbol, the clock and the debounce
    state only. *)
Lemma round_fields e s s1 o1 s2 o2 ok s3 o3 :
  addNewStep e s = Ret tt s1 o1 ->
  displaySequence s1 = Ret tt s2 o2 ->
  readPlayerSequence e s2 = Ret ok s3 o3 ->
  currentLevel s3 = currentLevel s /\ highScore s3 = highScore s /\
  eeprom s3 = eeprom s /\ currentSpeed s3 = currentSpeed s /\
  gameOver s3 = gameOver s.
Proof.
  intros H1 H2 H3.
  apply addNewStep_sameLevel in H1.
  apply displaySequence_sameGame in H2.
  apply readPlayerSequence_sameGame in H3.
  unfold sameLevel, sameGame in *. intuition congruence.
Qed.

Lemma round_writes e s s1 o1 s2 o2 ok s3 o3 :
  addNewStep e s = Ret tt s1 o1 ->
  displaySequence s1 = Ret tt s2 o2 ->
  readPlayerSequence e s2 = Ret ok s3 o3 ->
  writes o1 = [] /\ writes o2 = [] /\ writes o3 = [].
Proof.
  intros H1 H2 H3.
  apply addNewStep_noWrite in H1.
  apply displaySequence_noWrite in H2.
  apply readPlayerSequence_noWrite in H3.
  auto using writes_noWrite.
Qed.

Lemma loop_score_mono e s s' :
  wf s -> stateOf (loop e s) = Some s' ->
  highScore s <= highScore s' /\ eeprom s <= eeprom s'.
Proof.
  intros Hwf H.
  pose proof (loop_wf e s s' Hwf H) as [_ _ _ _ [He' _]].
  destruct Hwf as [_ _ _ _ [He _]]. rewrite <- He, <- He'.
  enough (highScore s <= highScore s') by lia.
  destruct (gameOver s) eqn:Hg.
  - destruct (loop_idle_inv e s s' Hg H) as (pressed & s1 & o1 & H1 & ->).
    apply checkAnyButton_sameGame in H1. destruct H1 as (_ & _ & Hh & _).
    destruct pressed; cbn; lia.
  - destruct (loop_playing_inv e s s' Hg H)
      as (s1 & o1 & s2 & o2 & ok & s3 & o3 & H1 & H2 & H3 & ->).
    destruct (round_fields _ _ _ _ _ _ _ _ _ H1 H2 H3) as (_ & Hh & _).
    destruct ok; [cbn; lia|].
    destruct (gameOverState_fields s3) as (_ & _ & _ & _ & ->). lia.
Qed.

(** C2: a call of [loop] that ends a game leaves the level as it was, and
    sets the high score (in memory and in the EEPROM, with exactly one write)
    to that level if the level is above the stored high score; otherwise it
    leaves both alone and writes nothing, in particular at level 0.  No
    other call of [loop] writes to the EEPROM, and over any number of calls
    the high score never goes down. *)
Theorem high_score_on_game_over e s :
  reachable e s ->
  handleGameOver s = Ret tt (gameOverState s) (gameOverOutput s) /\
  (forall s' o,
     gameOver s = false -> loop e s = Ret tt s' o -> gameOver s' = true ->
     currentLevel s' = currentLevel s /\
     highScore s' = eeprom s' /\
     (highScore s < currentLevel s ->
      highScore s' = currentLevel s /\
      writes o = [(EEPROM_HIGH_SCORE, currentLevel s)]) /\
     (currentLevel s <= highScore s ->
      highScore s' = highScore s /\ eeprom s' = eeprom s /\ writes o = []) /\
     (currentLevel s = 0 ->
      highScore s' = highScore s /\ eeprom s' = eeprom s /\ writes o = [])) /\
  (forall s' o,
     loop e s = Ret tt s' o -> gameOver s = true \/ gameOver s' = false ->
     writes o = [] /\ highScore s' = highScore s /\ eeprom s' = eeprom s) /\
  (forall n s',
     loops e n s = Some s' ->
     highScore s <= highScore s' /\ eeprom s <= eeprom s').
Proof.
  intros Hr. pose proof (reachable_wf e s Hr) as Hwf.
  split; [apply handleGameOver_spec|]. split; [|split].
  - intros s' o Hg H Hg'.
    assert (Hwf' : wf s') by (apply (loop_wf e s s' Hwf); now rewrite H).
    destruct (loop_playing_full e s s' o Hg H)
      as (s1 & o1 & s2 & o2 & ok & s3 & o3 & H1 & H2 & H3 & Hs' & ->).
    destruct (round_fields _ _ _ _ _ _ _ _ _ H1 H2 H3)
      as (Hl & Hh & He & _ & Hg3).
    destruct ok; [subst s'; cbn in Hg'; congruence|].
    destruct (round_writes _ _ _ _ _ _ _ _ _ H1 H2 H3) as (W1 & W2 & W3).
    rewrite !writes_app, W1, W2, W3, writes_gameOverOutput. cbn [app].
    rewrite Hl, Hh.
    destruct (gameOverState_fields s3) as (_ & Hl' & _ & _ & Hh').
    rewrite <- Hs' in Hl', Hh'. rewrite Hl in Hl', Hh'. rewrite Hh in Hh'.
    destruct Hwf as [_ _ Hlvl _ [Hhe Hhs]].
    assert (He' : eeprom s' = highScore s') by (symmetry; apply Hwf').
    split; [exact Hl'|]. split; [now symmetry|].
    destruct (highScore s <? currentLevel s) eqn:E.
    + repeat split; intros; try lia.
    + repeat split; intros; try lia.
  - intros s' o H Hcase. destruct (gameOver s) eqn:Hg.
    + destruct (loop_idle_full e s s' o Hg H)
        as (pressed & s1 & o1 & H1 & -> & ->).
      pose proof (checkFrom_noWrite e 4 0 _ _ _ _ H1) as W1.
      apply writes_noWrite in W1.
      apply checkAnyButton_sameGame in H1.
      destruct H1 as (_ & _ & Hh & _ & _ & He & _).
      rewrite writes_app, W1.
      destruct pressed; [rewrite resetGame_spec|]; cbn; auto.
    + destruct Hcase as [Hc|Hc]; [discriminate|].
      destruct (loop_playing_full e s s' o Hg H)
        as (s1 & o1 & s2 & o2 & ok & s3 & o3 & H1 & H2 & H3 & Hs' & ->).
      destruct ok;
        [|subst s'; destruct (gameOverState_fields s3) as (Hgo & _); congruence].
      destruct (round_fields _ _ _ _ _ _ _ _ _ H1 H2 H3) as (_ & Hh & He & _).
      destruct (round_writes _ _ _ _ _ _ _ _ _ H1 H2 H3) as (W1 & W2 & W3).
      rewrite !writes_app, W1, W2, W3. subst s'. cbn. auto.
  - intros n. revert s Hr Hwf. induction n as [|n IH]; intros s Hr Hwf s' H;
      cbn [loops] in H.
    + injection H as <-. lia.
    + destruct (stateOf (loop e s)) as [s1|] eqn:Hl; [|discriminate].
      destruct (loop_score_mono e s s1 Hwf Hl) as [M1 M2].
      destruct (IH s1 (reach_loop e s s1 Hr Hl) (loop_wf e s s1 Hwf Hl) s' H).
      lia.
Qed.

Lemma quitterLastRound_reachable : reachable quitter quitterLastRound.
Proof.
  apply (loops_reachable quitter 5 quitterSetup).
  - apply reach_setup. vm_compute. reflexivity.
  - vm_compute. reflexivity.
Qed.

Lemma high_score_on_game_over_witness :
  (highScore lateSetup = 5 /\ currentLevel lateSetup = 0 /\
   highScore lateLost = 5 /\ eeprom lateLost = 5 /\
   writes (outputOf (loop lateComer lateSetup)) = []) /\
  (highScore quitterLastRound = 2 /\ currentLevel quitterLastRound = 5 /\
   highScore quitterLost = 5 /\
   writes (outputOf (loop quitter quitterLastRound)) = [(0, 5)]).
Proof.
  split.
  - destruct (high_score_on_game_over lateComer lateSetup lateSetup_reachable)
      as (_ & H & _).
    destruct (H lateLost (outputOf (loop lateComer lateSetup)))
      as (_ & _ & _ & _ & H0);
      [reflexivity | vm_compute; reflexivity | reflexivity |].
    destruct (H0 eq_refl) as (Hh & He & Hw).
    split; [reflexivity|]. split; [reflexivity|]. split; [exact Hh|].
    split; [exact He | exact Hw].
  - destruct (high_score_on_game_over quitter quitterLastRound
                quitterLastRound_reachable) as (_ & H & _).
    destruct (H quitterLost (outputOf (loop quitter quitterLastRound)))
      as (_ & _ & H1 & _);
      [reflexivity | vm_compute; reflexivity | reflexivity |].
    destruct H1 as (Hh & Hw); [vm_compute; reflexivity|].
    split; [reflexivity|]. split; [reflexivity|].
    split; [exact Hh | exact Hw].
Defined.

(** ** The claim about the presenting phase *)

Lemma bind_assoc {A B C} (m : M A) (k : A -> M B) (h : B -> M C) s :
  bind (bind m k) h s = bind m (fun a => bind (k a) h) s.
Proof.
  unfold bind. destruct (m s) as [a s1 o1| |]; try reflexivity.
  destruct (k a s1) as [b s2 o2| |]; try reflexivity.
  destruct (h b s2) as [c s3 o3| |]; try reflexivity.
  now rewrite app_assoc.
Qed.

Lemma loop_presenting e s :
  gameOver s = false ->
  loop e s =
  (presenting e ;;
   ok <- readPlayerSequence e ;;
   if negb ok then handleGameOver else levelUp) s.
Proof.
  intros Hg. unfold presenting. rewrite bind_assoc.
  unfold loop. unfold bind at 1. cbn [gets]. rewrite Hg. cbn [negb].
  cbv beta.
  match goal with |- match ?X with _ => _ end = _ => destruct X end;
    reflexivity.
Qed.

Lemma presenting_spec e s :
  wf s -> currentLevel s < MAX_LEVEL ->
  presenting e s =
  Ret tt
    (set_clock
       (clock s + (currentLevel s + 1) * (currentSpeed s + currentSpeed s / 2))
       (addedState e s))
    ([SerialPrint "Added step: "; SerialPrintlnNum (nextSymbol e s);
      SerialPrintln "Displaying sequence..."]
     ++ playback 0 (sequence s ++ [nextSymbol e s])
          (currentSpeed s) (currentSpeed s / 2)
     ++ [SerialPrintln "Sequence complete"]).
Proof.
  intros Hwf Hlt. pose proof (wf_added e s Hwf) as [Hlen' Hsym' _ _ _].
  destruct Hwf as [Hlen Hsym Hl _ _]. unfold MAX_LEVEL in *.
  unfold presenting. unfold bind at 1.
  rewrite addNewStep_below by (unfold MAX_LEVEL; auto; lia).
  unfold displaySequence. unfold bind at 1. cbn [println emit].
  unfold bind at 1.
  assert (Hxs : take (S (Z.to_nat (currentLevel s))) (gameSequence (addedState e s))
                = sequence s ++ [nextSymbol e s]).
  { cbn [addedState gameSequence set_gameSequence]. apply take_upd_snoc. lia. }
  rewrite (displayFrom_run (sequence s ++ [nextSymbol e s])).
  - cbn [println emit app]. cbn [currentSpeed addedState set_gameSequence set_draws clock].
    rewrite length_app. unfold sequence at 1. rewrite length_take, Hlen.
    cbn [length]. rewrite Nat.min_l by lia.
    replace (Z.of_nat (Z.to_nat (currentLevel s) + 1)) with (currentLevel s + 1)
      by lia.
    reflexivity.
  - rewrite length_app. unfold sequence. rewrite length_take, Hlen. cbn. lia.
  - lia.
  - rewrite length_app. unfold sequence. rewrite length_take, Hlen. cbn. lia.
  - cbn. lia.
  - intros k x Hk. rewrite <- Hxs in Hk.
    apply lookup_take_Some in Hk as [Hk Hlt'].
    split.
    + unfold at_. destruct (0 + Z.of_nat k <? 0) eqn:E; [lia|].
      rewrite Z.add_0_l, Nat2Z.id. exact Hk.
    + rewrite Forall_forall in Hsym'. apply Hsym'.
      eapply list_elem_of_lookup_2. exact Hk.
Qed.

(** The presenting phase looks at the generator only: two boards that draw
    the same value run it alike, whatever their buttons do. *)
Lemma presenting_no_input e e' s :
  randomValue e' (draws s) = randomValue e (draws s) ->
  presenting e' s = presenting e s.
Proof.
  intros H. unfold presenting, addNewStep, bind, gets, random.
  destruct (currentLevel s <? MAX_LEVEL); [rewrite H|]; reflexivity.
Qed.

(** C7, amended: in a presenting phase at a level below MAX_LEVEL the sketch
    first draws one symbol and puts it after the symbols of the game so far,
    then presents each symbol of the sequence once, in order,
    [currentLevel + 1] of them, on for the current speed and off for half of
    it; the buttons are not read and their debounce state is not touched. *)
Theorem presenting_below_max_level e s :
  reachable e s -> currentLevel s < MAX_LEVEL ->
  presentsAll e s /\
  (forall e', randomValue e' (draws s) = randomValue e (draws s) ->
              presenting e' s = presenting e s) /\
  (forall s' o, presenting e s = Ret tt s' o ->
     currentButtonState s' = currentButtonState s /\
     lastButtonState s' = lastButtonState s /\
     lastDebounceTime s' = lastDebounceTime s /\
     currentLevel s' = currentLevel s /\ currentSpeed s' = currentSpeed s).
Proof.
  intros Hr Hlt. pose proof (reachable_wf e s Hr) as Hwf.
  pose proof (presenting_spec e s Hwf Hlt) as Hp.
  destruct Hwf as [Hlen _ Hl _ _]. unfold MAX_LEVEL in *.
  split; [|split].
  - split.
    + exists (addedState e s).
      split; [apply addNewStep_below; unfold MAX_LEVEL; [lia | exact Hlen]|].
      split; [reflexivity|]. apply take_upd_snoc. lia.
    + eexists. exists (sequence s ++ [nextSymbol e s]).
      split; [exact Hp|]. split.
      * cbn [gameSequence set_clock addedState set_gameSequence].
        symmetry. apply take_upd_snoc. lia.
      * rewrite length_app. unfold sequence. rewrite length_take, Hlen. cbn. lia.
  - intros e' He'. now apply presenting_no_input.
  - intros s' o H. rewrite Hp in H. injection H as <- _. repeat split.
Qed.

Lemma presenting_below_max_level_witness : presentsAll redPlayer afterSetup.
Proof.
  apply (presenting_below_max_level redPlayer afterSetup afterSetup_reachable).
  reflexivity.
Defined.

(** C7 as stated fails at MAX_LEVEL, a level the sketch reaches with the
    game still on: there [addNewStep] returns at once, so the presenting
    phase draws no symbol and adds none. *)
Lemma presenting_at_max_level :
  reachable redPlayer lastLevel /\ gameOver lastLevel = false /\
  currentLevel lastLevel = MAX_LEVEL /\
  addNewStep redPlayer lastLevel = Ret tt lastLevel [] /\
  ~ drawsAndAppends redPlayer lastLevel /\
  ~ presentsAll redPlayer lastLevel.
Proof.
  split; [exact lastLevel_reachable|]. split; [reflexivity|].
  split; [reflexivity|].
  assert (Ha : addNewStep redPlayer lastLevel = Ret tt lastLevel [])
    by (apply addNewStep_capped; reflexivity).
  split; [exact Ha|].
  assert (Hn : ~ drawsAndAppends redPlayer lastLevel).
  { intros (s1 & H & _). rewrite Ha in H. discriminate H. }
  split; [exact Hn|]. intros [H _]. exact (Hn H).
Qed.

(** ** Reading one button *)

Lemma readButton_spec e b s :
  readButton e b s = Ret (pressed e b s) (polled e b s) [].
Proof.
  unfold readButton, pressed, polled, accepted, changeNoted, changed, reading.
  unfold bind, digitalRead, millis, gets, modify, ret.
  destruct (negb (Level_eqb _ (sel HIGH (lastButtonState s) b))) eqn:E1;
    cbn -[ulong Z.ltb Z.sub sel upd Level_eqb debounceDelay];
    match goal with
    | |- context [debounceDelay <? ?x] => destruct (debounceDelay <? x) eqn:E2
    end;
    cbn -[ulong Z.ltb Z.sub sel upd Level_eqb debounceDelay];
    try (destruct (Level_eqb _ (sel HIGH (currentButtonState s) b)) eqn:E3);
    cbn -[ulong Z.ltb Z.sub sel upd Level_eqb debounceDelay];
    reflexivity.
Qed.

Lemma polled_clock e b s : clock (polled e b s) = clock s.
Proof.
  unfold polled, changeNoted.
  destruct (accepted e b s), (changed e b s); reflexivity.
Qed.

(** ** Judging the replay *)

Lemma readSteps_unfold e fuel i s :
  i <= currentLevel s ->
  readSteps e (S fuel) i s =
  (r <- awaitPress e ;;
   match r with
   | None => println "Input timeout!" ;; ret false
   | Some playerInput =>
       seq <- gets gameSequence ;;
       expected <- index seq i ;;
       if negb (playerInput =? expected) then
         println "Wrong button!" ;; ret false
       else readSteps e fuel (byte (i + 1))
   end) s.
Proof.
  intros Hi. cbn [readSteps]. unfold bind at 1. cbn [gets].
  destruct (i <=? currentLevel s) eqn:E; [|lia].
  match goal with |- match ?X with _ => _ end = _ => destruct X end;
    reflexivity.
Qed.

(** ** Waiting for a press *)

Lemma pressFeedback_spec button s :
  pressFeedback button s =
  Ret tt (set_clock (clock s + 200) s) (feedbackOutput button).
Proof. reflexivity. Qed.

Lemma scanButtons_cases e n : forall b s,
  exists r s' o,
    scanButtons e n b s = Ret r s' o /\
    waitEnded r b (b + Z.of_nat n) s s' o.
Proof.
  induction n as [|n IH]; intros b s; cbn [scanButtons].
  - exists None, s, []. split; [reflexivity|]. split; reflexivity.
  - unfold bind at 1. rewrite readButton_spec.
    destruct (pressed e b s).
    + exists (Some b). eexists. eexists.
      unfold bind. rewrite pressFeedback_spec. cbn [ret app].
      split; [reflexivity|]. split; [lia|]. split; [reflexivity|].
      cbn [clock set_clock]. now rewrite polled_clock.
    + destruct (IH (b + 1) (polled e b s)) as (r & s' & o & H & Hw).
      exists r, s', o. rewrite H. split; [reflexivity|].
      destruct r as [k|]; unfold waitEnded in *; rewrite polled_clock in Hw.
      * destruct Hw as (Hk & Ho & Hc). repeat split; try assumption; lia.
      * exact Hw.
Qed.

Lemma ulong_diff a b :
  0 <= a - b < 2 ^ 32 -> ulong (ulong a - ulong b) = a - b.
Proof.
  intros H. unfold ulong. rewrite <- Zminus_mod. now apply Z.mod_small.
Qed.

(** A wait that started at clock value [t0] ends, and ends in one of two
    ways: in a timeout, no earlier than 3000 ms after [t0], or with a press
    taken in a polling pass that began less than 3000 ms after [t0]. *)
Lemma waitLoop_cases e t0 :
  0 < pollTime e <= 2 ^ 32 - 3000 ->
  forall fuel s,
    0 <= clock s - t0 < 3000 + pollTime e ->
    (Z.to_nat (3000 - (clock s - t0)) < fuel)%nat ->
    exists r s' o,
      waitLoop e fuel (ulong t0) s = Ret r s' o /\
      match r with
      | None => o = [] /\ 3000 <= clock s' - t0 < 3000 + pollTime e
      | Some k =>
          0 <= k < 4 /\ o = feedbackOutput k /\
          0 <= clock s' - 200 - t0 < 3000
      end.
Proof.
  intros Hp. induction fuel as [|fuel IH]; intros s Hc Hf; [lia|].
  cbn [waitLoop]. unfold bind at 1. unfold millis at 1. cbn [gets].
  rewrite ulong_diff by lia.
  destruct (clock s - t0 <? 3000) eqn:E.
  - destruct (scanButtons_cases e 4 0 s) as (r & s1 & o1 & Hs & Hw).
    unfold bind at 1. rewrite Hs. destruct r as [k|].
    + destruct Hw as (Hk & Ho & Hc1). exists (Some k), s1, o1.
      split; [cbn; now rewrite !app_nil_r|].
      split; [lia|]. split; [exact Ho | lia].
    + destruct Hw as (-> & Hc1).
      destruct (IH (set_clock (clock s1 + pollTime e) s1)) as (r & s' & o & H & Hr).
      * cbn. lia.
      * cbn. lia.
      * exists r, s', o. split; [|exact Hr].
        unfold bind, idle, advance, modify. rewrite H. reflexivity.
  - exists None, s, []. split; [reflexivity|]. split; [reflexivity | lia].
Qed.

Lemma awaitPress_cases e s :
  0 < pollTime e <= 2 ^ 32 - 3000 ->
  exists r s' o,
    awaitPress e s = Ret r s' o /\
    match r with
    | None => o = [] /\ 3000 <= clock s' - clock s < 3000 + pollTime e
    | Some k =>
        0 <= k < 4 /\ o = feedbackOutput k /\
        0 <= clock s' - 200 - clock s < 3000
    end.
Proof.
  intros Hp.
  destruct (waitLoop_cases e (clock s) Hp 3001 s) as (r & s' & o & H & Hr);
    [lia | lia |].
  exists r, s', o. split; [|exact Hr].
  unfold awaitPress, bind, millis. cbn [gets]. rewrite H. reflexivity.
Qed.

(** ** The first accepted press *)

Lemma polledBelow_clock e k s : clock (polledBelow e k s) = clock s.
Proof.
  induction k as [|k IH]; [reflexivity|].
  cbn [polledBelow]. now rewrite polled_clock.
Qed.

(** The scan of the buttons from [b] on, in the pass that began in [s]:
    it stops at the first button whose poll is accepted. *)
Lemma scanButtons_polls e n : forall b s,
  (exists k, (b <= k < b + n)%nat /\
     pressed e (Z.of_nat k) (polledBelow e k s) = true /\
     (forall j, (b <= j < k)%nat ->
                pressed e (Z.of_nat j) (polledBelow e j s) = false) /\
     scanButtons e n (Z.of_nat b) (polledBelow e b s)
     = Ret (Some (Z.of_nat k))
         (set_clock (clock s + 200) (polled e (Z.of_nat k) (polledBelow e k s)))
         (feedbackOutput (Z.of_nat k)))
  \/ ((forall j, (b <= j < b + n)%nat ->
                 pressed e (Z.of_nat j) (polledBelow e j s) = false) /\
      scanButtons e n (Z.of_nat b) (polledBelow e b s)
      = Ret None (polledBelow e (b + n) s) []).
Proof.
  induction n as [|n IH]; intros b s.
  - right. split; [intros j Hj; lia|]. rewrite Nat.add_0_r. reflexivity.
  - destruct (pressed e (Z.of_nat b) (polledBelow e b s)) eqn:Hp.
    + left. exists b. split; [lia|]. split; [exact Hp|].
      split; [intros j Hj; lia|].
      cbn [scanButtons]. unfold bind at 1. rewrite readButton_spec, Hp.
      unfold bind. rewrite pressFeedback_spec. cbn [ret app].
      rewrite polled_clock, polledBelow_clock. reflexivity.
    + assert (Hnext : scanButtons e (S n) (Z.of_nat b) (polledBelow e b s)
                      = scanButtons e n (Z.of_nat (S b)) (polledBelow e (S b) s)).
      { cbn [scanButtons polledBelow]. unfold bind at 1.
        rewrite readButton_spec, Hp.
        replace (Z.of_nat b + 1) with (Z.of_nat (S b)) by lia.
        destruct (scanButtons e n (Z.of_nat (S b)) (polled e (Z.of_nat b) (polledBelow e b s)));
          reflexivity. }
      rewrite Hnext.
      destruct (IH (S b) s) as [(k & Hk & Hpk & Hbefore & H)|(Hnone & H)].
      * left. exists k. split; [lia|]. split; [exact Hpk|]. split; [|exact H].
        intros j Hj. destruct (Nat.eq_dec j b) as [->|Hne];
          [exact Hp | apply Hbefore; lia].
      * right. split.
        -- intros j Hj. destruct (Nat.eq_dec j b) as [->|Hne];
             [exact Hp | apply Hnone; lia].
        -- rewrite H. replace (b + S n)%nat with (S b + n)%nat by lia.
           reflexivity.
Qed.

(** The wait loop ends, and ends as [firstPress] tells. *)
Lemma waitLoop_firstPress e t0 :
  0 < pollTime e <= 2 ^ 32 - 3000 ->
  forall fuel s,
    0 <= clock s - t0 < 3000 + pollTime e ->
    (Z.to_nat (3000 - (clock s - t0)) < fuel)%nat ->
    exists r s' o,
      waitLoop e fuel (ulong t0) s = Ret r s' o /\ firstPress e t0 s r s'.
Proof.
  intros Hp. induction fuel as [|fuel IH]; intros s Hc Hf; [lia|].
  cbn [waitLoop]. unfold bind at 1. unfold millis at 1. cbn [gets].
  rewrite ulong_diff by lia.
  destruct (clock s - t0 <? 3000) eqn:E.
  - apply Z.ltb_lt in E.
    destruct (scanButtons_polls e 4 0 s)
      as [(k & Hk & Hpk & Hbefore & H)|(Hnone & H)];
      change (polledBelow e 0 s) with s in H; change (Z.of_nat 0) with 0 in H;
      unfold bind at 1; rewrite H.
    + eexists _, _, _. split; [cbn [ret app]; rewrite ?app_nil_r; reflexivity|].
      apply firstPress_here; [exact E|]. split; [lia|]. split; [exact Hpk|].
      intros j Hj. apply Hbefore. lia.
    + change (0 + 4)%nat with 4%nat.
      destruct (IH (idleState e (polledBelow e 4 s))) as (r & s' & o & H' & Hr).
      * unfold idleState. cbn [clock set_clock]. rewrite polledBelow_clock. lia.
      * unfold idleState. cbn [clock set_clock]. rewrite polledBelow_clock. lia.
      * exists r, s', o. split.
        -- unfold bind, idle, advance, modify. fold (idleState e (polledBelow e 4 s)).
           rewrite H'. reflexivity.
        -- apply firstPress_later; [exact E | | exact Hr].
           intros j Hj. apply Hnone. lia.
  - apply Z.ltb_ge in E. exists None, s, []. split; [reflexivity|].
    now apply firstPress_timeout.
Qed.

(** A step ends in one way only. *)
Lemma firstPress_fun e t0 s r1 s1 :
  firstPress e t0 s r1 s1 ->
  forall r2 s2, firstPress e t0 s r2 s2 -> r1 = r2 /\ s1 = s2.
Proof.
  induction 1 as [s Ht|s k Ht Hk|s r s' Ht Hn _ IH]; intros r2 s2 H2;
    inversion H2 as [? Ht2|? k2 Ht2 Hk2|? ? ? Ht2 Hn2 H2']; subst; try lia.
  - split; reflexivity.
  - assert (Heq : k = k2).
    { destruct Hk as (Hk4 & Hpk & Hbk), Hk2 as (Hk4' & Hpk' & Hbk').
      destruct (Nat.lt_trichotomy k k2) as [Hlt|[Heq|Hgt]]; [|exact Heq|].
      - rewrite (Hbk' k Hlt) in Hpk. discriminate Hpk.
      - rewrite (Hbk k2 Hgt) in Hpk'. discriminate Hpk'. }
    subst k2. split; reflexivity.
  - destruct Hk as (Hk4 & Hpk & _). rewrite (Hn2 k Hk4) in Hpk. discriminate Hpk.
  - destruct Hk2 as (Hk4 & Hpk & _). rewrite (Hn k2 Hk4) in Hpk. discriminate Hpk.
  - apply IH. exact H2'.
Qed.

Lemma awaitPress_firstPress e s :
  0 < pollTime e <= 2 ^ 32 - 3000 ->
  exists r s' o,
    awaitPress e s = Ret r s' o /\ firstPress e (clock s) s r s'.
Proof.
  intros Hp.
  destruct (waitLoop_firstPress e (clock s) Hp 3001 s) as (r & s' & o & H & Hr);
    [lia | lia |].
  exists r, s', o. split; [|exact Hr].
  unfold awaitPress, bind, millis. cbn [gets]. rewrite H. reflexivity.
Qed.

(** What [awaitPress] returns is the first accepted press of the step, and
    the first accepted press of the step is what [awaitPress] returns. *)
Lemma awaitPress_sound e s r s' o :
  0 < pollTime e <= 2 ^ 32 - 3000 ->
  awaitPress e s = Ret r s' o -> firstPress e (clock s) s r s'.
Proof.
  intros Hp H. destruct (awaitPress_firstPress e s Hp) as (r2 & s2 & o2 & H2 & Hf).
  rewrite H in H2. inversion H2; subst. exact Hf.
Qed.

Lemma awaitPress_complete e s r s' :
  0 < pollTime e <= 2 ^ 32 - 3000 ->
  firstPress e (clock s) s r s' -> exists o, awaitPress e s = Ret r s' o.
Proof.
  intros Hp H. destruct (awaitPress_firstPress e s Hp) as (r2 & s2 & o2 & H2 & Hf).
  destruct (firstPress_fun _ _ _ _ _ H _ _ Hf) as [-> ->]. eauto.
Qed.

(** ** The replay, step by step *)

Lemma readSteps_replays e i s s' :
  0 < pollTime e <= 2 ^ 32 - 3000 ->
  replays e i s s' -> 0 <= i -> currentLevel s < 255 ->
  forall fuel, (Z.to_nat (currentLevel s + 1 - i) < fuel)%nat ->
  exists o, readSteps e fuel i s = Ret true s' o.
Proof.
  intros Hp.
  induction 1 as [i s Hi|i s b s1 s2 Hi Hf Hx _ IH]; intros H0 Hl fuel Hfuel;
    (destruct fuel as [|fuel]; [lia|]).
  - cbn [readSteps]. unfold bind at 1. cbn [gets].
    destruct (i <=? currentLevel s) eqn:E; [lia|]. eexists. reflexivity.
  - rewrite readSteps_unfold by assumption.
    destruct (awaitPress_complete e s _ _ Hp Hf) as [o Hw].
    pose proof (awaitPress_sameGame e _ _ _ _ Hw) as (Hseq & Hlvl & _).
    destruct (IH ltac:(lia) ltac:(lia) fuel ltac:(rewrite Hlvl; lia)) as [o2 IH2].
    unfold bind at 1. rewrite Hw. unfold bind at 1. cbn [gets].
    unfold bind at 1. unfold index. rewrite Hseq, Hx. cbn [ret].
    rewrite Z.eqb_refl. cbn [negb]. rewrite byte_small by lia. rewrite IH2.
    eexists. reflexivity.
Qed.

Lemma readSteps_misses e i s s' :
  0 < pollTime e <= 2 ^ 32 - 3000 ->
  misses e i s s' -> 0 <= i -> currentLevel s < 255 ->
  forall fuel, (Z.to_nat (currentLevel s + 1 - i) < fuel)%nat ->
  exists o, readSteps e fuel i s = Ret false s' o.
Proof.
  intros Hp.
  induction 1 as [i s s1 Hi Hf|i s b x s1 Hi Hf Hx Hne
                 |i s b s1 s2 Hi Hf Hx _ IH]; intros H0 Hl fuel Hfuel;
    (destruct fuel as [|fuel]; [lia|]);
    rewrite readSteps_unfold by assumption;
    destruct (awaitPress_complete e s _ _ Hp Hf) as [o Hw];
    unfold bind at 1; rewrite Hw.
  - eexists. reflexivity.
  - pose proof (awaitPress_sameGame e _ _ _ _ Hw) as (Hseq & _).
    unfold bind at 1. cbn [gets].
    unfold bind at 1. unfold index. rewrite Hseq, Hx. cbn [ret].
    destruct (b =? x) eqn:E; [lia|]. eexists. reflexivity.
  - pose proof (awaitPress_sameGame e _ _ _ _ Hw) as (Hseq & Hlvl & _).
    destruct (IH ltac:(lia) ltac:(lia) fuel ltac:(rewrite Hlvl; lia)) as [o2 IH2].
    unfold bind at 1. cbn [gets].
    unfold bind at 1. unfold index. rewrite Hseq, Hx. cbn [ret].
    rewrite Z.eqb_refl. cbn [negb]. rewrite byte_small by lia. rewrite IH2.
    eexists. reflexivity.
Qed.

Lemma readSteps_inv e fuel :
  0 < pollTime e <= 2 ^ 32 - 3000 ->
  forall i s ok s' o,
  readSteps e fuel i s = Ret ok s' o -> 0 <= i -> currentLevel s < 255 ->
  if ok then replays e i s s' else misses e i s s'.
Proof.
  intros Hp.
  induction fuel as [|fuel IH]; intros i s ok s' o H H0 Hl; [discriminate|].
  destruct (Z.le_gt_cases i (currentLevel s)) as [Hi|Hi].
  - rewrite readSteps_unfold in H by assumption.
    apply bind_inv in H as (r & s1 & o1 & o2 & Hw & H & _).
    pose proof (awaitPress_sameGame e _ _ _ _ Hw) as (Hseq & Hlvl & _).
    apply (awaitPress_sound e s r s1 o1 Hp) in Hw.
    destruct r as [b|].
    + apply bind_inv in H as (seq & s1' & o3 & o4 & Hg & H & _).
      inversion Hg; subst seq s1' o3; clear Hg.
      apply bind_inv in H as (x & s1' & o3 & o5 & Hx & H & _).
      unfold index in Hx. destruct (at_ (gameSequence s1) i) as [x'|] eqn:Hat;
        [|discriminate]. inversion Hx; subst x' s1' o3; clear Hx.
      rewrite Hseq in Hat.
      destruct (b =? x) eqn:E; cbn [negb] in H.
      * apply Z.eqb_eq in E. subst x. rewrite byte_small in H by lia.
        apply IH in H; [|lia|lia].
        destruct ok; [eapply replays_step | eapply misses_later]; eauto.
      * apply Z.eqb_neq in E. inversion H; subst.
        eapply misses_wrong; eauto.
    + inversion H; subst. eapply misses_timeout; eauto.
  - cbn [readSteps] in H. unfold bind at 1 in H. cbn [gets] in H.
    destruct (i <=? currentLevel s) eqn:E; [lia|]. inversion H; subst.
    now apply replays_done.
Qed.

(** [readPlayerSequence] returns [true] exactly when every step is
    replayed, and [false] exactly when one is missed; in both cases in the
    state in which the last wait ended. *)
Lemma readPlayerSequence_judges e s :
  0 < pollTime e <= 2 ^ 32 - 3000 ->
  0 <= currentLevel s < 255 ->
  (forall s', replays e 0 s s' <->
              exists o, readPlayerSequence e s = Ret true s' o) /\
  (forall s', misses e 0 s s' <->
              exists o, readPlayerSequence e s = Ret false s' o).
Proof.
  intros Hp Hl. split; intros s'; split.
  - intros H.
    destruct (readSteps_replays e 0 s s' Hp H ltac:(lia) ltac:(lia) 257%nat ltac:(lia))
      as [o Ho].
    unfold readPlayerSequence, bind. cbn [println emit]. rewrite Ho. eauto.
  - intros [o H]. unfold readPlayerSequence in H.
    apply bind_inv in H as ([] & s1 & o1 & o2 & Hq & H & _).
    inversion Hq; subst. apply (readSteps_inv e 257 Hp 0 s1 true s' o2 H); lia.
  - intros H.
    destruct (readSteps_misses e 0 s s' Hp H ltac:(lia) ltac:(lia) 257%nat ltac:(lia))
      as [o Ho].
    unfold readPlayerSequence, bind. cbn [println emit]. rewrite Ho. eauto.
  - intros [o H]. unfold readPlayerSequence in H.
    apply bind_inv in H as ([] & s1 & o1 & o2 & Hq & H & _).
    inversion Hq; subst. apply (readSteps_inv e 257 Hp 0 s1 false s' o2 H); lia.
Qed.

(** ** The game loop returns *)




(** ** The claim about the judgement of a round *)

(** C1: take a round that follows [n] rounds won since the game started, on
    a board whose polling pass takes at least 1 ms and at most 2^32 - 3000,
    and let [s] be the state after its presenting phase.  The player is
    what the polls of the four buttons make of the pin levels: in each step
    the first accepted press is the first poll, in passes over the buttons
    0 to 3 that begin less than 3000 ms after the step began, that
    [readButton] accepts ([firstPress]).  If in every step up to
    [currentLevel] that press is on the button the sequence holds at that
    step, [readPlayerSequence] returns true and [loop] returns with the game
    on and the level raised to [n + 1].  If in some step no press is accepted
    within the timeout, or the first accepted press is on another button,
    [readPlayerSequence] returns false in the state in which that wait ended,
    with no further step, and [loop] returns with the game over and the
    level [n].  Every result of [readPlayerSequence] is one of the two.  The
    wait of a step always ends, as [firstPress] tells: in a timeout no
    earlier than 3000 ms after it started, or with a press taken less than
    3000 ms after it started. *)
Theorem round_judgement e n g s0 s :
  0 < pollTime e <= 2 ^ 32 - 3000 ->
  gameStart g -> won e n g s0 -> stateOf (presenting e s0) = Some s ->
  (forall s', replays e 0 s s' ->
     (exists o, readPlayerSequence e s = Ret true s' o) /\
     stateOf (loop e s0) = Some (levelUpState s') /\
     gameOver (levelUpState s') = false /\
     currentLevel (levelUpState s') = Z.of_nat n + 1) /\
  (forall s', misses e 0 s s' ->
     (exists o, readPlayerSequence e s = Ret false s' o) /\
     stateOf (loop e s0) = Some (gameOverState s') /\
     gameOver (gameOverState s') = true /\
     currentLevel (gameOverState s') = Z.of_nat n) /\
  (forall ok s' o,
     readPlayerSequence e s = Ret ok s' o ->
     if ok then replays e 0 s s' else misses e 0 s s') /\
  (forall p, exists r p' o,
     awaitPress e p = Ret r p' o /\
     firstPress e (clock p) p r p' /\
     (forall r2 p2, firstPress e (clock p) p r2 p2 -> r2 = r /\ p2 = p') /\
     match r with
     | None => o = [] /\ 3000 <= clock p' - clock p
     | Some k => 0 <= k < 4 /\ 0 <= clock p' - 200 - clock p < 3000
     end).
Proof.
  intros Hpoll Hg Hw Hp.
  destruct (won_level e n g s0 Hg Hw) as (Hl0 & _ & Hg0).
  apply bind_stateOf in Hp as ([] & s1 & o1 & H1 & Hp).
  apply stateOf_Some in Hp as ([] & o2 & H2).
  pose proof (displaySequence_level _ _ _ _ H2) as Hlt.
  pose proof (addNewStep_sameLevel e _ _ _ _ H1) as (L1 & _).
  pose proof (displaySequence_sameGame _ _ _ _ H2) as (_ & L2 & _).
  assert (Hl : 0 <= currentLevel s < 255) by lia.
  destruct (readPlayerSequence_judges e s Hpoll Hl) as [Jt Jf].
  split; [|split; [|split]].
  - intros s' Hr. destruct (proj1 (Jt s') Hr) as [o H3].
    destruct (round_fields _ _ _ _ _ _ _ _ _ H1 H2 H3) as (L3 & _ & _ & _ & G3).
    split; [eauto|].
    rewrite (loop_playing e s0 s1 o1 s o2 true s' o Hg0 H1 H2 H3).
    split; [reflexivity|]. cbn. rewrite byte_small by lia. split; [congruence | lia].
  - intros s' Hm. destruct (proj1 (Jf s') Hm) as [o H3].
    destruct (round_fields _ _ _ _ _ _ _ _ _ H1 H2 H3) as (L3 & _).
    split; [eauto|].
    rewrite (loop_playing e s0 s1 o1 s o2 false s' o Hg0 H1 H2 H3).
    destruct (gameOverState_fields s') as (G & L & _).
    split; [reflexivity|]. split; [exact G | lia].
  - intros ok s' o H3. destruct ok; [apply Jt | apply Jf]; eauto.
  - intros p. destruct (awaitPress_cases e p Hpoll) as (r & p' & o & H & Hr).
    pose proof (awaitPress_sound e p r p' o Hpoll H) as Hf.
    exists r, p', o. split; [exact H|]. split; [exact Hf|]. split.
    + intros r2 p2 H2'. destruct (firstPress_fun _ _ _ _ _ H2' _ _ Hf) as [-> ->].
      split; reflexivity.
    + destruct r; [destruct Hr as (? & _ & ?) | destruct Hr as (? & ? & _)]; auto.
Qed.

Lemma round_judgement_witness :
  (replays redPlayer 0 secondShown secondReplayed /\
   stateOf (loop redPlayer secondRound) = Some (levelUpState secondReplayed) /\
   currentLevel (levelUpState secondReplayed) = 2) /\
  (misses lateComer 0 lateShown lateTimedOut /\
   stateOf (loop lateComer lateSetup) = Some (gameOverState lateTimedOut) /\
   currentLevel (gameOverState lateTimedOut) = 0).
Proof.
  split.
  - destruct (round_judgement redPlayer 1 afterSetup secondRound secondShown)
      as (Hwin & _ & Hany & _).
    + cbn [pollTime redPlayer]. lia.
    + exact afterSetup_start.
    + apply playRounds_won. vm_compute. reflexivity.
    + vm_compute. reflexivity.
    + assert (Hr : replays redPlayer 0 secondShown secondReplayed).
      { apply (Hany true secondReplayed
                 (outputOf (readPlayerSequence redPlayer secondShown))).
        vm_compute. reflexivity. }
      destruct (Hwin secondReplayed Hr) as (_ & Hloop & _ & Hlvl).
      split; [exact Hr|]. split; [exact Hloop | exact Hlvl].
  - destruct (round_judgement lateComer 0 lateSetup lateSetup lateShown)
      as (_ & Hlose & Hany & _).
    + cbn [pollTime lateComer]. lia.
    + repeat split.
    + constructor.
    + vm_compute. reflexivity.
    + assert (Hm : misses lateComer 0 lateShown lateTimedOut).
      { apply (Hany false lateTimedOut
                 (outputOf (readPlayerSequence lateComer lateShown))).
        vm_compute. reflexivity. }
      destruct (Hlose lateTimedOut Hm) as (_ & Hloop & _ & Hlvl).
      split; [exact Hm|]. split; [exact Hloop | exact Hlvl].
Defined.

(** ** Debouncing, one channel at a time *)

Lemma sel_upd_same {A} (d : A) l i v :
  (Z.to_nat i < length l)%nat -> sel d (upd l i v) i = v.
Proof.
  intros H. unfold sel, upd. rewrite nth_lookup.
  now rewrite list_lookup_insert_eq.
Qed.

Lemma sel_upd_other {A} (d : A) l i j v :
  Z.to_nat i <> Z.to_nat j -> sel d (upd l i v) j = sel d l j.
Proof.
  intros H. unfold sel, upd. rewrite !nth_lookup.
  now rewrite list_lookup_insert_ne.
Qed.

Lemma polled_buttonsOk e b s : buttonsOk s -> buttonsOk (polled e b s).
Proof.
  intros (H1 & H2 & H3). unfold buttonsOk, polled, changeNoted, upd.
  destruct (accepted e b s), (changed e b s); cbn;
    rewrite ?length_insert; auto.
Qed.

Lemma polled_channel e b s :
  0 <= b < 4 -> buttonsOk s ->
  (channel b (polled e b s), pressed e b s)
  = debounce (channel b s) (reading e b s) (ulong (clock s)).
Proof.
  intros Hb (H1 & H2 & H3).
  assert (Hn : (Z.to_nat b < 4)%nat) by lia.
  unfold debounce, channel, polled, pressed. unfold accepted.
  unfold changeNoted, changed.
  cbn [stable lastRead changedAt].
  destruct (negb (Level_eqb (reading e b s) (sel HIGH (lastButtonState s) b)));
    cbn [lastDebounceTime set_lastDebounceTime];
    rewrite ?sel_upd_same by (rewrite ?H3; exact Hn);
    match goal with
    | |- context [?x && negb ?y] => destruct (x && negb y)
    end;
    cbn [currentButtonState lastButtonState lastDebounceTime
         set_currentButtonState set_lastButtonState set_lastDebounceTime];
    rewrite ?sel_upd_same by (rewrite ?H1, ?H2, ?H3; exact Hn);
    reflexivity.
Qed.

Lemma polled_other e b b' s :
  0 <= b < 4 -> 0 <= b' < 4 -> b <> b' ->
  channel b (polled e b' s) = channel b s.
Proof.
  intros Hb Hb' Hne.
  assert (Hn : Z.to_nat b' <> Z.to_nat b) by lia.
  unfold channel, polled, changeNoted.
  destruct (accepted e b' s), (changed e b' s); cbn -[sel upd];
    rewrite ?sel_upd_other by exact Hn; reflexivity.
Qed.

Lemma ulong_small t : 0 <= t < 2 ^ 32 -> ulong t = t.
Proof. intros H. unfold ulong. now apply Z.mod_small. Qed.

Lemma pollsAt_debounceAll e b ts : forall s,
  0 <= b < 4 -> buttonsOk s -> Forall (fun t => 0 <= t < 2 ^ 32) ts ->
  pollsAt e b ts s = debounceAll (channel b s) (samplesOf e b ts).
Proof.
  induction ts as [|t ts IH]; intros s Hb Hok Hts; [reflexivity|].
  inversion Hts as [|t' ts' Ht Hts']; subst.
  cbn [pollsAt samplesOf map debounceAll]. rewrite readButton_spec.
  assert (Hok' : buttonsOk (set_clock t s)) by exact Hok.
  pose proof (polled_channel e b (set_clock t s) Hb Hok') as Hc.
  cbn [clock set_clock] in Hc. rewrite ulong_small in Hc by exact Ht.
  unfold reading in Hc. cbn [clock set_clock] in Hc.
  change (channel b (set_clock t s)) with (channel b s) in Hc.
  rewrite <- Hc. cbn [fst snd]. f_equal.
  apply IH; auto using polled_buttonsOk.
Qed.

Lemma debounce_high c t :
  stable c = HIGH ->
  debounce c HIGH t =
  ({| stable := HIGH; lastRead := HIGH;
      changedAt := if negb (Level_eqb HIGH (lastRead c)) then t else changedAt c |},
   false).
Proof.
  intros Hs. unfold debounce. rewrite Hs. cbn [Level_eqb negb].
  now rewrite !andb_false_r.
Qed.

Lemma debounce_low_first c t :
  0 <= t < 2 ^ 32 -> stable c = HIGH -> lastRead c = HIGH ->
  debounce c LOW t = ({| stable := HIGH; lastRead := LOW; changedAt := t |}, false).
Proof.
  intros Ht Hs Hl. unfold debounce. rewrite Hs, Hl. cbn [Level_eqb negb].
  rewrite Z.sub_diag. cbn. reflexivity.
Qed.

Lemma debounce_low_next c t :
  stable c = HIGH -> lastRead c = LOW ->
  0 <= t - changedAt c < 2 ^ 32 ->
  debounce c LOW t =
  (if debounceDelay <? t - changedAt c
   then {| stable := LOW; lastRead := LOW; changedAt := changedAt c |}
   else {| stable := HIGH; lastRead := LOW; changedAt := changedAt c |},
   debounceDelay <? t - changedAt c).
Proof.
  intros Hs Hl Ht. unfold debounce. rewrite Hs, Hl. cbn [Level_eqb negb].
  rewrite ulong_small by exact Ht.
  destruct (debounceDelay <? t - changedAt c); reflexivity.
Qed.

Lemma debounce_held c t :
  stable c = LOW -> lastRead c = LOW ->
  debounce c LOW t =
  ({| stable := LOW; lastRead := LOW; changedAt := changedAt c |}, false).
Proof.
  intros Hs Hl. unfold debounce. rewrite Hs, Hl. cbn [Level_eqb negb].
  now rewrite !andb_false_r.
Qed.

(** A level that bounces gives no press. *)
Lemma bouncing_no_press samples : forall c since from,
  stable c = HIGH ->
  match since with
  | None => lastRead c = HIGH /\ 0 <= from
  | Some t0 => lastRead c = LOW /\ changedAt c = t0 /\ 0 <= t0 <= from
  end ->
  timely from samples -> briefLows since samples ->
  Forall (fun p => p = false) (debounceAll c samples).
Proof.
  induction samples as [|[t r] rest IH]; intros c since from Hs Hinv Ht Hb;
    [constructor|].
  destruct Ht as [Ht Hrest]. cbn [debounceAll]. destruct r.
  - destruct since as [t0|].
    + destruct Hinv as (Hl & Hc & H0). destruct Hb as [Hd Hb].
      rewrite debounce_low_next by (rewrite ?Hc; auto; lia).
      rewrite Hc. destruct (debounceDelay <? t - t0) eqn:E; [lia|].
      cbn [fst snd]. constructor; [reflexivity|].
      apply (IH _ (Some t0) t); cbn; auto. repeat split; auto; lia.
    + destruct Hinv as (Hl & H0).
      rewrite debounce_low_first by (auto; lia).
      cbn [fst snd]. constructor; [reflexivity|].
      apply (IH _ (Some t) t); cbn; auto. repeat split; auto; lia.
  - rewrite debounce_high by exact Hs.
    cbn [fst snd]. constructor; [reflexivity|].
    apply (IH _ None t); cbn; auto.
    split; [reflexivity|]. destruct since as [t0|]; lia.
Qed.

Lemma pressCount_app l1 l2 : pressCount (l1 ++ l2) = (pressCount l1 + pressCount l2)%nat.
Proof.
  induction l1 as [|[] l1 IH]; cbn; rewrite ?IH; reflexivity.
Qed.

Lemma pressCount_none l : Forall (fun p => p = false) l -> pressCount l = O.
Proof. induction 1 as [|p l -> _ IH]; [reflexivity | exact IH]. Qed.

Lemma debounceAll_app c l1 l2 :
  debounceAll c (l1 ++ l2) = debounceAll c l1 ++ debounceAll (debounceEnd c l1) l2.
Proof.
  revert c. induction l1 as [|[t r] l1 IH]; intros c; [reflexivity|].
  cbn. now rewrite IH.
Qed.

Lemma timely_app from l1 l2 :
  timely from (l1 ++ l2) ->
  timely from l1 /\ exists from', from <= from' /\ timely from' l2.
Proof.
  revert from. induction l1 as [|[t r] l1 IH]; intros from H.
  - split; [exact I|]. exists from. split; [lia | exact H].
  - destruct H as [Ht H]. destruct (IH t H) as (H1 & from' & Hle & H2).
    split; [split; assumption|]. exists from'. split; [lia | exact H2].
Qed.

Lemma highs_released samples : forall c,
  released c -> Forall (fun x => snd x = HIGH) samples ->
  released (debounceEnd c samples) /\
  Forall (fun p => p = false) (debounceAll c samples).
Proof.
  induction samples as [|[t r] rest IH]; intros c [Hs Hl] Hh.
  - split; [split; assumption | constructor].
  - inversion Hh as [|x l Hr Hrest]; subst. cbn in Hr. subst r.
    cbn [debounceEnd debounceAll]. rewrite debounce_high by exact Hs.
    cbn [fst snd].
    match goal with |- released (debounceEnd ?c' _) /\ _ =>
      destruct (IH c' ltac:(split; reflexivity) Hrest) as [H1 H2]
    end.
    split; [exact H1 | constructor; [reflexivity | exact H2]].
Qed.

Lemma held_no_press samples : forall c,
  stable c = LOW -> lastRead c = LOW ->
  Forall (fun x => snd x = LOW) samples ->
  Forall (fun p => p = false) (debounceAll c samples).
Proof.
  induction samples as [|[t r] rest IH]; intros c Hs Hl Hh; [constructor|].
  inversion Hh as [|x l Hr Hrest]; subst. cbn in Hr. subst r.
  cbn [debounceAll]. rewrite debounce_held by assumption.
  cbn [fst snd]. constructor; [reflexivity|]. now apply IH.
Qed.

(** A level that was first read LOW at [changedAt c] and stays LOW gives one
    press, at the first poll more than [debounceDelay] later. *)
Lemma pending_one_press samples : forall c from,
  stable c = HIGH -> lastRead c = LOW -> 0 <= changedAt c <= from ->
  Forall (fun x => snd x = LOW) samples -> timely from samples ->
  Exists (fun x => debounceDelay < fst x - changedAt c) samples ->
  pressCount (debounceAll c samples) = 1%nat.
Proof.
  induction samples as [|[t r] rest IH]; intros c from Hs Hl Hc Hlow Ht Hex;
    [inversion Hex|].
  inversion Hlow as [|x l Hr Hrest]; subst. cbn in Hr. subst r.
  destruct Ht as [Ht Htr]. cbn [debounceAll].
  rewrite debounce_low_next by (auto; lia).
  destruct (debounceDelay <? t - changedAt c) eqn:E; cbn [fst snd pressCount].
  - f_equal. apply pressCount_none. now apply held_no_press.
  - apply (IH _ t); cbn; auto; try lia.
    inversion Hex as [x l Hx|x l Hx]; subst; [cbn in Hx; lia | exact Hx].
Qed.

(** A clean press: the level is read HIGH, then LOW from [tm] on, and one
    of the polls comes more than [debounceDelay] after [tm]. *)
Lemma clean_press_once c highs tm lows :
  released c ->
  Forall (fun x => snd x = HIGH) highs ->
  Forall (fun x => snd x = LOW) lows ->
  timely 0 (highs ++ (tm, LOW) :: lows) ->
  Exists (fun x => debounceDelay < fst x - tm) lows ->
  pressCount (debounceAll c (highs ++ (tm, LOW) :: lows)) = 1%nat.
Proof.
  intros Hrel Hh Hl Ht Hex.
  destruct (highs_released highs c Hrel Hh) as [[Hs' Hl'] Hnone].
  destruct (timely_app 0 highs _ Ht) as (_ & from' & Hfrom & [Htm Htl]).
  rewrite debounceAll_app, pressCount_app, (pressCount_none _ Hnone).
  cbn [debounceAll Nat.add].
  rewrite debounce_low_first by (auto; lia). cbn [fst snd pressCount].
  apply (pending_one_press lows _ tm); cbn; auto. lia.
Qed.

Lemma pollsAt_length e b ts : forall s, length (pollsAt e b ts s) = length ts.
Proof.
  induction ts as [|t ts IH]; intros s; [reflexivity|].
  cbn [pollsAt]. rewrite readButton_spec. cbn [length]. now rewrite IH.
Qed.

Lemma timely_range e b ts : forall from,
  0 <= from -> timely from (samplesOf e b ts) ->
  Forall (fun t => 0 <= t < 2 ^ 32) ts.
Proof.
  induction ts as [|t ts IH]; intros from H0 Ht; [constructor|].
  destruct Ht as [Ht Hrest]. constructor; [lia|]. apply (IH t); [lia | exact Hrest].
Qed.

Lemma samplesOf_app e b ts1 ts2 :
  samplesOf e b (ts1 ++ ts2) = samplesOf e b ts1 ++ samplesOf e b ts2.
Proof. unfold samplesOf. apply map_app. Qed.

(** What one poll returns, in terms of the channel before and after. *)
Lemma debounce_press c r now c' p :
  debounce c r now = (c', p) ->
  (p = true <-> stable c = HIGH /\ stable c' = LOW) /\
  (stable c = LOW -> p = false) /\
  (r = HIGH -> p = false) /\
  (ulong (now - changedAt c') <= debounceDelay -> p = false).
Proof.
  unfold debounce. intros H. injection H as <- <-. cbn [stable changedAt].
  destruct c as [st lr ca]. cbn [stable lastRead changedAt].
  set (since := if negb (Level_eqb r lr) then now else ca).
  destruct (debounceDelay <? ulong (now - since)) eqn:E;
    destruct r, st; cbn; repeat split; intros; try congruence; try lia;
    try (destruct H; congruence).
Qed.

(** ** The claim about debouncing *)

(** C6, amended: for each of the four buttons, every poll returns, and it
    returns true exactly when it moves the accepted level of the button from
    HIGH to LOW; it returns false while the button is held (the accepted
    level is LOW already), while it is released (the level read is HIGH)
    and while it bounces (the last change between two polls is at most 50 ms
    old); and it leaves the other buttons alone.  Over a run of polls of a
    released button, a level that the polls never read LOW for a stretch of
    more than 50 ms gives no press, and a level read HIGH and then LOW from
    some poll on gives exactly one press, provided a poll comes more than
    50 ms after the first that read LOW.  What the level does between two
    polls is not seen. *)
Theorem readButton_debounced e b s :
  0 <= b < 4 -> buttonsOk s ->
  (exists p s', readButton e b s = Ret p s' []) /\
  (forall ts, length (pollsAt e b ts s) = length ts) /\
  (forall p s' o,
     readButton e b s = Ret p s' o ->
     (p = true <->
      stable (channel b s) = HIGH /\ stable (channel b s') = LOW) /\
     (stable (channel b s) = LOW -> p = false) /\
     (reading e b s = HIGH -> p = false) /\
     (ulong (ulong (clock s) - changedAt (channel b s')) <= debounceDelay ->
      p = false) /\
     (forall b', 0 <= b' < 4 -> b' <> b -> channel b' s' = channel b' s)) /\
  (forall ts,
     released (channel b s) ->
     timely 0 (samplesOf e b ts) -> briefLows None (samplesOf e b ts) ->
     pressCount (pollsAt e b ts s) = 0%nat) /\
  (forall ts1 tm ts2,
     released (channel b s) ->
     Forall (fun x => snd x = HIGH) (samplesOf e b ts1) ->
     Forall (fun x => snd x = LOW) (samplesOf e b (tm :: ts2)) ->
     timely 0 (samplesOf e b (ts1 ++ tm :: ts2)) ->
     Exists (fun t => debounceDelay < t - tm) ts2 ->
     pressCount (pollsAt e b (ts1 ++ tm :: ts2) s) = 1%nat).
Proof.
  intros Hb Hok.
  split; [eexists; eexists; apply readButton_spec|].
  split; [intros ts; apply pollsAt_length|]. split; [|split].
  - intros p s' o H. rewrite readButton_spec in H. injection H as <- <- _.
    pose proof (polled_channel e b s Hb Hok) as Hc. symmetry in Hc.
    destruct (debounce_press _ _ _ _ _ Hc) as (H1 & H2 & H3 & H4).
    repeat split; try apply H1; auto.
    intros b' Hb' Hne. now apply polled_other.
  - intros ts [Hs Hl] Ht Hbr.
    rewrite pollsAt_debounceAll;
      [| exact Hb | exact Hok | apply (timely_range e b ts 0); [lia | exact Ht]].
    apply pressCount_none.
    apply (bouncing_no_press _ _ None 0); auto. split; [exact Hl | lia].
  - intros ts1 tm ts2 Hrel Hh Hlow Ht Hex.
    rewrite pollsAt_debounceAll;
      [| exact Hb | exact Hok
       | apply (timely_range e b _ 0); [lia | exact Ht]].
    rewrite samplesOf_app in *. cbn [samplesOf map] in *.
    inversion Hlow as [|x l Hm Hlow']; subst. cbn [snd] in Hm.
    rewrite Hm in *.
    apply clean_press_once; auto.
    apply Exists_exists in Hex. destruct Hex as (t & Hin & Hlt).
    apply Exists_exists.
    exists (t, pinLevel e t (sel 0 buttonPins b)). split; [|exact Hlt].
    apply list_elem_of_fmap. now exists t.
Qed.

Lemma readButton_debounced_witness :
  pressCount (pollsAt bouncer 0 [2400; 2410; 2420; 2430; 2440; 2450; 2460]
                afterSetup) = 0%nat /\
  pressCount (pollsAt redPlayer 0 ([2600; 2660; 2720] ++ 2800 :: [2860; 2920])
                afterSetup) = 1%nat.
Proof.
  assert (H0 : 0 <= 0 < 4) by lia.
  assert (Hok : buttonsOk afterSetup) by (repeat split).
  split.
  - destruct (readButton_debounced bouncer 0 afterSetup H0 Hok)
      as (_ & _ & _ & H & _).
    apply H.
    + split; reflexivity.
    + vm_compute. repeat split; easy.
    + vm_compute. repeat split; easy.
  - destruct (readButton_debounced redPlayer 0 afterSetup H0 Hok)
      as (_ & _ & _ & _ & H).
    apply H.
    + split; reflexivity.
    + repeat constructor.
    + repeat constructor.
    + vm_compute. repeat split; easy.
    + constructor. vm_compute. reflexivity.
Defined.

Lemma chatterer_oscillates : oscillates chatterer RED_BTN.
Proof.
  intros t. unfold debounceDelay. cbn [pinLevel chatterer].
  rewrite Z.eqb_refl. cbn [andb].
  pose proof (Z.mod_pos_bound (t + 39) 40 ltac:(lia)) as Hr.
  destruct ((t + 39) mod 40 <? 20) eqn:E.
  - split.
    + exists (t + (20 - (t + 39) mod 40)).
      assert (H : (t + (20 - (t + 39) mod 40) + 39) mod 40 = 20)
        by (Z.div_mod_to_equations; lia).
      rewrite H. split; [lia | reflexivity].
    + exists t. rewrite E. split; [lia | reflexivity].
  - split.
    + exists t. rewrite E. split; [lia | reflexivity].
    + exists (t + (40 - (t + 39) mod 40)).
      assert (H : (t + (40 - (t + 39) mod 40) + 39) mod 40 = 0)
        by (Z.div_mod_to_equations; lia).
      rewrite H. split; [lia | reflexivity].
Qed.

(** C6 as stated fails: a raw level that oscillates faster than the
    debounce interval does give a press.  The red button of [chatterer] is
    never LOW for more than 20 ms.  The last poll of the first round, which
    times out, reads it LOW; the game-over animation then blocks for 2600
    ms; and the next poll reads it LOW again, finds no change since the
    previous poll and a last change long past, and accepts a press, which
    restarts the game. *)
Lemma chattering_button_is_accepted :
  oscillates chatterer (sel 0 buttonPins 0) /\
  reachable chatterer chatterLost /\
  gameOver chatterLost = true /\
  currentButtonState chatterLost = [HIGH; HIGH; HIGH; HIGH] /\
  (exists s', readButton chatterer 0 chatterLost = Ret true s' []) /\
  (exists s', stateOf (loop chatterer chatterLost) = Some s' /\
              gameOver s' = false).
Proof.
  split; [exact chatterer_oscillates|]. split.
  - apply (reach_loop chatterer chatterSetup).
    + apply reach_setup. vm_compute. reflexivity.
    + vm_compute. reflexivity.
  - split; [reflexivity|]. split; [reflexivity|]. split.
    + eexists. vm_compute. reflexivity.
    + eexists. split; vm_compute; reflexivity.
Qed.

(** ** What the cells beyond the current sequence can do *)

Lemma blind_ret {A} (a : A) : blind (ret a).
Proof. intros g s. reflexivity. Qed.

Lemma blind_gets {A} (f : State -> A) :
  (forall g s, f (set_gameSequence g s) = f s) -> blind (gets f).
Proof. intros Hf g s. unfold gets. cbn. now rewrite Hf. Qed.

Lemma blind_modify f :
  (forall g s, f (set_gameSequence g s) = set_gameSequence g (f s)) ->
  blind (modify f).
Proof. intros Hf g s. unfold modify. cbn. now rewrite Hf. Qed.

Lemma blind_emit ev : blind (emit ev).
Proof. intros g s. reflexivity. Qed.

Lemma blind_fail {A} : blind (@outOfBounds A) /\ blind (@diverge A).
Proof. split; intros g s; reflexivity. Qed.

Lemma blind_index {A} (l : list A) i : blind (index l i).
Proof. intros g s. unfold index. destruct (at_ l i); reflexivity. Qed.

Lemma blind_bind {A B} (m : M A) (k : A -> M B) :
  blind m -> (forall a, blind (k a)) -> blind (bind m k).
Proof.
  intros Hm Hk g s. unfold bind. rewrite Hm.
  destruct (m s) as [a s1 o1| |]; cbn [mapState]; try reflexivity.
  rewrite Hk. destruct (k a s1); reflexivity.
Qed.

Lemma blind_forN n i body : (forall j, blind (body j)) -> blind (forN n i body).
Proof.
  intros Hb. revert i. induction n as [|n IH]; intros i; simpl.
  - apply blind_ret.
  - apply blind_bind; [apply Hb | intros _; apply IH].
Qed.

Create HintDb blind.

Ltac blind_step :=
  lazymatch goal with
  | |- blind (bind _ _) => apply blind_bind; [| intros ?]
  | |- blind (ret _) => apply blind_ret
  | |- blind (gets _) => apply blind_gets; intros ? ?; reflexivity
  | |- blind (modify _) => apply blind_modify; intros ? ?; reflexivity
  | |- blind (emit _) => apply blind_emit
  | |- blind (index _ _) => apply blind_index
  | |- blind outOfBounds => apply blind_fail
  | |- blind diverge => apply blind_fail
  | |- blind (forN _ _ _) => apply blind_forN; intros ?
  | |- blind (if ?c then _ else _) => destruct c
  | |- blind (match ?x with _ => _ end) => destruct x
  | |- blind _ => solve [auto with blind]
  end.

Ltac blind_tac := repeat blind_step.

Lemma readButton_blind e b : blind (readButton e b).
Proof. unfold readButton. unfold_io. blind_tac. Qed.

Lemma pressFeedback_blind b : blind (pressFeedback b).
Proof. unfold pressFeedback. unfold_io. blind_tac. Qed.

#[local] Hint Resolve readButton_blind pressFeedback_blind : blind.

Lemma scanButtons_blind e n b : blind (scanButtons e n b).
Proof. revert b. induction n as [|n IH]; intros b; simpl; blind_tac. Qed.

#[local] Hint Resolve scanButtons_blind : blind.

Lemma waitLoop_blind e fuel start : blind (waitLoop e fuel start).
Proof. induction fuel as [|fuel IH]; simpl; unfold_io; blind_tac. Qed.

#[local] Hint Resolve waitLoop_blind : blind.

Lemma awaitPress_blind e : blind (awaitPress e).
Proof. unfold awaitPress. unfold_io. blind_tac. Qed.

Lemma checkFrom_blind e n i : blind (checkFrom e n i).
Proof. revert i. induction n as [|n IH]; intros i; simpl; blind_tac. Qed.

Lemma levelUp_blind : blind levelUp.
Proof. unfold levelUp. unfold_io. blind_tac. Qed.

Lemma handleGameOver_blind : blind handleGameOver.
Proof.
  unfold handleGameOver, errorSequence, displayScore, ledsAll, EEPROM_write.
  unfold_io. blind_tac.
Qed.

Lemma resetGame_blind : blind resetGame.
Proof. unfold resetGame, startupSequence, ledsAll. unfold_io. blind_tac. Qed.

Lemma idle_blind e : blind (idle e).
Proof. unfold_io. blind_tac. Qed.

Lemma showStep_blind i x : blind (showStep i x).
Proof. unfold showStep. unfold_io. blind_tac. Qed.

Lemma agreeUpTo_sameGame s s' g : sameGame s s' -> agreeUpTo s g -> agreeUpTo s' g.
Proof. intros (Hseq & Hl & _) H j Hj. rewrite Hseq. apply H. lia. Qed.

Lemma displayStep_agree i s g :
  at_ g i = at_ (gameSequence s) i ->
  displayStep i (set_gameSequence g s)
  = mapState (set_gameSequence g) (displayStep i s).
Proof.
  intros H. unfold displayStep, bind, gets, index.
  change (gameSequence (set_gameSequence g s)) with g. rewrite H.
  destruct (at_ (gameSequence s) i) as [x|]; [|reflexivity].
  cbn [ret]. rewrite showStep_blind. destruct (showStep i x s); reflexivity.
Qed.

Lemma displayFrom_agree fuel : forall i s g,
  agreeUpTo s g ->
  displayFrom fuel i (set_gameSequence g s)
  = mapState (set_gameSequence g) (displayFrom fuel i s).
Proof.
  induction fuel as [|fuel IH]; intros i s g H; [reflexivity|].
  cbn [displayFrom]. unfold bind, gets.
  change (currentLevel (set_gameSequence g s)) with (currentLevel s).
  destruct (i <=? currentLevel s) eqn:E; [|reflexivity].
  rewrite displayStep_agree by (apply H; lia).
  destruct (displayStep i s) as [[] s1 o1| |] eqn:Hd; cbn [mapState];
    try reflexivity.
  apply displayStep_sameGame in Hd.
  rewrite IH by (eapply agreeUpTo_sameGame; eauto).
  destruct (displayFrom fuel (byte (i + 1)) s1); reflexivity.
Qed.

Lemma displaySequence_agree s g :
  agreeUpTo s g ->
  displaySequence (set_gameSequence g s)
  = mapState (set_gameSequence g) (displaySequence s).
Proof.
  intros H. unfold displaySequence, bind, println, emit.
  rewrite (displayFrom_agree 257 0 s g H).
  destruct (displayFrom 257 0 s); reflexivity.
Qed.

Lemma readSteps_agree e fuel : forall i s g,
  agreeUpTo s g ->
  readSteps e fuel i (set_gameSequence g s)
  = mapState (set_gameSequence g) (readSteps e fuel i s).
Proof.
  induction fuel as [|fuel IH]; intros i s g H; [reflexivity|].
  cbn [readSteps]. unfold bind, gets.
  change (currentLevel (set_gameSequence g s)) with (currentLevel s).
  destruct (i <=? currentLevel s) eqn:E; [|reflexivity].
  rewrite awaitPress_blind.
  destruct (awaitPress e s) as [r s1 o1| |] eqn:Hw; cbn [mapState];
    try reflexivity.
  apply awaitPress_sameGame in Hw.
  pose proof (agreeUpTo_sameGame _ _ _ Hw H) as H1.
  destruct r as [b|]; [|reflexivity].
  unfold index.
  change (gameSequence (set_gameSequence g s1)) with g.
  destruct Hw as (Hseq & Hl & _).
  rewrite (H1 i) by lia.
  destruct (at_ (gameSequence s1) i) as [x|]; [|reflexivity].
  cbn [ret]. destruct (negb (b =? x)); [reflexivity|].
  rewrite IH by exact H1.
  destruct (readSteps e fuel (byte (i + 1)) s1); reflexivity.
Qed.

Lemma readPlayerSequence_agree e s g :
  agreeUpTo s g ->
  readPlayerSequence e (set_gameSequence g s)
  = mapState (set_gameSequence g) (readPlayerSequence e s).
Proof.
  intros H. unfold readPlayerSequence, bind, println, emit.
  rewrite (readSteps_agree e 257 0 s g H).
  destruct (readSteps e 257 0 s); reflexivity.
Qed.

Lemma loop_idle_blind e s g :
  gameOver s = true ->
  loop e (set_gameSequence g s) = mapState (set_gameSequence g) (loop e s).
Proof.
  intros Hg. unfold loop, bind, gets.
  change (gameOver (set_gameSequence g s)) with (gameOver s). rewrite Hg.
  cbn [negb]. unfold checkAnyButton. rewrite checkFrom_blind.
  destruct (checkFrom e 4 0 s) as [p s1 o1| |]; cbn [mapState]; try reflexivity.
  destruct p.
  - rewrite resetGame_blind. destruct (resetGame s1); reflexivity.
  - rewrite idle_blind. destruct (idle e s1); reflexivity.
Qed.

Lemma at_upd_eq (g l : list Z) i v :
  length g = length l -> at_ (upd g i v) i = at_ (upd l i v) i.
Proof.
  intros Hlen. unfold at_, upd. destruct (i <? 0); [reflexivity|].
  destruct (Nat.lt_ge_cases (Z.to_nat i) (length l)) as [Hlt|Hge].
  - rewrite !list_lookup_insert_eq by lia. reflexivity.
  - rewrite !list_insert_ge by lia.
    rewrite !(proj2 (lookup_ge_None _ _)) by lia. reflexivity.
Qed.

Lemma addNewStep_agree e s g :
  length g = length (gameSequence s) ->
  addNewStep e (set_gameSequence g s)
  = mapState (set_gameSequence (addedTo e s g)) (addNewStep e s) /\
  forall s1 o1, addNewStep e s = Ret tt s1 o1 ->
    currentLevel s1 = currentLevel s /\ gameOver s1 = gameOver s /\
    gameSequence s1 = addedTo e s (gameSequence s).
Proof.
  intros Hlen.
  unfold addNewStep, addedTo, bind, gets, random, modify, print, printlnNum, emit.
  change (currentLevel (set_gameSequence g s)) with (currentLevel s).
  destruct (currentLevel s <? MAX_LEVEL) eqn:E.
  - cbn [set_gameSequence set_draws gameSequence draws]. unfold index.
    fold (nextSymbol e s).
    rewrite (at_upd_eq g (gameSequence s)) by exact Hlen.
    destruct (at_ (upd (gameSequence s) (currentLevel s) (nextSymbol e s))
                (currentLevel s)); cbn; split; try reflexivity;
      intros s1 o1 H; inversion H; subst; cbn; auto.
  - split; [reflexivity|]. intros s1 o1 H. inversion H; subst. auto.
Qed.

Lemma addedTo_length e s g : length (addedTo e s g) = length g.
Proof.
  unfold addedTo, upd. destruct (currentLevel s <? MAX_LEVEL);
    [apply length_insert | reflexivity].
Qed.

Lemma addedTo_agree e s g j :
  length g = 100%nat -> length (gameSequence s) = 100%nat ->
  (forall i, i < currentLevel s -> at_ g i = at_ (gameSequence s) i) ->
  j <= currentLevel s ->
  at_ (addedTo e s g) j = at_ (addedTo e s (gameSequence s)) j.
Proof.
  intros Hg Hs H Hj. unfold addedTo.
  destruct (currentLevel s <? MAX_LEVEL) eqn:E.
  - destruct (Z.eq_dec j (currentLevel s)) as [->|Hne].
    + apply at_upd_eq. congruence.
    + destruct (Z.lt_ge_cases j 0) as [Hneg|Hpos];
        [unfold at_; destruct (j <? 0) eqn:E'; [reflexivity | lia]|].
      rewrite !at_upd_other by lia. apply H. lia.
  - destruct (Z.eq_dec j (currentLevel s)) as [->|Hne].
    + unfold MAX_LEVEL in E. rewrite !at_None_ge by lia. reflexivity.
    + apply H. lia.
Qed.

Lemma loop_playing_agree e s g :
  gameOver s = false ->
  length g = 100%nat -> length (gameSequence s) = 100%nat ->
  (forall i, i < currentLevel s -> at_ g i = at_ (gameSequence s) i) ->
  loop e (set_gameSequence g s)
  = mapState (set_gameSequence (addedTo e s g)) (loop e s).
Proof.
  intros Hg Hlg Hls H. unfold loop, bind, gets.
  change (gameOver (set_gameSequence g s)) with (gameOver s). rewrite Hg.
  cbn [negb].
  destruct (addNewStep_agree e s g ltac:(congruence)) as [Ha Hs1]. rewrite Ha.
  destruct (addNewStep e s) as [[] s1 o1| |] eqn:H1; cbn [mapState];
    try reflexivity.
  destruct (Hs1 s1 o1 eq_refl) as (L1 & G1 & Q1).
  assert (A1 : agreeUpTo s1 (addedTo e s g)).
  { intros j Hj. rewrite Q1. apply addedTo_agree; auto. lia. }
  rewrite displaySequence_agree by exact A1.
  destruct (displaySequence s1) as [[] s2 o2| |] eqn:H2; cbn [mapState];
    try reflexivity.
  apply displaySequence_sameGame in H2.
  pose proof (agreeUpTo_sameGame _ _ _ H2 A1) as A2.
  rewrite readPlayerSequence_agree by exact A2.
  destruct (readPlayerSequence e s2) as [ok s3 o3| |] eqn:H3; cbn [mapState];
    try reflexivity.
  destruct ok; cbn [negb].
  - rewrite levelUp_blind. destruct (levelUp s3); reflexivity.
  - rewrite handleGameOver_blind. destruct (handleGameOver s3); reflexivity.
Qed.

Lemma at_negative {A} (l : list A) j : j < 0 -> at_ l j = None.
Proof. intros H. unfold at_. destruct (j <? 0) eqn:E; [reflexivity | lia]. Qed.

Lemma byte_le x : 0 <= x -> 0 <= byte x <= x.
Proof.
  intros H. unfold byte. split; [apply Z.mod_pos_bound; lia|].
  apply Z.mod_le; lia.
Qed.

(** One call of [loop] cannot tell two states that are alike apart. *)
Lemma loop_alike e s t : alike s t -> related (loop e s) (loop e t).
Proof.
  intros (Ht & Ls & Lt & H0 & Hc). rewrite Ht.
  destruct (gameOver s) eqn:Hg.
  - rewrite loop_idle_blind by exact Hg.
    destruct (loop e s) as [[] s' o| |] eqn:Hl; cbn; auto.
    split; [reflexivity|]. split; [reflexivity|].
    assert (Hs : stateOf (loop e s) = Some s') by now rewrite Hl.
    destruct (loop_idle_inv e s s' Hg Hs) as (p & s1 & o1 & H1 & ->).
    apply checkAnyButton_sameGame in H1. destruct H1 as (Q1 & L1 & _).
    destruct p; repeat split; cbn; rewrite ?Q1, ?L1; auto; try lia.
    intros j Hj. now rewrite !at_negative.
  - rewrite loop_playing_agree by assumption.
    destruct (loop e s) as [[] s' o| |] eqn:Hl; cbn; auto.
    split; [reflexivity|]. split; [reflexivity|].
    assert (Hs : stateOf (loop e s) = Some s') by now rewrite Hl.
    destruct (loop_playing_inv e s s' Hg Hs)
      as (s1 & o1 & s2 & o2 & ok & s3 & o3 & H1 & H2 & H3 & ->).
    destruct (addNewStep_agree e s (gameSequence s) eq_refl) as [_ Hs1].
    destruct (Hs1 s1 o1 H1) as (L1 & _ & Q1).
    apply displaySequence_sameGame in H2. destruct H2 as (Q2 & L2 & _).
    apply readPlayerSequence_sameGame in H3. destruct H3 as (Q3 & L3 & _).
    assert (Q : gameSequence s3 = addedTo e s (gameSequence s)) by congruence.
    assert (L : currentLevel s3 = currentLevel s) by congruence.
    assert (Hcell : forall j, j <= currentLevel s ->
              at_ (addedTo e s (gameSequence t)) j = at_ (gameSequence s3) j).
    { intros j Hj. rewrite Q. now apply addedTo_agree. }
    assert (Lg : length (addedTo e s (gameSequence t)) = 100%nat)
      by now rewrite addedTo_length.
    assert (Lq : length (gameSequence s3) = 100%nat)
      by now rewrite Q, addedTo_length.
    destruct ok.
    + split; [reflexivity|]. split; [exact Lq|]. split; [exact Lg|].
      cbn [gameSequence currentLevel levelUpState set_clock set_currentSpeed
           set_currentLevel set_gameSequence].
      pose proof (byte_le (currentLevel s3 + 1) ltac:(lia)) as Hb.
      split; [lia|]. intros j Hj. apply Hcell. lia.
    + destruct (gameOverState_fields s3) as (_ & L' & _ & Q' & _).
      split; [|split; [|split; [|split]]].
      * unfold gameOverState, recordScore.
        destruct (highScore (set_gameOver true s3) <? currentLevel (set_gameOver true s3));
          reflexivity.
      * now rewrite Q'.
      * exact Lg.
      * rewrite L'. lia.
      * intros j Hj. rewrite L' in Hj. rewrite Q'. apply Hcell. lia.
Qed.

Lemma run_alike e n : forall s t, alike s t -> related (run e n s) (run e n t).
Proof.
  induction n as [|n IH]; intros s t Ha.
  - cbn. auto.
  - cbn [run]. unfold bind. pose proof (loop_alike e s t Ha) as Hl.
    destruct (loop e s) as [[] s1 o1| |], (loop e t) as [[] t1 p1| |];
      cbn in Hl; try contradiction; try exact I.
    destruct Hl as (_ & -> & Ha1). pose proof (IH s1 t1 Ha1) as Hr.
    destruct (run e n s1) as [[] s2 o2| |], (run e n t1) as [[] t2 p2| |];
      cbn in Hr; try contradiction; try exact I.
    destruct Hr as (_ & -> & Ha2). cbn. auto.
Qed.

(** ** The claim about leftover cells *)

(** C10: [resetGame] leaves the cells of the sequence array as they are,
    and what they hold cannot be observed.  Take a state at the start of a
    game and put any other array of MAX_LEVEL cells in its place: any
    number of calls of [loop], on the same board, end in the same way (both
    return, or both read out of bounds, or both hang), and when they return
    they have sent the same output (presentations, feedback, messages and
    EEPROM writes) and are in states that differ at most in cells that the
    game under way has not filled. *)
Theorem leftover_cells_unobservable e s g n :
  currentLevel s = 0 ->
  length (gameSequence s) = 100%nat -> length g = 100%nat ->
  (forall p, exists o, resetGame p = Ret tt (resetState p) o /\
                       gameSequence (resetState p) = gameSequence p) /\
  related (run e n s) (run e n (set_gameSequence g s)) /\
  (forall s' o t' o',
     run e n s = Ret tt s' o -> run e n (set_gameSequence g s) = Ret tt t' o' ->
     o = o' /\ writes o = writes o' /\
     t' = set_gameSequence (gameSequence t') s' /\
     forall j, j < currentLevel s' ->
               at_ (gameSequence t') j = at_ (gameSequence s') j).
Proof.
  intros Hl Hs Hg.
  assert (Ha : alike s (set_gameSequence g s)).
  { split; [reflexivity|]. split; [exact Hs|]. split; [exact Hg|].
    split; [lia|]. intros j Hj. rewrite !at_negative by lia. reflexivity. }
  pose proof (run_alike e n _ _ Ha) as Hr.
  split; [|split; [exact Hr|]].
  - intros p. eexists. split; [apply resetGame_spec | reflexivity].
  - intros s' o t' o' H1 H2. rewrite H1, H2 in Hr.
    destruct Hr as (_ & -> & Ht & _ & _ & _ & Hc). auto.
Qed.

Lemma leftover_cells_unobservable_witness :
  gameSequence lateRestarted = 2 :: replicate 99 0 /\
  related (run lateComer 3 lateRestarted)
    (run lateComer 3 (set_gameSequence (replicate 100 3) lateRestarted)).
Proof.
  split; [reflexivity|].
  destruct (leftover_cells_unobservable lateComer lateRestarted
              (replicate 100 3) 3) as (_ & H & _);
    [reflexivity | reflexivity | reflexivity | exact H].
Defined.

(** * The sketch as built: reads past the end of an array *)


Lemma refines_refl {A} (m : M A) : refines m m.
Proof. intros s a s' o H. exact H. Qed.

Lemma refines_bind {A B} (m m' : M A) (k k' : A -> M B) :
  refines m m' -> (forall a, refines (k a) (k' a)) ->
  refines (bind m k) (bind m' k').
Proof.
  intros Hm Hk s b s2 o H.
  destruct (bind_inv _ _ _ _ _ _ H) as (a & s1 & o1 & o2 & H1 & H2 & ->).
  unfold bind. rewrite (Hm _ _ _ _ H1), (Hk _ _ _ _ _ H2). reflexivity.
Qed.

(** Where the checked read returns, an unchecked read returns the same. *)
Lemma refines_index rd l i : unchecked rd -> refines (index l i) (rd l i).
Proof.
  intros Hrd s a s' o H. unfold index in H.
  destruct (at_ l i) as [x|] eqn:Hx; [|discriminate H].
  inversion H; subst. destruct (Hrd l i s') as (y & Hy & Hin).
  now rewrite Hy, (Hin a Hx).
Qed.

Create HintDb refines.

Ltac refines_step :=
  lazymatch goal with
  | |- refines (bind _ _) (bind _ _) => apply refines_bind; [| intros ?]
  | |- refines (index _ _) _ => apply refines_index; assumption
  | |- refines (if ?c then _ else _) _ => destruct c
  | |- refines (match ?x with _ => _ end) _ => destruct x
  | |- refines ?m ?m' =>
      first [constr_eq m m'; apply refines_refl | solve [auto with refines]]
  end.

Ltac refines_tac := repeat refines_step.

Lemma displayFrom_refines rd fuel :
  unchecked rd -> forall i, refines (displayFrom fuel i) (displayFromWith rd fuel i).
Proof.
  intros Hrd. induction fuel as [|fuel IH]; intros i;
    cbn [displayFrom displayFromWith]; [apply refines_refl|].
  unfold displayStep, displayStepWith, showStep, showStepWith. refines_tac.
Qed.

Lemma readSteps_refines rd e fuel :
  unchecked rd -> forall i, refines (readSteps e fuel i) (readStepsWith rd e fuel i).
Proof.
  intros Hrd. induction fuel as [|fuel IH]; intros i;
    cbn [readSteps readStepsWith]; [apply refines_refl|].
  refines_tac.
Qed.

#[local] Hint Resolve displayFrom_refines readSteps_refines : refines.








(** * Further properties of the sketch *)

(** ** The game loop as a whole *)



(** ** The high score over many games *)

Lemma fold_max_shift a x l :
  fold_right Z.max (Z.max a x) l = Z.max x (fold_right Z.max a l).
Proof. induction l as [|y l IH]; cbn; [lia | rewrite IH; lia]. Qed.

(** What one call of [loop] does to the high score. *)
Lemma loop_high_score e s s' :
  wf s -> stateOf (loop e s) = Some s' ->
  highScore s' =
  if negb (gameOver s) && gameOver s'
  then Z.max (highScore s) (currentLevel s') else highScore s.
Proof.
  intros Hwf H. destruct (gameOver s) eqn:Hg; cbn [negb andb].
  - destruct (loop_idle_inv e s s' Hg H) as (p & s1 & o1 & H1 & ->).
    apply checkAnyButton_sameGame in H1. destruct H1 as (_ & _ & Hh & _).
    destruct p; cbn; exact Hh.
  - destruct (loop_playing_inv e s s' Hg H)
      as (s1 & o1 & s2 & o2 & ok & s3 & o3 & H1 & H2 & H3 & ->).
    destruct (round_fields _ _ _ _ _ _ _ _ _ H1 H2 H3)
      as (Hl & Hh & _ & _ & Hg3).
    destruct ok.
    + cbn. rewrite Hg3, Hg. exact Hh.
    + destruct (gameOverState_fields s3) as (-> & -> & _ & _ & ->).
      now rewrite Hh.
Qed.

(** X2: over any number of calls of [loop], the high score in memory is
    the greatest of the high score before and the levels at which games
    ended in between, and the EEPROM cell holds the same value. *)
Theorem high_score_is_best_level e n : forall s s',
  reachable e s -> loops e n s = Some s' ->
  highScore s' = fold_right Z.max (highScore s) (finishedLevels e n s) /\
  eeprom s' = highScore s'.
Proof.
  induction n as [|n IH]; intros s s' Hr H; cbn [loops finishedLevels] in *.
  - injection H as <-. split; [reflexivity|].
    symmetry. apply (reachable_wf e s Hr).
  - destruct (stateOf (loop e s)) as [s1|] eqn:Hl; [|discriminate].
    pose proof (reach_loop e s s1 Hr Hl) as Hr1.
    destruct (IH s1 s' Hr1 H) as [IH1 IH2]. split; [|exact IH2].
    rewrite IH1, (loop_high_score e s s1 (reachable_wf e s Hr) Hl).
    destruct (negb (gameOver s) && gameOver s1); cbn [app fold_right].
    + apply fold_max_shift.
    + reflexivity.
Qed.

Lemma high_score_is_best_level_witness :
  finishedLevels quitter 8 quitterSetup = [5] /\
  exists s', loops quitter 8 quitterSetup = Some s' /\ highScore s' = 5.
Proof.
  split; [vm_compute; reflexivity|].
  destruct (loops quitter 8 quitterSetup) as [s'|] eqn:H;
    [|vm_compute in H; discriminate H].
  exists s'. split; [reflexivity|].
  destruct (high_score_is_best_level quitter 8 quitterSetup s') as [Hh _].
  - apply reach_setup. vm_compute. reflexivity.
  - exact H.
  - rewrite Hh. vm_compute. reflexivity.
Defined.

(** ** The sequence of a game *)




(** ** The LEDs and the buzzer *)

Lemma boardRun_app h o1 o2 : boardRun h (o1 ++ o2) = boardRun (boardRun h o1) o2.
Proof. unfold boardRun. apply fold_left_app. Qed.

Lemma quiet_inv h : quiet h -> h = mkBoard [] Silent.
Proof. destruct h as [l b]. intros [Hl Hb]. cbn in *. now subst. Qed.

Lemma quiet_off : quiet (mkBoard [] Silent).
Proof. split; reflexivity. Qed.

Lemma restores_ret {A} (a : A) : restores (ret a).
Proof. intros s a' s' o h H Hq. inversion H; subst. exact Hq. Qed.

Lemma restores_gets {A} (f : State -> A) : restores (gets f).
Proof. intros s a' s' o h H Hq. inversion H; subst. exact Hq. Qed.

Lemma restores_modify f : restores (modify f).
Proof. intros s a' s' o h H Hq. inversion H; subst. exact Hq. Qed.

Lemma restores_random e howbig : restores (random e howbig).
Proof. intros s a' s' o h H Hq. inversion H; subst. exact Hq. Qed.

Lemma restores_outOfBounds {A} : restores (@outOfBounds A).
Proof. intros s a s' o h; discriminate. Qed.

Lemma restores_diverge {A} : restores (@diverge A).
Proof. intros s a s' o h; discriminate. Qed.

Lemma restores_index {A} (l : list A) i : restores (index l i).
Proof.
  unfold index. destruct (at_ l i); [apply restores_ret | apply restores_outOfBounds].
Qed.

Lemma restores_emit ev : harmless ev = true -> restores (emit ev).
Proof.
  intros Hev s a' s' o h H Hq. inversion H; subst.
  rewrite (quiet_inv h Hq).
  destruct ev as [| |? []| | | | | | | | |]; try discriminate Hev;
    split; reflexivity.
Qed.

Lemma restores_bind {A B} (m : M A) (k : A -> M B) :
  restores m -> (forall a, restores (k a)) -> restores (bind m k).
Proof.
  intros Hm Hk s b s2 o h H Hq.
  destruct (bind_inv _ _ _ _ _ _ H) as (a & s1 & o1 & o2 & H1 & H2 & ->).
  rewrite boardRun_app. eapply Hk; [exact H2|]. eapply Hm; eassumption.
Qed.

Lemma restores_forN n i body :
  (forall j, restores (body j)) -> restores (forN n i body).
Proof.
  intros Hb. revert i. induction n as [|n IH]; intros i; simpl.
  - apply restores_ret.
  - apply restores_bind; [apply Hb | intros _; apply IH].
Qed.

Create HintDb restores.

Ltac restores_step :=
  lazymatch goal with
  | |- restores (bind _ _) => apply restores_bind; [| intros ?]
  | |- restores (ret _) => apply restores_ret
  | |- restores (gets _) => apply restores_gets
  | |- restores (modify _) => apply restores_modify
  | |- restores (emit _) => apply restores_emit; reflexivity
  | |- restores (index _ _) => apply restores_index
  | |- restores (random _ _) => apply restores_random
  | |- restores outOfBounds => apply restores_outOfBounds
  | |- restores diverge => apply restores_diverge
  | |- restores (forN _ _ _) => apply restores_forN; intros ?
  | |- restores (if ?c then _ else _) => destruct c
  | |- restores (match ?x with _ => _ end) => destruct x
  | |- restores _ => solve [auto with restores]
  end.

Ltac restores_tac := repeat restores_step.

(** The board after an LED was lit and a tone started, then both ended. *)
Ltac board_off :=
  cbn [boardRun fold_left boardStep lit buzzer List.filter negb];
  rewrite ?Z.eqb_refl;
  cbn [boardRun fold_left boardStep lit buzzer List.filter negb];
  split; reflexivity.

Lemma showStep_restores i x : restores (showStep i x).
Proof.
  intros s a s' o h H Hq. rewrite (quiet_inv h Hq).
  unfold showStep, index, bind in H.
  destruct (at_ ledPins x) as [led|]; [|discriminate H].
  cbn [ret digitalWrite emit] in H.
  destruct (at_ tones x) as [freq|]; [|discriminate H].
  cbv [ret tone print printNum printlnNum emit gets delay bind advance modify
       digitalWrite noTone app] in H.
  inversion H; subst. board_off.
Qed.

Lemma pressFeedback_restores b : restores (pressFeedback b).
Proof.
  intros s a s' o h H Hq. rewrite (quiet_inv h Hq).
  rewrite pressFeedback_spec in H. inversion H; subst.
  unfold feedbackOutput. board_off.
Qed.

Lemma startupSequence_restores : restores startupSequence.
Proof.
  intros s a s' o h H Hq. rewrite (quiet_inv h Hq).
  rewrite startupSequence_spec in H. inversion H; subst.
  vm_compute. split; reflexivity.
Qed.

Lemma errorSequence_restores : restores errorSequence.
Proof.
  intros s a s' o h H Hq. rewrite (quiet_inv h Hq).
  rewrite errorSequence_spec in H. inversion H; subst.
  vm_compute. split; reflexivity.
Qed.

Lemma scorePulses_off n :
  boardRun (mkBoard [] Silent) (concat (replicate n scorePulse)) =
  mkBoard [] Silent.
Proof.
  induction n as [|n IH]; [reflexivity|].
  cbn [replicate concat]. rewrite boardRun_app.
  replace (boardRun (mkBoard [] Silent) scorePulse) with (mkBoard [] Silent)
    by (vm_compute; reflexivity).
  exact IH.
Qed.

Lemma displayScore_restores : restores displayScore.
Proof.
  intros s a s' o h H Hq. rewrite (quiet_inv h Hq).
  rewrite displayScore_spec in H. inversion H; subst.
  unfold boardRun.
  cbn [fold_left boardStep lit buzzer].
  fold (boardRun (mkBoard [] Silent)
          (concat (replicate (Z.to_nat (currentLevel s)) scorePulse))).
  rewrite scorePulses_off. apply quiet_off.
Qed.

Lemma readButton_restores e b : restores (readButton e b).
Proof.
  intros s a s' o h H Hq. rewrite readButton_spec in H.
  inversion H; subst. exact Hq.
Qed.

#[local] Hint Resolve showStep_restores pressFeedback_restores
  startupSequence_restores errorSequence_restores displayScore_restores
  readButton_restores : restores.

Lemma setup_restores : restores setup.
Proof. unfold setup, EEPROM_read. unfold_io. restores_tac. Qed.

Lemma addNewStep_restores e : restores (addNewStep e).
Proof. unfold addNewStep. unfold_io. restores_tac. Qed.

Lemma displayFrom_restores fuel : forall i, restores (displayFrom fuel i).
Proof.
  induction fuel as [|fuel IH]; intros i; cbn [displayFrom].
  - apply restores_diverge.
  - unfold displayStep. restores_tac.
Qed.

Lemma displaySequence_restores : restores displaySequence.
Proof.
  unfold displaySequence. unfold_io. restores_tac; apply displayFrom_restores.
Qed.

Lemma scanButtons_restores e n : forall b, restores (scanButtons e n b).
Proof.
  induction n as [|n IH]; intros b; cbn [scanButtons]; restores_tac.
Qed.

Lemma waitLoop_restores e fuel t0 : restores (waitLoop e fuel t0).
Proof.
  induction fuel as [|fuel IH]; cbn [waitLoop].
  - apply restores_diverge.
  - unfold_io. restores_tac; apply scanButtons_restores.
Qed.

Lemma readSteps_restores e fuel : forall i, restores (readSteps e fuel i).
Proof.
  induction fuel as [|fuel IH]; intros i; cbn [readSteps].
  - apply restores_diverge.
  - unfold awaitPress. unfold_io. restores_tac; apply waitLoop_restores.
Qed.

Lemma readPlayerSequence_restores e : restores (readPlayerSequence e).
Proof.
  unfold readPlayerSequence. unfold_io. restores_tac; apply readSteps_restores.
Qed.

Lemma handleGameOver_restores : restores handleGameOver.
Proof. unfold handleGameOver, EEPROM_write. unfold_io. restores_tac. Qed.

Lemma levelUp_restores : restores levelUp.
Proof. unfold levelUp. unfold_io. restores_tac. Qed.

Lemma resetGame_restores : restores resetGame.
Proof. unfold resetGame. unfold_io. restores_tac. Qed.

Lemma checkFrom_restores e n : forall i, restores (checkFrom e n i).
Proof.
  induction n as [|n IH]; intros i; cbn [checkFrom]; restores_tac.
Qed.

#[local] Hint Resolve addNewStep_restores displaySequence_restores
  readPlayerSequence_restores handleGameOver_restores levelUp_restores
  resetGame_restores : restores.

Lemma loop_restores e : restores (loop e).
Proof.
  unfold loop, checkAnyButton. unfold_io. restores_tac; apply checkFrom_restores.
Qed.

Lemma run_restores e n : restores (run e n).
Proof.
  induction n as [|n IH]; cbn [run].
  - apply restores_ret.
  - apply restores_bind; [apply loop_restores | intros _; exact IH].
Qed.

(** X4: whenever [setup] or a call of [loop] returns, every LED it lit is
    put out again and every tone it started has ended: the sketch leaves the
    board as dark and silent as it found it, also after any number of calls
    of [loop], whatever the player and the generator do. *)
Theorem board_quiet_between_calls e n s s' o o' h :
  quiet h ->
  setup (powerUp e) = Ret tt s o -> run e n s = Ret tt s' o' ->
  quiet (boardRun h o) /\ quiet (boardRun h (o ++ o')).
Proof.
  intros Hq Hs Hr.
  pose proof (setup_restores _ _ _ _ _ Hs Hq) as Q1.
  split; [exact Q1|]. rewrite boardRun_app.
  exact (run_restores e n _ _ _ _ _ Hr Q1).
Qed.

Lemma board_quiet_between_calls_witness :
  quiet (boardRun (mkBoard [] Silent)
           (outputOf (setup (powerUp redPlayer))
            ++ outputOf (run redPlayer 2 afterSetup))).
Proof.
  destruct (setup (powerUp redPlayer)) as [[] s o| |] eqn:Hs;
    [|vm_compute in Hs; discriminate Hs|vm_compute in Hs; discriminate Hs].
  assert (Hst : s = afterSetup).
  { assert (H : stateOf (setup (powerUp redPlayer)) = Some s)
      by (rewrite Hs; reflexivity).
    vm_compute in H. injection H as <-. reflexivity. }
  subst s.
  destruct (run redPlayer 2 afterSetup) as [[] s' o'| |] eqn:Hr;
    [|vm_compute in Hr; discriminate Hr|vm_compute in Hr; discriminate Hr].
  cbn [outputOf].
  destruct (board_quiet_between_calls redPlayer 2 afterSetup s' o o'
              (mkBoard [] Silent) quiet_off Hs Hr) as [_ H].
  exact H.
Defined.

(** ** One pass over the buttons *)

Lemma sameSizes_refl s : sameSizes s s.
Proof. unfold sameSizes; tauto. Qed.

Lemma sameSizes_trans s1 s2 s3 : sameSizes s1 s2 -> sameSizes s2 s3 -> sameSizes s1 s3.
Proof. unfold sameSizes; intuition congruence. Qed.

Ltac keeps_sizes_step :=
  lazymatch goal with
  | |- keeps _ (modify _) =>
      apply keeps_modify; intros ?; unfold sameSizes, upd; cbn;
      rewrite ?length_insert; repeat split
  | |- _ => keeps_step sameSizes sameSizes_refl sameSizes_trans
  end.

Ltac keeps_sizes := repeat keeps_sizes_step.

Lemma random_sameSizes e howbig : keeps sameSizes (random e howbig).
Proof. intros s a s' o H. inversion H; subst. repeat split. Qed.

Lemma readButton_sameSizes e b : keeps sameSizes (readButton e b).
Proof. unfold readButton. unfold_io. keeps_sizes. Qed.

Lemma startupSequence_sameSizes : keeps sameSizes startupSequence.
Proof. unfold startupSequence, ledsAll. unfold_io. keeps_sizes. Qed.

#[local] Hint Resolve random_sameSizes readButton_sameSizes
  startupSequence_sameSizes : keeps.

Lemma setup_sameSizes : keeps sameSizes setup.
Proof. unfold setup, EEPROM_read. unfold_io. keeps_sizes. Qed.

Lemma displayFrom_sameSizes fuel : forall i, keeps sameSizes (displayFrom fuel i).
Proof.
  induction fuel as [|fuel IH]; intros i; cbn [displayFrom];
    unfold displayStep, showStep; unfold_io; keeps_sizes.
Qed.

Lemma scanButtons_sameSizes e n : forall b, keeps sameSizes (scanButtons e n b).
Proof.
  induction n as [|n IH]; intros b; cbn [scanButtons]; unfold pressFeedback;
    unfold_io; keeps_sizes.
Qed.

#[local] Hint Resolve displayFrom_sameSizes scanButtons_sameSizes : keeps.

Lemma waitLoop_sameSizes e fuel t0 : keeps sameSizes (waitLoop e fuel t0).
Proof. induction fuel as [|fuel IH]; cbn [waitLoop]; unfold_io; keeps_sizes. Qed.

#[local] Hint Resolve waitLoop_sameSizes : keeps.

Lemma readSteps_sameSizes e fuel : forall i, keeps sameSizes (readSteps e fuel i).
Proof.
  induction fuel as [|fuel IH]; intros i; cbn [readSteps]; unfold awaitPress;
    unfold_io; keeps_sizes.
Qed.

Lemma checkFrom_sameSizes e n : forall i, keeps sameSizes (checkFrom e n i).
Proof. induction n as [|n IH]; intros i; cbn [checkFrom]; keeps_sizes. Qed.

#[local] Hint Resolve readSteps_sameSizes checkFrom_sameSizes : keeps.

Lemma loop_sameSizes e : keeps sameSizes (loop e).
Proof.
  unfold loop, addNewStep, displaySequence, readPlayerSequence, handleGameOver,
    errorSequence, displayScore, ledsAll, levelUp, resetGame, checkAnyButton,
    EEPROM_write.
  unfold_io. keeps_sizes.
Qed.

(** The debounce arrays have their four cells in every state the sketch
    reaches. *)
Lemma reachable_buttonsOk e s : reachable e s -> buttonsOk s.
Proof.
  induction 1 as [s H|s s' _ IH H].
  - destruct (stateOf_Some _ _ H) as (a & o & Hs).
    destruct (setup_sameSizes _ _ _ _ Hs) as (H1 & H2 & H3).
    unfold buttonsOk. rewrite H1, H2, H3. repeat split.
  - destruct (stateOf_Some _ _ H) as (a & o & Hs).
    destruct (loop_sameSizes e _ _ _ _ Hs) as (H1 & H2 & H3).
    destruct IH as (I1 & I2 & I3).
    unfold buttonsOk. rewrite H1, H2, H3. auto.
Qed.

Lemma channel_set_clock b t s : channel b (set_clock t s) = channel b s.
Proof. reflexivity. Qed.

Lemma reading_polled e b b' s : reading e b (polled e b' s) = reading e b s.
Proof. unfold reading. now rewrite polled_clock. Qed.

Lemma pressed_debounce e b s :
  0 <= b < 4 -> buttonsOk s ->
  pressed e b s = snd (debounce (channel b s) (reading e b s) (ulong (clock s))).
Proof. intros Hb Hok. now rewrite <- (polled_channel e b s Hb Hok). Qed.

Lemma polled_debounce e b s :
  0 <= b < 4 -> buttonsOk s ->
  channel b (polled e b s)
  = fst (debounce (channel b s) (reading e b s) (ulong (clock s))).
Proof. intros Hb Hok. now rewrite <- (polled_channel e b s Hb Hok). Qed.

(** The poll of one button does not change what the poll of another gives. *)
Lemma pressed_other e b b' s :
  0 <= b < 4 -> 0 <= b' < 4 -> b <> b' -> buttonsOk s ->
  pressed e b (polled e b' s) = pressed e b s.
Proof.
  intros Hb Hb' Hne Hok.
  rewrite !pressed_debounce by auto using polled_buttonsOk.
  now rewrite polled_other, reading_polled, polled_clock.
Qed.

Lemma polled_twice_other e b b' s :
  0 <= b < 4 -> 0 <= b' < 4 -> b <> b' -> buttonsOk s ->
  channel b (polled e b (polled e b' s)) = channel b (polled e b s).
Proof.
  intros Hb Hb' Hne Hok.
  rewrite !polled_debounce by auto using polled_buttonsOk.
  now rewrite polled_other, reading_polled, polled_clock.
Qed.

(** A pass that goes on after button [b] was polled without a press. *)
Lemma scanned_next e b r hi s s' :
  0 <= b -> b < hi <= 4 -> buttonsOk s -> pressed e b s = false ->
  scanned e (b + 1) r hi (polled e b s) s' ->
  scanned e b r hi s s'.
Proof.
  intros Hb Hhi Hok Hp (H1 & H2 & H3 & H4). cbv zeta in *.
  assert (Hstop : b + 1 <= match r with Some k => k | None => hi end <= hi).
  { destruct r as [k|]; [destruct H1; lia | lia]. }
  set (stop := match r with Some k => k | None => hi end) in *.
  split; [|split; [|split]].
  - destruct r as [k|]; [|exact I]. destruct H1 as [Hk Hpk].
    split; [lia|]. rewrite <- Hpk. symmetry. apply pressed_other; auto; lia.
  - intros j Hj. destruct (Z.eq_dec j b) as [->|Hne]; [exact Hp|].
    rewrite <- (pressed_other e j b s) by (auto; lia). apply H2. lia.
  - intros j Hj Hs. destruct (Z.eq_dec j b) as [->|Hne].
    + apply H4; lia.
    + rewrite H3 by lia. apply polled_twice_other; auto; lia.
  - intros j Hj Hout. rewrite H4 by lia. apply polled_other; lia.
Qed.

(** A pass that ends at button [b], whose poll is accepted as a press. *)
Lemma scanned_here e b hi s s' :
  0 <= b -> b < hi <= 4 -> pressed e b s = true ->
  (forall j, channel j s' = channel j (polled e b s)) ->
  scanned e b (Some b) hi s s'.
Proof.
  intros Hb Hhi Hp Hc. split; [|split; [|split]]; cbv zeta.
  - split; [lia | exact Hp].
  - intros j Hj. lia.
  - intros j Hj Hs. assert (j = b) as -> by lia. apply Hc.
  - intros j Hj Hout. rewrite Hc. apply polled_other; lia.
Qed.

Lemma scanned_none e b s : scanned e b None b s s.
Proof. split; [exact I|]. cbv zeta. repeat split; intros; try lia. Qed.

Lemma scanButtons_scanned e n : forall b s,
  0 <= b -> b + Z.of_nat n <= 4 -> buttonsOk s ->
  exists r s' o,
    scanButtons e n b s = Ret r s' o /\
    scanned e b r (b + Z.of_nat n) s s' /\
    o = match r with Some k => feedbackOutput k | None => [] end /\
    clock s' = clock s + match r with Some _ => 200 | None => 0 end.
Proof.
  induction n as [|n IH]; intros b s Hb Hhi Hok; cbn [scanButtons].
  - exists None, s, []. split; [reflexivity|].
    rewrite Z.add_0_r. split; [apply scanned_none|]. split; [reflexivity|lia].
  - unfold bind at 1. rewrite readButton_spec.
    destruct (pressed e b s) eqn:Hp.
    + unfold bind. rewrite pressFeedback_spec. cbn [ret app].
      eexists (Some b), _, _. split; [reflexivity|].
      split; [|split; [now rewrite app_nil_r|]].
      * apply scanned_here; auto using channel_set_clock; lia.
      * cbn [clock set_clock]. now rewrite polled_clock.
    + destruct (IH (b + 1) (polled e b s)) as (r & s' & o & H & Hs & Ho & Hc);
        [lia | lia | now apply polled_buttonsOk |].
      cbv beta iota. rewrite H. cbn [app].
      exists r, s', o. split; [reflexivity|].
      split; [|split; [exact Ho | now rewrite Hc, polled_clock]].
      replace (b + Z.of_nat (S n)) with (b + 1 + Z.of_nat n) by lia.
      apply scanned_next; auto; lia.
Qed.

Lemma checkFrom_scanned e n : forall b s,
  0 <= b -> b + Z.of_nat n <= 4 -> buttonsOk s ->
  exists r s',
    checkFrom e n b s = Ret (match r with Some _ => true | None => false end) s' [] /\
    scanned e b r (b + Z.of_nat n) s s' /\
    clock s' = clock s.
Proof.
  induction n as [|n IH]; intros b s Hb Hhi Hok; cbn [checkFrom].
  - exists None, s. split; [reflexivity|].
    rewrite Z.add_0_r. split; [apply scanned_none|reflexivity].
  - unfold bind at 1. rewrite readButton_spec.
    destruct (pressed e b s) eqn:Hp.
    + exists (Some b), (polled e b s). split; [reflexivity|].
      split; [|apply polled_clock].
      apply scanned_here; auto; lia.
    + destruct (IH (b + 1) (polled e b s)) as (r & s' & H & Hs & Hc);
        [lia | lia | now apply polled_buttonsOk |].
      cbv beta iota. rewrite H. cbn [app].
      exists r, s'. split; [reflexivity|].
      split; [|now rewrite Hc, polled_clock].
      replace (b + Z.of_nat (S n)) with (b + 1 + Z.of_nat n) by lia.
      apply scanned_next; auto; lia.
Qed.

(** The debounce arrays have their four cells all through a round: after
    the presenting phase, and after every wait of the replay. *)
Lemma round_buttonsOk e s0 s :
  reachable e s0 -> stateOf (presenting e s0) = Some s ->
  buttonsOk s /\
  forall r s1 o, awaitPress e s = Ret r s1 o -> buttonsOk s1.
Proof.
  intros Hr H. destruct (reachable_buttonsOk e s0 Hr) as (I1 & I2 & I3).
  apply stateOf_Some in H as ([] & o & H).
  assert (Hk : keeps sameSizes (presenting e)).
  { unfold presenting, addNewStep, displaySequence. unfold_io. keeps_sizes. }
  destruct (Hk _ _ _ _ H) as (H1 & H2 & H3).
  assert (Hok : buttonsOk s) by (unfold buttonsOk; rewrite H1, H2, H3; auto).
  split; [exact Hok|]. intros r s1 o1 Hw.
  assert (Hw' : keeps sameSizes (awaitPress e))
    by (unfold awaitPress; unfold_io; keeps_sizes).
  destruct (Hw' _ _ _ _ Hw) as (J1 & J2 & J3). destruct Hok as (K1 & K2 & K3).
  unfold buttonsOk. rewrite J1, J2, J3. auto.
Qed.

(** X5: one pass of the wait loop of [readPlayerSequence].  In a state whose
    debounce arrays have their four cells, as they have all through a round,
    a pass of [waitLoop] that begins while the step is less than 3000 ms old
    takes the press of the lowest-numbered button whose poll is accepted:
    the buttons before it gave no press, the buttons after it are not
    polled, so that their debounce state is as it was, and the polls do not
    disturb each other.  With a press the wait ends there, with the feedback
    for that button, 200 ms later; with none the pass is silent and the
    wait goes on after one polling pass.  The arrays keep their four cells. *)
Theorem scan_takes_lowest_button e fuel t0 s :
  buttonsOk s -> ulong (ulong (clock s) - t0) < 3000 ->
  exists r s1,
    scanned e 0 r 4 s s1 /\
    buttonsOk s1 /\
    clock s1 = clock s + match r with Some _ => 200 | None => 0 end /\
    waitLoop e (S fuel) t0 s =
    match r with
    | Some k => Ret (Some k) s1 (feedbackOutput k)
    | None => waitLoop e fuel t0 (idleState e s1)
    end.
Proof.
  intros Hok Ht.
  destruct (scanButtons_scanned e 4 0 s) as (r & s1 & o1 & H & Hs & Ho & Hc);
    [lia | simpl; lia | exact Hok |].
  exists r, s1. split; [exact Hs|]. split.
  { destruct (scanButtons_sameSizes e 4 0 _ _ _ _ H) as (J1 & J2 & J3).
    destruct Hok as (K1 & K2 & K3). unfold buttonsOk. rewrite J1, J2, J3. auto. }
  split; [exact Hc|].
  cbn [waitLoop]. unfold bind at 1. unfold millis at 1. cbn [gets].
  destruct (ulong (ulong (clock s) - t0) <? 3000) eqn:E;
    [|apply Z.ltb_ge in E; lia].
  unfold bind at 1. rewrite H. destruct r as [k|]; subst o1.
  - cbn [ret app]. now rewrite app_nil_r.
  - unfold bind, idle, advance, modify. fold (idleState e s1).
    destruct (waitLoop e fuel t0 (idleState e s1)); reflexivity.
Qed.

Lemma scan_takes_lowest_button_witness :
  buttonsOk secondShown /\
  exists r s1,
    scanned redPlayer 0 r 4 secondShown s1 /\
    waitLoop redPlayer 1 (ulong (clock secondShown)) secondShown =
    match r with
    | Some k => Ret (Some k) s1 (feedbackOutput k)
    | None => waitLoop redPlayer 0 (ulong (clock secondShown))
                (idleState redPlayer s1)
    end.
Proof.
  assert (Hok : buttonsOk secondShown).
  { apply (round_buttonsOk redPlayer secondRound secondShown).
    - apply (won_reachable redPlayer 1 afterSetup);
        [apply playRounds_won; vm_compute; reflexivity
        | exact afterSetup_reachable].
    - vm_compute. reflexivity. }
  split; [exact Hok|].
  destruct (scan_takes_lowest_button redPlayer 0 (ulong (clock secondShown))
              secondShown Hok) as (r & s1 & Hs & _ & _ & H).
  - vm_compute. reflexivity.
  - exists r, s1. split; [exact Hs | exact H].
Defined.

(** X6: [checkAnyButton] returns, prints nothing and takes no time of its
    own; it answers true exactly when the poll of one of the four buttons
    is accepted as a press, and then it has polled the buttons up to the
    lowest-numbered such button and no button after it. *)
Theorem checkAnyButton_first_press e s :
  reachable e s ->
  exists r s',
    checkAnyButton e s = Ret (match r with Some _ => true | None => false end) s' [] /\
    scanned e 0 r 4 s s' /\
    clock s' = clock s /\
    (r = None <-> forall j, 0 <= j < 4 -> pressed e j s = false).
Proof.
  intros Hr.
  destruct (checkFrom_scanned e 4 0 s) as (r & s' & H & Hs & Hc);
    [lia | simpl; lia | exact (reachable_buttonsOk e s Hr) |].
  exists r, s'. split; [exact H|]. split; [exact Hs|]. split; [exact Hc|].
  destruct Hs as (H1 & H2 & _). cbv zeta in H2. split.
  - intros ->. exact H2.
  - intros Hall. destruct r as [k|]; [|reflexivity].
    destruct H1 as [Hk Hp]. rewrite Hall in Hp by exact Hk. discriminate Hp.
Qed.

Lemma checkAnyButton_first_press_witness :
  exists s',
    checkAnyButton lateComer lateWaiting = Ret true s' [] /\
    scanned lateComer 0 (Some 0) 4 lateWaiting s'.
Proof.
  destruct (checkAnyButton_first_press lateComer lateWaiting lateWaiting_reachable)
    as (r & s' & H & Hs & _).
  assert (Hr : r = Some 0).
  { destruct Hs as (H1 & H2 & _). cbv zeta in H2.
    destruct r as [k|].
    - destruct (Z.eq_dec k 0) as [->|Hk]; [reflexivity|].
      assert (Hp : pressed lateComer 0 lateWaiting = false) by (apply H2; lia).
      vm_compute in Hp. discriminate Hp.
    - assert (Hp : pressed lateComer 0 lateWaiting = false) by (apply H2; lia).
      vm_compute in Hp. discriminate Hp. }
  subst r. exists s'. split; [exact H | exact Hs].
Defined.

(** ** Presses and releases *)

(** The polls of a button at any clock values, on its channel. *)
Lemma pollsAt_samplesAt e b ts : forall s,
  0 <= b < 4 -> buttonsOk s ->
  pollsAt e b ts s = debounceAll (channel b s) (samplesAt e b ts).
Proof.
  induction ts as [|t ts IH]; intros s Hb Hok; [reflexivity|].
  cbn [pollsAt samplesAt map debounceAll]. rewrite readButton_spec.
  assert (Hok' : buttonsOk (set_clock t s)) by exact Hok.
  pose proof (polled_channel e b (set_clock t s) Hb Hok') as Hc.
  unfold reading in Hc. cbn [clock set_clock] in Hc.
  change (channel b (set_clock t s)) with (channel b s) in Hc.
  rewrite <- Hc. cbn [fst snd]. f_equal.
  apply IH; auto using polled_buttonsOk.
Qed.

Lemma debounce_stable c r now :
  stable (fst (debounce c r now)) = HIGH -> r = LOW -> stable c = HIGH.
Proof.
  unfold debounce. cbn [fst stable]. intros H ->.
  destruct (_ && _); [discriminate H | exact H].
Qed.

Lemma debounceAll_presses samples : forall c,
  (pressCount (debounceAll c samples)
   <= (if Level_eqb (stable c) HIGH then 1 else 0)
      + length (List.filter (fun x => Level_eqb (snd x) HIGH) samples))%nat.
Proof.
  induction samples as [|[t r] rest IH]; intros c; [cbn; lia|].
  cbn [debounceAll List.filter snd].
  specialize (IH (fst (debounce c r t))).
  destruct (debounce c r t) as [c' p] eqn:E. cbn [fst snd] in *.
  destruct (debounce_press c r t c' p E) as (Hp & Hlow & Hhigh & _).
  destruct r; cbn [Level_eqb length].
  - destruct p; cbn [pressCount].
    + destruct Hp as [Hp _]. destruct (Hp eq_refl) as [Hs Hs'].
      rewrite Hs. rewrite Hs' in IH. cbn [Level_eqb] in *. lia.
    + destruct (stable c') eqn:Hs'; cbn [Level_eqb] in IH; [lia|].
      assert (Hs : stable c = HIGH).
      { apply (debounce_stable c LOW t); [|reflexivity]. now rewrite E. }
      rewrite Hs. cbn [Level_eqb]. lia.
  - rewrite (Hhigh eq_refl). cbn [pressCount].
    destruct (Level_eqb (stable c') HIGH), (Level_eqb (stable c) HIGH); lia.
Qed.

(** X7: a press is taken only after a release was seen.  Whatever the
    clock values of the polls of a button, also across the wrap of
    [millis], and whatever the debounce state it starts in, the polls give
    at most one press more than the number of polls that read the button
    released, and no more than that number when the button was taken as
    pressed already: a button that reads LOW at every poll is one press at
    most, however long it is held. *)
Theorem presses_need_releases e b ts s :
  0 <= b < 4 -> buttonsOk s ->
  (pressCount (pollsAt e b ts s)
   <= (if Level_eqb (stable (channel b s)) HIGH then 1 else 0)
      + highReads e b ts)%nat /\
  (highReads e b ts = 0%nat -> (pressCount (pollsAt e b ts s) <= 1)%nat).
Proof.
  intros Hb Hok.
  assert (H : (pressCount (pollsAt e b ts s)
               <= (if Level_eqb (stable (channel b s)) HIGH then 1 else 0)
                  + highReads e b ts)%nat).
  { rewrite pollsAt_samplesAt by assumption.
    etransitivity; [apply debounceAll_presses|].
    apply Nat.add_le_mono_l. unfold highReads, samplesAt.
    clear. induction ts as [|t ts IH]; [reflexivity|].
    cbn [map List.filter snd].
    destruct (Level_eqb (pinLevel e t (sel 0 buttonPins b)) HIGH);
      cbn [length]; lia. }
  split; [exact H|]. intros H0. rewrite H0 in H.
  destruct (Level_eqb (stable (channel b s)) HIGH); lia.
Qed.

Lemma presses_need_releases_witness :
  (pressCount (pollsAt lateComer 0%Z
                 [10000; 10060; 10120; 4294967300; 4294967400]%Z lateSetup)
   <= 1)%nat.
Proof.
  assert (H0 : 0 <= 0 < 4) by lia.
  destruct (presses_need_releases lateComer 0
              [10000; 10060; 10120; 4294967300; 4294967400] lateSetup H0
              (reachable_buttonsOk _ _ lateSetup_reachable)) as [_ H].
  apply H. vm_compute. reflexivity.
Defined.

(** ** Debouncing across the wrap of [millis] *)

Lemma debounce_low_first_wrap c t :
  stable c = HIGH -> lastRead c = HIGH ->
  debounce c LOW (ulong t)
  = ({| stable := HIGH; lastRead := LOW; changedAt := ulong t |}, false).
Proof.
  intros Hs Hl. unfold debounce. rewrite Hs, Hl. cbn [Level_eqb negb].
  rewrite Z.sub_diag. reflexivity.
Qed.

Lemma debounce_low_next_wrap c t0 t :
  stable c = HIGH -> lastRead c = LOW -> changedAt c = ulong t0 ->
  0 <= t - t0 < 2 ^ 32 ->
  debounce c LOW (ulong t) =
  (if debounceDelay <? t - t0
   then {| stable := LOW; lastRead := LOW; changedAt := ulong t0 |}
   else {| stable := HIGH; lastRead := LOW; changedAt := ulong t0 |},
   debounceDelay <? t - t0).
Proof.
  intros Hs Hl Hc Ht. unfold debounce. rewrite Hs, Hl, Hc. cbn [Level_eqb negb].
  rewrite ulong_diff by exact Ht.
  destruct (debounceDelay <? t - t0); reflexivity.
Qed.

Lemma samplesAt_low e b ts :
  Forall (fun t => pinLevel e t (sel 0 buttonPins b) = LOW) ts ->
  Forall (fun x => snd x = LOW) (samplesAt e b ts).
Proof.
  induction 1 as [|t ts Ht _ IH]; [constructor|].
  cbn [samplesAt map]. constructor; [exact Ht | exact IH].
Qed.

Lemma short_low_wrap e b t0 ts : forall c from,
  stable c = HIGH -> lastRead c = LOW -> changedAt c = ulong t0 ->
  t0 <= from -> within t0 from ts ->
  Forall (fun t => pinLevel e t (sel 0 buttonPins b) = LOW) ts ->
  Forall (fun t => t - t0 <= debounceDelay) ts ->
  Forall (fun p => p = false) (debounceAll c (samplesAt e b ts)).
Proof.
  induction ts as [|t ts IH]; intros c from Hs Hl Hc Hf Hw Hlow Hshort;
    [constructor|].
  destruct Hw as [Ht Hw].
  inversion Hlow as [|? ? Hr Hlow']; subst.
  inversion Hshort as [|? ? Hd Hshort']; subst.
  cbn [samplesAt map debounceAll]. rewrite Hr.
  rewrite (debounce_low_next_wrap c t0 t) by (auto; lia).
  assert (E : (debounceDelay <? t - t0) = false) by (apply Z.ltb_ge; exact Hd).
  rewrite E. cbn [fst snd]. constructor; [reflexivity|].
  apply (IH _ t); auto; lia.
Qed.

Lemma long_low_wrap e b t0 ts : forall c from,
  stable c = HIGH -> lastRead c = LOW -> changedAt c = ulong t0 ->
  t0 <= from -> within t0 from ts ->
  Forall (fun t => pinLevel e t (sel 0 buttonPins b) = LOW) ts ->
  Exists (fun t => debounceDelay < t - t0) ts ->
  pressCount (debounceAll c (samplesAt e b ts)) = 1%nat.
Proof.
  induction ts as [|t ts IH]; intros c from Hs Hl Hc Hf Hw Hlow Hex;
    [inversion Hex|].
  destruct Hw as [Ht Hw].
  inversion Hlow as [|? ? Hr Hlow']; subst.
  cbn [samplesAt map debounceAll]. rewrite Hr.
  rewrite (debounce_low_next_wrap c t0 t) by (auto; lia).
  destruct (debounceDelay <? t - t0) eqn:E; cbn [fst snd pressCount].
  - f_equal. apply pressCount_none.
    apply held_no_press; [reflexivity | reflexivity |].
    now apply samplesAt_low.
  - apply (IH _ t); auto; try lia.
    inversion Hex as [? ? Hx|? ? Hx]; subst; [|exact Hx].
    apply Z.ltb_ge in E. lia.
Qed.

(** X8: the debounce interval is measured right across the wrap of
    [millis].  A released button is read LOW at clock value [tm] and at the
    polls that follow, which come in order within 2^32 ms of [tm], before or
    after the clock passes 2^32: if none of them comes more than 50 ms after
    [tm] no press is taken, and if one does exactly one press is taken. *)
Theorem debounce_across_wrap e b s tm lows :
  0 <= b < 4 -> buttonsOk s -> released (channel b s) ->
  Forall (fun t => pinLevel e t (sel 0 buttonPins b) = LOW) (tm :: lows) ->
  within tm tm lows ->
  (Forall (fun t => t - tm <= debounceDelay) lows ->
   pressCount (pollsAt e b (tm :: lows) s) = 0%nat) /\
  (Exists (fun t => debounceDelay < t - tm) lows ->
   pressCount (pollsAt e b (tm :: lows) s) = 1%nat).
Proof.
  intros Hb Hok [Hs Hl] Hlow Hw.
  inversion Hlow as [|? ? Hr Hlow']; subst.
  rewrite pollsAt_samplesAt by assumption.
  cbn [samplesAt map debounceAll]. rewrite Hr.
  rewrite debounce_low_first_wrap by assumption. cbn [fst snd pressCount].
  split; intros H.
  - apply pressCount_none.
    apply (short_low_wrap e b tm lows _ tm); auto; lia.
  - apply (long_low_wrap e b tm lows _ tm); auto; lia.
Qed.

Lemma debounce_across_wrap_witness :
  pressCount (pollsAt lateComer 0 [4294967270; 4294967290; 4294967310]
                lateSetup) = 0%nat /\
  pressCount (pollsAt lateComer 0 [4294967270; 4294967290; 4294967330; 4294967390]
                lateSetup) = 1%nat.
Proof.
  assert (H0 : 0 <= 0 < 4) by lia.
  pose proof (reachable_buttonsOk _ _ lateSetup_reachable) as Hok.
  assert (Hrel : released (channel 0 lateSetup)) by (split; reflexivity).
  split.
  - destruct (debounce_across_wrap lateComer 0 lateSetup 4294967270
                [4294967290; 4294967310] H0 Hok Hrel) as [H _].
    + repeat constructor.
    + cbn [within]. lia.
    + apply H. repeat constructor; unfold debounceDelay; lia.
  - destruct (debounce_across_wrap lateComer 0 lateSetup 4294967270
                [4294967290; 4294967330; 4294967390] H0 Hok Hrel) as [_ H].
    + repeat constructor.
    + cbn [within]. lia.
    + apply H. apply Exists_cons_tl. apply Exists_cons_hd.
      unfold debounceDelay. lia.
Defined.

(** ** How long the replay takes *)

Lemma readSteps_timed e :
  0 < pollTime e <= 2 ^ 32 - 3000 ->
  forall fuel i s,
    0 <= i <= currentLevel s + 1 ->
    Z.of_nat (length (gameSequence s)) = MAX_LEVEL ->
    currentLevel s < MAX_LEVEL ->
    (Z.to_nat (currentLevel s + 1 - i) < fuel)%nat ->
    exists ok s' o,
      readSteps e fuel i s = Ret ok s' o /\
      if ok
      then 200 * (currentLevel s + 1 - i) <= clock s' - clock s
           <= 3199 * (currentLevel s + 1 - i)
      else 200 <= clock s' - clock s
           <= 3199 * (currentLevel s + 1 - i) + pollTime e.
Proof.
  intros Hp. induction fuel as [|fuel IH]; intros i s Hi Hlen Hl Hf; [lia|].
  unfold MAX_LEVEL in *.
  destruct (Z.le_gt_cases i (currentLevel s)) as [Hle|Hgt].
  - rewrite readSteps_unfold by exact Hle. unfold bind at 1.
    destruct (awaitPress_cases e s Hp) as (r & s1 & o1 & Hw & Hr). rewrite Hw.
    apply awaitPress_sameGame in Hw. destruct Hw as (Hseq & Hlvl & _).
    destruct r as [b|].
    + destruct Hr as (_ & _ & Hc).
      unfold bind at 1. cbn [gets]. unfold bind at 1. unfold index.
      destruct (at_ (gameSequence s1) i) as [x|] eqn:Hx.
      * cbn [ret]. destruct (negb (b =? x)).
        -- eexists false, _, _. split; [reflexivity|].
           cbn [clock println emit bind ret]. lia.
        -- rewrite byte_small by lia.
           destruct (IH (i + 1) s1) as (ok & s' & o & H & Hb);
             [lia | rewrite Hseq; exact Hlen | lia | lia |].
           rewrite H. exists ok, s'. eexists. split; [reflexivity|].
           rewrite Hlvl in Hb. destruct ok; lia.
      * exfalso. unfold at_ in Hx. destruct (i <? 0) eqn:E; [lia|].
        apply lookup_ge_None in Hx. rewrite Hseq in Hx. lia.
    + destruct Hr as (_ & Hc).
      eexists false, _, _. split; [reflexivity|].
      cbn [clock println emit bind ret]. lia.
  - cbn [readSteps]. unfold bind at 1. cbn [gets].
    destruct (i <=? currentLevel s) eqn:E; [lia|].
    eexists true, _, _. split; [reflexivity|].
    cbn [clock println emit bind ret]. lia.
Qed.

(** X9: [readPlayerSequence] returns, and in bounded time.  At level [L] the
    replay has [L + 1] steps.  When it returns true every step had its
    press, each with 200 ms of feedback and taken less than 3000 ms into
    the step; when it returns false a step was missed, after 200 ms at the
    least, and the last polling pass may have run past the timeout. *)
Theorem readPlayerSequence_in_time e s :
  0 < pollTime e <= 2 ^ 32 - 3000 ->
  length (gameSequence s) = 100%nat -> 0 <= currentLevel s < MAX_LEVEL ->
  exists ok s' o,
    readPlayerSequence e s = Ret ok s' o /\
    if ok
    then 200 * (currentLevel s + 1) <= clock s' - clock s
         <= 3199 * (currentLevel s + 1)
    else 200 <= clock s' - clock s
         <= 3199 * (currentLevel s + 1) + pollTime e.
Proof.
  intros Hp Hlen Hl.
  destruct (readSteps_timed e Hp 257 0 s) as (ok & s' & o & H & Hb);
    [lia | unfold MAX_LEVEL; lia | lia | unfold MAX_LEVEL in Hl; lia |].
  unfold readPlayerSequence, bind. cbn [println emit]. rewrite H.
  exists ok, s'. eexists. split; [reflexivity|].
  rewrite !Z.sub_0_r in Hb. exact Hb.
Qed.

Lemma readPlayerSequence_in_time_witness :
  exists ok s' o,
    readPlayerSequence lateComer lateShown = Ret ok s' o /\
    200 <= clock s' - clock lateShown <= 3199 + 60 /\ ok = false.
Proof.
  destruct (readPlayerSequence_in_time lateComer lateShown)
    as (ok & s' & o & H & Hb).
  - cbn [pollTime lateComer]. lia.
  - reflexivity.
  - unfold MAX_LEVEL. cbn [currentLevel lateShown]. lia.
  - assert (Hok : ok = false).
    { assert (H' : match readPlayerSequence lateComer lateShown with
                   | Ret r _ _ => r | _ => true end = ok) by now rewrite H.
      vm_compute in H'. now subst ok. }
    subst ok. exists false, s', o. split; [exact H|]. split; [|reflexivity].
    cbn [currentLevel lateShown pollTime lateComer] in Hb. lia.
Defined.

(** ** Waiting for a new game *)

(** X10: while the game is over a call of [loop] returns and does nothing
    but poll.  If the poll of no button is accepted as a press, the call
    sends nothing out, takes the time of one polling pass and leaves the
    game as it is, over; if the poll of some button is accepted, the call
    starts a new game: it announces the reset, waits 500 ms, runs the
    start-up sequence, 2900 ms in all, and keeps the high score. *)
Theorem loop_while_game_over e s :
  reachable e s -> gameOver s = true ->
  exists s' o,
    loop e s = Ret tt s' o /\
    ((forall j, 0 <= j < 4 -> pressed e j s = false) ->
     o = [] /\ clock s' = clock s + pollTime e /\ sameGame s s') /\
    ((exists j, 0 <= j < 4 /\ pressed e j s = true) ->
     o = SerialPrintln "Resetting game..." :: Delay 500 :: startupOutput /\
     clock s' = clock s + 2900 /\ gameStart s' /\
     highScore s' = highScore s /\ eeprom s' = eeprom s /\
     gameSequence s' = gameSequence s).
Proof.
  intros Hr Hg.
  destruct (checkFrom_scanned e 4 0 s) as (r & s1 & H & Hs & Hc);
    [lia | simpl; lia | exact (reachable_buttonsOk e s Hr) |].
  fold (checkAnyButton e s) in H.
  pose proof (checkAnyButton_sameGame e _ _ _ _ H)
    as (Q & L & Hh & Sp & G & Ee & D).
  rewrite (loop_idle e s _ s1 [] Hg H).
  destruct Hs as (H1 & H2 & _). cbv zeta in H2.
  destruct r as [k|].
  - eexists _, _. split; [reflexivity|]. split.
    + intros Hall. destruct H1 as [Hk Hp]. rewrite Hall in Hp by exact Hk.
      discriminate Hp.
    + intros _. rewrite resetGame_spec. cbn [outputOf app].
      split; [reflexivity|]. unfold resetState, gameStart.
      cbn [clock currentLevel currentSpeed gameOver highScore eeprom
           gameSequence set_clock set_gameOver set_currentSpeed
           set_currentLevel].
      rewrite Hc. repeat split; auto.
  - eexists _, _. split; [reflexivity|]. split.
    + intros _. split; [reflexivity|]. unfold idleState.
      cbn [clock set_clock]. split; [now rewrite Hc|].
      unfold sameGame.
      cbn [currentLevel currentSpeed gameOver highScore eeprom gameSequence
           draws set_clock].
      repeat split; assumption.
    + intros (j & Hj & Hp). rewrite H2 in Hp by lia. discriminate Hp.
Qed.

Lemma loop_while_game_over_witness :
  (exists s', loop lateComer lateLost = Ret tt s' [] /\
              clock s' = clock lateLost + 60) /\
  (exists s' o, loop lateComer lateWaiting = Ret tt s' o /\
                clock s' = clock lateWaiting + 2900 /\ highScore s' = 5).
Proof.
  split.
  - destruct (loop_while_game_over lateComer lateLost)
      as (s' & o & H & Hnone & _).
    + apply (reach_loop lateComer lateSetup);
        [exact lateSetup_reachable | vm_compute; reflexivity].
    + reflexivity.
    + destruct Hnone as (-> & Hc & _).
      * intros j Hj.
        assert (Hcases : j = 0 \/ j = 1 \/ j = 2 \/ j = 3) by lia.
        destruct Hcases as [-> | [-> | [-> | ->]]]; vm_compute; reflexivity.
      * exists s'. split; [exact H | exact Hc].
  - destruct (loop_while_game_over lateComer lateWaiting)
      as (s' & o & H & _ & Hsome).
    + exact lateWaiting_reachable.
    + reflexivity.
    + destruct Hsome as (_ & Hc & _ & Hh & _).
      * exists 0. split; [lia | vm_compute; reflexivity].
      * exists s', o. split; [exact H|]. split; [exact Hc|].
        rewrite Hh. reflexivity.
Defined.

(** ** The high score and the power *)

(** X11: the high score survives a power cycle.  Whatever state the sketch
    is in when the power goes, the score it keeps in memory is the one in
    the EEPROM; started again on a board whose EEPROM holds that value,
    [setup] returns with that high score, prints it, leaves the EEPROM
    alone and is at the start of a game, 2400 ms after power-up. *)
Theorem high_score_survives_power_cycle e s e' :
  reachable e s -> storedScore e' = eeprom s ->
  exists s0 o,
    setup (powerUp e') = Ret tt s0 o /\
    highScore s0 = highScore s /\ eeprom s0 = eeprom s /\
    gameStart s0 /\ clock s0 = 2400 /\
    In (SerialPrintlnNum (highScore s)) o /\ writes o = [].
Proof.
  intros Hr He. destruct (reachable_wf e s Hr) as [_ _ _ _ [Hh Hb]].
  assert (Hbyte : byte (storedScore e') = highScore s).
  { rewrite He, <- Hh. unfold byte. apply Z.mod_small. lia. }
  eexists _, _. split.
  { unfold setup. cbv -[byte storedScore replicate]. reflexivity. }
  cbn [highScore eeprom clock]. rewrite !Hbyte.
  assert (Hbb : byte (highScore s) = highScore s)
    by (unfold byte; apply Z.mod_small; lia).
  rewrite Hbb. split; [reflexivity|]. split; [exact Hh|].
  split; [repeat split|]. split; [reflexivity|].
  split; [|reflexivity].
  cbn [In]. do 16 right. left. reflexivity.
Qed.

Lemma high_score_survives_power_cycle_witness :
  highScore quitterSetup = 2 /\
  exists s0 o, setup (powerUp lateComer) = Ret tt s0 o /\ highScore s0 = 5.
Proof.
  split; [reflexivity|].
  assert (Hr : reachable quitter quitterLost).
  { apply (reach_loop quitter quitterLastRound);
      [exact quitterLastRound_reachable | vm_compute; reflexivity]. }
  destruct (high_score_survives_power_cycle quitter quitterLost lateComer
              Hr eq_refl) as (s0 & o & H & Hh & _).
  exists s0, o. split; [exact H|]. rewrite Hh. reflexivity.
Defined.

(** ** What the sketch sends out *)

Lemma allowed_all l :
  forallb allowed l = true -> Forall (fun ev => allowed ev = true) l.
Proof.
  induction l as [|ev l IH]; cbn [forallb]; intros H; [constructor|].
  apply andb_prop in H as [H1 H2]. constructor; auto.
Qed.

Lemma allowed_delay ms : 100 <= ms <= 1000 -> allowed (Delay ms) = true.
Proof. intros H. cbn [allowed]. apply andb_true_intro. split; lia. Qed.

Lemma allowed_present i x on off :
  0 <= x < 4 -> 100 <= on <= 1000 -> 100 <= off <= 1000 ->
  Forall (fun ev => allowed ev = true) (present i x on off).
Proof.
  intros Hx Hon Hoff. unfold present.
  repeat (apply Forall_cons; split); try apply Forall_nil;
    try (apply allowed_delay; assumption);
    destruct (symbol_cases x Hx) as [-> | [-> | [-> | ->]]]; reflexivity.
Qed.

Lemma allowed_playback xs : forall i on off,
  Forall (fun x => 0 <= x < 4) xs -> 100 <= on <= 1000 -> 100 <= off <= 1000 ->
  Forall (fun ev => allowed ev = true) (playback i xs on off).
Proof.
  induction xs as [|x xs IH]; intros i on off Hxs Hon Hoff; [constructor|].
  inversion Hxs; subst. cbn [playback]. apply Forall_app. split.
  - now apply allowed_present.
  - now apply IH.
Qed.

Lemma allowed_feedback k :
  0 <= k < 4 -> Forall (fun ev => allowed ev = true) (feedbackOutput k).
Proof.
  intros Hk. apply allowed_all.
  destruct (symbol_cases k Hk) as [-> | [-> | [-> | ->]]]; reflexivity.
Qed.

Lemma allowed_pulses n :
  Forall (fun ev => allowed ev = true) (concat (replicate n scorePulse)).
Proof.
  induction n as [|n IH]; [constructor|].
  cbn [replicate concat]. apply Forall_app. split; [|exact IH].
  apply allowed_all. reflexivity.
Qed.

Ltac allowed_step :=
  lazymatch goal with
  | |- emits _ (emit _) => apply emits_emit; reflexivity
  | |- _ => emits_step
  end.

Ltac allowed_tac := repeat allowed_step.

Lemma scanButtons_allowed e :
  emits (fun ev => allowed ev = true) (scanButtons e 4 0).
Proof.
  intros s r s' o H.
  destruct (scanButtons_cases e 4 0 s) as (r' & s1 & o1 & H1 & Hw).
  rewrite H1 in H. inversion H; subst. destruct r as [k|].
  - destruct Hw as (Hk & -> & _). apply allowed_feedback. simpl in Hk. lia.
  - destruct Hw as (-> & _). constructor.
Qed.

#[local] Hint Resolve scanButtons_allowed : emits.

Lemma waitLoop_allowed e fuel t0 :
  emits (fun ev => allowed ev = true) (waitLoop e fuel t0).
Proof. induction fuel as [|fuel IH]; cbn [waitLoop]; unfold_io; allowed_tac. Qed.

#[local] Hint Resolve waitLoop_allowed : emits.

Lemma readSteps_allowed e fuel : forall i,
  emits (fun ev => allowed ev = true) (readSteps e fuel i).
Proof.
  induction fuel as [|fuel IH]; intros i; cbn [readSteps]; unfold awaitPress;
    unfold_io; allowed_tac.
Qed.

#[local] Hint Resolve readSteps_allowed : emits.

Lemma readPlayerSequence_allowed e :
  emits (fun ev => allowed ev = true) (readPlayerSequence e).
Proof. unfold readPlayerSequence. unfold_io. allowed_tac. Qed.

Lemma gameOverOutput_allowed s :
  0 <= highScore s -> currentLevel s < MAX_LEVEL ->
  Forall (fun ev => allowed ev = true) (gameOverOutput s).
Proof.
  intros Hh Hl. unfold gameOverOutput.
  apply Forall_cons. split; [reflexivity|].
  apply Forall_app. split.
  { unfold recordOutput. destruct (highScore s <? currentLevel s) eqn:E;
      [|constructor].
    apply Z.ltb_lt in E.
    repeat (apply Forall_cons; split); try apply Forall_nil; try reflexivity.
    cbn [allowed]. rewrite Z.eqb_refl. cbn [andb].
    apply andb_true_intro. split; lia. }
  apply Forall_app. split; [apply allowed_all; reflexivity|].
  apply Forall_app. split; [|apply allowed_pulses].
  repeat (apply Forall_cons; split); try apply Forall_nil; reflexivity.
Qed.

(** X12: while the game is over or the level is below MAX_LEVEL, what a
    call of [loop] sends out is within bounds, in every state the sketch
    reaches.  It writes to the four LED pins only and sounds the buzzer pin
    only; every delay it asks for is between 100 and 1000 ms; if it writes
    to the EEPROM it writes the level, from 1 to 99, to the cell of the high
    score; it never configures a pin or opens the serial line, which is left
    to [setup].  (With the game on at MAX_LEVEL the call reads past the
    array and none of this is promised.) *)
Theorem loop_output_allowed e s s' o :
  reachable e s -> gameOver s = true \/ currentLevel s < MAX_LEVEL ->
  loop e s = Ret tt s' o ->
  Forall (fun ev => allowed ev = true) o.
Proof.
  intros Hr Hcase H. pose proof (reachable_wf e s Hr) as Hwf.
  destruct (gameOver s) eqn:Hg.
  - destruct (loop_idle_full e s s' o Hg H) as (p & s1 & o1 & H1 & _ & ->).
    destruct (checkFrom_scanned e 4 0 s) as (r & s1' & H1' & _);
      [lia | simpl; lia | exact (reachable_buttonsOk e s Hr) |].
    unfold checkAnyButton in H1. rewrite H1' in H1. inversion H1; subst.
    cbn [app]. destruct r; [|constructor].
    rewrite resetGame_spec. apply allowed_all. reflexivity.
  - assert (Hs : stateOf (loop e s) = Some s') by now rewrite H.
    pose proof (playing_below_max e s s' Hwf Hg Hs) as Hlt.
    destruct (loop_playing_full e s s' o Hg H)
      as (s1 & o1 & s2 & o2 & ok & s3 & o3 & H1 & H2 & H3 & _ & ->).
    pose proof (presenting_spec e s Hwf Hlt) as Hp.
    unfold presenting, bind in Hp. rewrite H1, H2 in Hp.
    injection Hp as _ Ho.
    pose proof (addNewStep_sameLevel e _ _ _ _ H1) as SL.
    pose proof (displaySequence_sameGame _ _ _ _ H2) as SG2.
    pose proof (readPlayerSequence_sameGame e _ _ _ _ H3) as SG3.
    destruct Hwf as [Hlen Hsym Hlvl Hspeed [Hee Hhs]].
    rewrite app_assoc. rewrite Ho. apply Forall_app. split.
    + do 3 (apply Forall_cons; split; [reflexivity|]).
      apply Forall_app. split; [|apply allowed_all; reflexivity].
      pose proof (speedFor_range (currentLevel s)) as [Hmin Hmax].
      unfold MIN_SPEED, INITIAL_SPEED in *.
      apply allowed_playback.
      * apply Forall_app. split.
        -- unfold sequence. now apply Forall_take.
        -- constructor; [apply nextSymbol_range | constructor].
      * rewrite Hspeed. lia.
      * rewrite Hspeed.
        assert (125 <= speedFor (currentLevel s) / 2 <= 500)
          by (split; [apply Z.div_le_lower_bound | apply Z.div_le_upper_bound]; lia).
        lia.
    + apply Forall_app. split; [exact (readPlayerSequence_allowed e _ _ _ _ H3)|].
      destruct ok.
      * rewrite levelUp_spec. cbn [outputOf]. apply allowed_all. reflexivity.
      * apply gameOverOutput_allowed.
        -- destruct SG2 as (_ & _ & A2 & _), SG3 as (_ & _ & A3 & _).
           destruct SL as (_ & _ & A1 & _). rewrite A3, A2, A1. lia.
        -- destruct SG2 as (_ & L2 & _), SG3 as (_ & L3 & _).
           destruct SL as (L1 & _). rewrite L3, L2, L1. exact Hlt.
Qed.

Lemma loop_output_allowed_witness :
  Forall (fun ev => allowed ev = true) (outputOf (loop quitter quitterLastRound)).
Proof.
  destruct (loop quitter quitterLastRound) as [[] s' o| |] eqn:H;
    [|vm_compute in H; discriminate H|vm_compute in H; discriminate H].
  cbn [outputOf].
  apply (loop_output_allowed quitter quitterLastRound s' o
           quitterLastRound_reachable); [|exact H].
  right. unfold MAX_LEVEL. cbn [currentLevel quitterLastRound]. lia.
Defined.

(** ** How long a round takes *)

(** X13: a round is played in bounded time.  From a state the sketch can be
    in, with the game on below the last level [L], a call of [loop]
    returns.  The playback takes [L + 1] times the speed and half the speed.
    A round that is won then takes the replay, 200 to 3199 ms for each of
    its [L + 1] steps, and the 1000 ms of [levelUp]; a round that is lost
    takes a replay of 200 ms at the least and one polling pass more than
    that at the most, and the 2600 ms of the game-over display with 400 ms
    for each level of the score. *)
Theorem round_in_time e s :
  0 < pollTime e <= 2 ^ 32 - 3000 ->
  reachable e s -> gameOver s = false -> currentLevel s < MAX_LEVEL ->
  exists s' o,
    loop e s = Ret tt s' o /\
    let steps := currentLevel s + 1 in
    let shown := steps * (currentSpeed s + currentSpeed s / 2) in
    if gameOver s'
    then shown + 200 + 2600 + 400 * currentLevel s
         <= clock s' - clock s
         <= shown + 3199 * steps + pollTime e + 2600 + 400 * currentLevel s
    else shown + 200 * steps + 1000
         <= clock s' - clock s
         <= shown + 3199 * steps + 1000.
Proof.
  intros Hp Hr Hg Hlt. pose proof (reachable_wf e s Hr) as Hwf.
  pose proof (presenting_spec e s Hwf Hlt) as Hpres.
  pose proof (wf_added e s Hwf) as [Hlen' _ _ _ _].
  destruct Hwf as [Hlen _ Hlvl _ _].
  rewrite (loop_presenting e s Hg). unfold bind at 1. rewrite Hpres.
  set (s2 := set_clock _ (addedState e s)) in *.
  assert (L2 : currentLevel s2 = currentLevel s) by reflexivity.
  assert (C2 : clock s2 = clock s
                 + (currentLevel s + 1) * (currentSpeed s + currentSpeed s / 2))
    by reflexivity.
  destruct (readSteps_timed e Hp 257 0 s2) as (ok & s3 & o3 & H3 & Hb).
  { rewrite L2. lia. }
  { change (gameSequence s2) with (gameSequence (addedState e s)).
    rewrite Hlen'. reflexivity. }
  { rewrite L2. exact Hlt. }
  { rewrite L2. unfold MAX_LEVEL in Hlt. lia. }
  assert (HR : readPlayerSequence e s2
               = Ret ok s3 (SerialPrintln "Reading player input..." :: o3)).
  { unfold readPlayerSequence, bind. cbn [println emit]. now rewrite H3. }
  pose proof (readPlayerSequence_sameGame e _ _ _ _ HR) as (_ & L3 & _ & _ & G3 & _).
  unfold bind. rewrite HR. rewrite L2, Z.sub_0_r in Hb.
  destruct ok; cbn [negb].
  - rewrite levelUp_spec. eexists _, _. split; [reflexivity|].
    cbv zeta. cbn [gameOver levelUpState set_clock set_currentSpeed
                   set_currentLevel clock].
    rewrite G3. change (gameOver s2) with (gameOver s). rewrite Hg. lia.
  - rewrite handleGameOver_spec. eexists _, _. split; [reflexivity|].
    cbv zeta. destruct (gameOverState_fields s3) as (-> & _).
    unfold gameOverState. cbn [clock set_clock]. rewrite L3, L2. lia.
Qed.

Lemma round_in_time_witness :
  exists s' o,
    loop lateComer lateSetup = Ret tt s' o /\ gameOver s' = true /\
    1500 + 200 + 2600 <= clock s' - clock lateSetup <= 1500 + 3199 + 60 + 2600.
Proof.
  destruct (round_in_time lateComer lateSetup) as (s' & o & H & Hb).
  - cbn [pollTime lateComer]. lia.
  - exact lateSetup_reachable.
  - reflexivity.
  - unfold MAX_LEVEL. cbn [currentLevel lateSetup]. lia.
  - assert (Hover : gameOver s' = true).
    { assert (H' : match loop lateComer lateSetup with
                   | Ret _ t _ => gameOver t | _ => false end = gameOver s')
        by now rewrite H.
      vm_compute in H'. symmetry. exact H'. }
    exists s', o. split; [exact H|]. split; [exact Hover|].
    cbv zeta in Hb. rewrite Hover in Hb.
    cbn [currentLevel currentSpeed lateSetup pollTime lateComer] in Hb.
    change (1000 / 2) with 500 in Hb. lia.
Defined.

(** ** The score, in beeps *)

Lemma beeps_app o1 o2 : beeps (o1 ++ o2) = (beeps o1 + beeps o2)%nat.
Proof. unfold beeps. now rewrite List.filter_app, length_app. Qed.

Lemma beeps_none o : Forall (fun ev => isBeep ev = false) o -> beeps o = 0%nat.
Proof.
  unfold beeps. induction 1 as [|ev o Hev _ IH]; [reflexivity|].
  cbn [List.filter]. now rewrite Hev.
Qed.

Lemma beeps_pulses n : beeps (concat (replicate n scorePulse)) = n.
Proof.
  induction n as [|n IH]; [reflexivity|].
  cbn [replicate concat]. rewrite beeps_app, IH. reflexivity.
Qed.

Ltac beepless_step :=
  lazymatch goal with
  | |- emits _ (emit _) => apply emits_emit; reflexivity
  | |- _ => emits_step
  end.

Ltac beepless := repeat beepless_step.

Lemma addNewStep_beepless e : emits (fun ev => isBeep ev = false) (addNewStep e).
Proof. unfold addNewStep. unfold_io. beepless. Qed.

Lemma displayFrom_beepless fuel : forall i,
  emits (fun ev => isBeep ev = false) (displayFrom fuel i).
Proof.
  induction fuel as [|fuel IH]; intros i; cbn [displayFrom];
    unfold displayStep, showStep; unfold_io; beepless.
Qed.

Lemma scanButtons_beepless e n : forall b,
  emits (fun ev => isBeep ev = false) (scanButtons e n b).
Proof.
  induction n as [|n IH]; intros b; cbn [scanButtons];
    unfold pressFeedback, readButton; unfold_io; beepless.
Qed.

#[local] Hint Resolve displayFrom_beepless scanButtons_beepless : emits.

Lemma waitLoop_beepless e fuel t0 :
  emits (fun ev => isBeep ev = false) (waitLoop e fuel t0).
Proof. induction fuel as [|fuel IH]; cbn [waitLoop]; unfold_io; beepless. Qed.

#[local] Hint Resolve waitLoop_beepless : emits.

Lemma readSteps_beepless e fuel : forall i,
  emits (fun ev => isBeep ev = false) (readSteps e fuel i).
Proof.
  induction fuel as [|fuel IH]; intros i; cbn [readSteps]; unfold awaitPress;
    unfold_io; beepless.
Qed.

#[local] Hint Resolve readSteps_beepless : emits.

(** X14: the score can be counted.  A call of [loop] that plays a round
    sounds no 440 Hz beep of 100 ms if the round is won, and if the round
    is lost exactly as many as the level the game ended at, which is the
    number it prints as the final score. *)
Theorem score_in_beeps e s s' o :
  reachable e s -> gameOver s = false -> loop e s = Ret tt s' o ->
  Z.of_nat (beeps o) = (if gameOver s' then currentLevel s' else 0) /\
  (gameOver s' = true ->
   In (SerialPrintlnNum (Z.of_nat (beeps o))) o).
Proof.
  intros Hr Hg H. pose proof (reachable_wf e s Hr) as Hwf.
  destruct (loop_playing_full e s s' o Hg H)
    as (s1 & o1 & s2 & o2 & ok & s3 & o3 & H1 & H2 & H3 & -> & ->).
  destruct (round_fields e s s1 o1 s2 o2 ok s3 o3 H1 H2 H3)
    as (L3 & _ & _ & _ & G3).
  destruct Hwf as [_ _ Hlvl _ _].
  assert (B1 : beeps o1 = 0%nat)
    by (apply beeps_none; exact (addNewStep_beepless e _ _ _ _ H1)).
  assert (B2 : beeps o2 = 0%nat).
  { apply beeps_none. revert H2. unfold displaySequence. unfold_io.
    generalize s1 tt s2 o2.
    change (emits (fun ev => isBeep ev = false)
              (emit (SerialPrintln "Displaying sequence...") ;;
               displayFrom 257 0 ;; emit (SerialPrintln "Sequence complete"))).
    beepless. }
  assert (B3 : beeps o3 = 0%nat).
  { apply beeps_none. revert H3. unfold readPlayerSequence. unfold_io.
    generalize s2 ok s3 o3.
    change (emits (fun ev => isBeep ev = false)
              (emit (SerialPrintln "Reading player input...") ;;
               readSteps e 257 0)).
    beepless. }
  rewrite !beeps_app, B1, B2, B3. cbn [Nat.add].
  destruct ok.
  - rewrite levelUp_spec. cbn [outputOf gameOver levelUpState set_clock
                               set_currentSpeed set_currentLevel].
    rewrite G3, Hg. split; [reflexivity | discriminate].
  - destruct (gameOverState_fields s3) as (-> & -> & _).
    assert (Hb : Z.of_nat (beeps (gameOverOutput s3)) = currentLevel s3).
    { unfold gameOverOutput.
      change (SerialPrintln "Game Over!" :: ?l)
        with ([SerialPrintln "Game Over!"] ++ l).
      rewrite !beeps_app, beeps_pulses.
      replace (beeps (recordOutput s3)) with 0%nat
        by (unfold recordOutput; destruct (_ <? _); reflexivity).
      change (beeps errorOutput) with 0%nat. cbn. lia. }
    split; [exact Hb|]. intros _. rewrite Hb.
    apply in_or_app. right. apply in_or_app. right. apply in_or_app. right.
    unfold gameOverOutput. right. apply in_or_app. right.
    apply in_or_app. right. right. left. reflexivity.
Qed.

Lemma score_in_beeps_witness :
  beeps (outputOf (loop quitter quitterLastRound)) = 5%nat.
Proof.
  destruct (loop quitter quitterLastRound) as [[] s' o| |] eqn:H;
    [|vm_compute in H; discriminate H|vm_compute in H; discriminate H].
  cbn [outputOf].
  destruct (score_in_beeps quitter quitterLastRound s' o
              quitterLastRound_reachable eq_refl H) as [Hb _].
  assert (Hs : stateOf (loop quitter quitterLastRound) = Some s')
    by now rewrite H.
  vm_compute in Hs. injection Hs as <-.
  cbn [gameOver currentLevel] in Hb. lia.
Defined.
